(** * IDGAF.ai core runtime: cache, registry, streaming and retry utilities

    A shallow embedding of
      - packages/core/src/runtime/LRUCache.ts
      - packages/core/dist/runtime/ModelRegistry.js
      - packages/core/src/utils/StreamingUtils.ts
      - packages/core/src/utils/ErrorHandler.ts
    followed by the properties the design document states about them.

    Conventions.  JavaScript numbers that hold byte sizes, counters and
    millisecond timestamps are integers of [Z].  [new Date()] is an explicit
    argument [now].  A JavaScript [Map] is an association list in iteration
    order (keys unique, first insertion first).  A call that awaits an
    adapter is modelled by appending to a trace of adapter calls: both
    adapters of the repository swallow every dispose error, so
    [unloadModel] always resolves.  A [while] loop whose termination depends
    on the data takes a fuel argument and returns [None] when the fuel does
    not suffice. *)

From Stdlib Require Import ZArith List String Ascii Bool Lia QArith DecimalString.
Import ListNotations.
Open Scope string_scope.
Open Scope list_scope.
Open Scope Z_scope.

(** ** JavaScript values *)

Module Js.

(** Truthiness of a string: only the empty string is falsy. *)
Definition truthy (s : string) : bool :=
  match s with
  | EmptyString => false
  | String _ _ => true
  end.

(** A [Map<string, V>] in iteration order. *)
Definition Map (V : Type) := list (string * V).

Section MapOps.
Context {V : Type}.

Fixpoint map_get (k : string) (m : Map V) : option V :=
  match m with
  | [] => None
  | (k', v) :: m' => if String.eqb k k' then Some v else map_get k m'
  end.

Definition map_has (k : string) (m : Map V) : bool :=
  match map_get k m with
  | Some _ => true
  | None => false
  end.

(** [Map.prototype.set]: an existing key keeps its position, a new key
    goes to the end. *)
Fixpoint map_set (k : string) (v : V) (m : Map V) : Map V :=
  match m with
  | [] => [(k, v)]
  | (k', v') :: m' =>
      if String.eqb k k' then (k', v) :: m' else (k', v') :: map_set k v m'
  end.

Fixpoint map_delete (k : string) (m : Map V) : Map V :=
  match m with
  | [] => []
  | (k', v') :: m' =>
      if String.eqb k k' then m' else (k', v') :: map_delete k m'
  end.

Definition map_size (m : Map V) : Z := Z.of_nat (List.length m).

Definition map_keys (m : Map V) : list string := List.map fst m.

Definition map_values (m : Map V) : list V := List.map snd m.

End MapOps.

(** [Array.prototype.slice(start)] for an integer [start]: a negative
    [start] counts from the end, and both ends are clamped. *)
Definition slice_from {A : Type} (start : Z) (l : list A) : list A :=
  let len := Z.of_nat (List.length l) in
  let k := if start <? 0 then Z.max (len + start) 0 else Z.min start len in
  skipn (Z.to_nat k) l.

(** [Array.prototype.join('')]. *)
Definition join_empty (l : list string) : string :=
  fold_right String.append EmptyString l.

(** [String.prototype.toLowerCase].  A string is the sequence of the UTF-8
    bytes of the JavaScript string.  The letters A to Z are lowered; so are
    the two characters outside ASCII whose lower case holds an ASCII
    letter: U+212A KELVIN SIGN (bytes 226 132 170) becomes [k], and U+0130
    (bytes 196 176) becomes [i] followed by U+0307 (bytes 204 135).  Every
    other character outside ASCII is left as it is: its lower case holds no
    ASCII character, so that no comparison with ASCII text tells the
    difference. *)
Definition lower_ascii (c : ascii) : ascii :=
  let n := nat_of_ascii c in
  if (Nat.leb 65 n && Nat.leb n 90)%bool then ascii_of_nat (n + 32) else c.

Definition is_byte (n : nat) (c : ascii) : bool := Nat.eqb (nat_of_ascii c) n.

Fixpoint toLowerCase (s : string) : string :=
  match s with
  | EmptyString => EmptyString
  | String c s' =>
      let plain := String (lower_ascii c) (toLowerCase s') in
      match s' with
      | EmptyString => plain
      | String c1 s'' =>
          if (is_byte 196 c && is_byte 176 c1)%bool
          then String "i" (String (ascii_of_nat 204)
                             (String (ascii_of_nat 135) (toLowerCase s'')))
          else match s'' with
               | EmptyString => plain
               | String c2 s''' =>
                   if (is_byte 226 c && is_byte 132 c1 && is_byte 170 c2)%bool
                   then String "k" (toLowerCase s''')
                   else plain
               end
      end
  end.

(** [String.prototype.includes]. *)
Fixpoint includes (needle hay : string) : bool :=
  if String.prefix needle hay then true
  else match hay with
       | EmptyString => false
       | String _ hay' => includes needle hay'
       end.

(** [String.prototype.endsWith]. *)
Definition endsWith (suffix s : string) : bool :=
  let n := String.length s in
  let m := String.length suffix in
  (Nat.leb m n && String.eqb (String.substring (n - m) m s) suffix)%bool.

(** [Array.prototype.sort(cmp)]: the sort is stable, [a] is placed before
    [b] when [cmp a b < 0] and equal elements keep their order.  Written
    as an insertion sort that inserts from the right. *)
Section Sort.
Context {A : Type} (cmp : A -> A -> Z).

Fixpoint sort_insert (x : A) (l : list A) : list A :=
  match l with
  | [] => [x]
  | y :: l' => if cmp x y <=? 0 then x :: y :: l' else y :: sort_insert x l'
  end.

Fixpoint sort (l : list A) : list A :=
  match l with
  | [] => []
  | x :: l' => sort_insert x (sort l')
  end.
End Sort.

End Js.

(** ** types.ts *)

Module ModelInfo.
Record t := mk {
  name : string;
  format : string;
  type : string;
  size : Z;
  version : string;
  checksum : string
}.
End ModelInfo.

Module AdapterCapabilities.
Record t := mk {
  supportsStreaming : bool;
  supportsGPU : bool;
  supportsQuantization : list string;
  maxContextLength : option Z;
  supportedFormats : list string
}.
End AdapterCapabilities.

Module ModelAdapter.
(** [loadModel] and [unloadModel] are effects of the native runtime; the
    cache only ever calls [unloadModel], recorded in its trace. *)
Record t := mk {
  format : string;
  supportedTypes : list string;
  canHandle : string -> option ModelInfo.t -> bool;
  getCapabilities : AdapterCapabilities.t
}.
End ModelAdapter.

Module LoadedModel.
Record t := mk {
  id : string;
  info : ModelInfo.t;
  adapter : ModelAdapter.t
}.
End LoadedModel.

Module CacheEntry.
Record t := mk {
  key : string;
  modelId : string;
  size : Z;
  lastAccessed : Z;
  hitCount : Z
}.
End CacheEntry.

Module HardwareInfo.
Record t := mk {
  platform : string;
  hasGPU : bool;
  hasNPU : bool;
  memoryMB : Z;
  cores : Z;
  architecture : string
}.
End HardwareInfo.

(** ** runtime/LRUCache.ts *)

Module LRUCache.

Record Cached := mkCached {
  model : LoadedModel.t;
  entry : CacheEntry.t
}.

(** One call [adapter.unloadModel(modelId)], the adapter named by its
    format tag. *)
Definition AdapterCall : Type := string * string.

Definition unloadModel (m : LoadedModel.t) : AdapterCall :=
  (ModelAdapter.format (LoadedModel.adapter m), LoadedModel.id m).

Record t := mk {
  cache : Js.Map Cached;
  maxSize : Z;
  currentSize : Z;
  unloads : list AdapterCall
}.

Definition new (maxSizeMB : Z) : t :=
  {| cache := []; maxSize := maxSizeMB * 1024 * 1024; currentSize := 0;
     unloads := [] |}.

(** The error thrown by [set]:
    [Model size ${modelSize} exceeds cache capacity ${maxSize}]. *)
Inductive Error :=
| CapacityExceeded (modelSize capacity : Z).

Inductive Outcome :=
| Resolved
| Rejected (e : Error).

Definition touch (now : Z) (c : Cached) : Cached :=
  let e := entry c in
  {| model := model c;
     entry := {| CacheEntry.key := CacheEntry.key e;
                 CacheEntry.modelId := CacheEntry.modelId e;
                 CacheEntry.size := CacheEntry.size e;
                 CacheEntry.lastAccessed := now;
                 CacheEntry.hitCount := CacheEntry.hitCount e + 1 |} |}.

Definition get (key : string) (now : Z) (st : t) : option LoadedModel.t * t :=
  match Js.map_get key (cache st) with
  | None => (None, st)
  | Some cached =>
      let cached' := touch now cached in
      (Some (model cached'),
       {| cache := Js.map_set key cached' (Js.map_delete key (cache st));
          maxSize := maxSize st;
          currentSize := currentSize st;
          unloads := unloads st |})
  end.

Definition delete (key : string) (st : t) : t :=
  match Js.map_get key (cache st) with
  | Some cached =>
      {| cache := Js.map_delete key (cache st);
         maxSize := maxSize st;
         currentSize := currentSize st - CacheEntry.size (entry cached);
         unloads := unloads st ++ [unloadModel (model cached)] |}
  | None => st
  end.

(** The scan of [evictLRU]: the pair [(oldestKey, oldestTime)] after the
    [for ... of this.cache.entries()] loop; [None] is [null]. *)
Definition oldest_step (acc : option string * option Z) (kc : string * Cached)
  : option string * option Z :=
  let '(k, c) := kc in
  let t := CacheEntry.lastAccessed (entry c) in
  match snd acc with
  | None => (Some k, Some t)
  | Some oldestTime => if t <? oldestTime then (Some k, Some t) else acc
  end.

Definition oldest (m : Js.Map Cached) : option string * option Z :=
  fold_left oldest_step m (None, None).

(** [if (oldestKey)] tests truthiness: neither [null] nor the empty
    string passes. *)
Definition evictLRU (st : t) : t :=
  match fst (oldest (cache st)) with
  | Some oldestKey => if Js.truthy oldestKey then delete oldestKey st else st
  | None => st
  end.

(** [while (currentSize + modelSize > maxSize && cache.size > 0)
      await this.evictLRU()]. *)
Fixpoint evict_while (fuel : nat) (modelSize : Z) (st : t) : option t :=
  if ((currentSize st + modelSize >? maxSize st)
      && (Js.map_size (cache st) >? 0))%bool
  then match fuel with
       | O => None
       | S fuel' => evict_while fuel' modelSize (evictLRU st)
       end
  else Some st.

Definition set (fuel : nat) (key : string) (model : LoadedModel.t) (now : Z)
    (st : t) : option (Outcome * t) :=
  let modelSize := ModelInfo.size (LoadedModel.info model) in
  match evict_while fuel modelSize st with
  | None => None
  | Some st1 =>
      if modelSize >? maxSize st1
      then Some (Rejected (CapacityExceeded modelSize (maxSize st1)), st1)
      else
        let entry := {| CacheEntry.key := key;
                        CacheEntry.modelId := LoadedModel.id model;
                        CacheEntry.size := modelSize;
                        CacheEntry.lastAccessed := now;
                        CacheEntry.hitCount := 1 |} in
        let st2 :=
          match Js.map_get key (cache st1) with
          | Some existing =>
              {| cache := cache st1;
                 maxSize := maxSize st1;
                 currentSize :=
                   currentSize st1 - CacheEntry.size (LRUCache.entry existing);
                 unloads := unloads st1 ++ [unloadModel (LRUCache.model existing)] |}
          | None => st1
          end in
        Some (Resolved,
              {| cache := Js.map_set key (mkCached model entry) (cache st2);
                 maxSize := maxSize st2;
                 currentSize := currentSize st2 + modelSize;
                 unloads := unloads st2 |})
  end.

Definition clear (st : t) : t :=
  {| cache := [];
     maxSize := maxSize st;
     currentSize := 0;
     unloads := unloads st
                ++ List.map (fun c => unloadModel (model c))
                     (Js.map_values (cache st)) |}.

Record Stats := mkStats {
  totalSize : Z;
  entryCount : Z;
  hitRate : Q
}.

Definition totalHits (st : t) : Z :=
  fold_left (fun sum cached => sum + CacheEntry.hitCount (entry cached))
    (Js.map_values (cache st)) 0.

Definition getStats (st : t) : Stats :=
  let totalHits := totalHits st in
  let totalAccesses := totalHits in
  let hitRate :=
    if totalAccesses >? 0
    then (inject_Z totalHits / inject_Z totalAccesses)%Q
    else 0%Q in
  {| totalSize := currentSize st;
     entryCount := Js.map_size (cache st);
     hitRate := hitRate |}.

Definition getEntries (st : t) : list CacheEntry.t :=
  List.map entry (Js.map_values (cache st)).

Definition prune (maxAge now : Z) (st : t) : Z * t :=
  let keysToDelete :=
    Js.map_keys
      (List.filter
         (fun kc => now - CacheEntry.lastAccessed (entry (snd kc)) >? maxAge)
         (cache st)) in
  (Z.of_nat (List.length keysToDelete), fold_left (fun s k => delete k s) keysToDelete st).

End LRUCache.

(** States of a cache of byte capacity [capacity] that a caller can reach
    through the public methods, every stored model satisfying
    [admissible].  A call of [set] counts once it has settled. *)
Module LRUCacheStates.
Import LRUCache.

Definition empty (capacity : Z) : t :=
  {| cache := []; maxSize := capacity; currentSize := 0; unloads := [] |}.

Section Reachable.
Variable admissible : LoadedModel.t -> Prop.
Variable capacity : Z.

Inductive reachable : t -> Prop :=
| reach_new : reachable (empty capacity)
| reach_get key now st :
    reachable st -> reachable (snd (get key now st))
| reach_set fuel key model now st r st' :
    reachable st -> admissible model ->
    set fuel key model now st = Some (r, st') -> reachable st'
| reach_delete key st :
    reachable st -> reachable (delete key st)
| reach_clear st :
    reachable st -> reachable (clear st)
| reach_prune maxAge now st :
    reachable st -> reachable (snd (prune maxAge now st)).
End Reachable.

(** Models whose declared byte size is not negative. *)
Definition sized (m : LoadedModel.t) : Prop :=
  0 <= ModelInfo.size (LoadedModel.info m).

Definition anyModel (m : LoadedModel.t) : Prop := True.

Definition total (m : Js.Map Cached) : Z :=
  fold_right (fun c acc => CacheEntry.size (entry c) + acc) 0 (Js.map_values m).

(** The sum of [entry.size] over all cache entries. *)
Definition sum_sizes (st : t) : Z := total (cache st).

(** The loop condition of [set]. *)
Definition pressed (modelSize : Z) (st : t) : bool :=
  ((currentSize st + modelSize >? maxSize st)
   && (Js.map_size (cache st) >? 0))%bool.

(** The cache after [n] calls of [evictLRU]. *)
Fixpoint evictions (n : nat) (st : t) : t :=
  match n with
  | O => st
  | S n' => evictions n' (evictLRU st)
  end.

(** The bookkeeping of a cache whose models all have a size: keys are
    unique, [currentSize] is the sum of the entry sizes, and no entry has a
    negative size. *)
Definition accounted (st : t) : Prop :=
  NoDup (Js.map_keys (cache st))
  /\ currentSize st = sum_sizes st
  /\ Forall (fun c => 0 <= CacheEntry.size (entry c)) (Js.map_values (cache st)).

Definition counted (st : t) : Prop :=
  Forall (fun c => 1 <= CacheEntry.hitCount (entry c)) (Js.map_values (cache st)).

(** The map entry [set] stores for a model, and the same entry after
    [hits - 1] calls of [get], the last one at [time]. *)
Definition entryOf (key : string) (m : LoadedModel.t) (time hits : Z)
  : string * Cached :=
  (key, mkCached m (CacheEntry.mk key (LoadedModel.id m)
                      (ModelInfo.size (LoadedModel.info m)) time hits)).

(** The cache after entries A, B and C were stored in that order, without
    eviction, and A was then read back at [tG]. *)
Definition afterGet (capacity : Z) (kA kB kC : string)
    (mA mB mC : LoadedModel.t) (tB tC tG : Z) : t :=
  {| cache := [entryOf kB mB tB 1; entryOf kC mC tC 1; entryOf kA mA tG 2];
     maxSize := capacity;
     currentSize := 0 + ModelInfo.size (LoadedModel.info mA)
                    + ModelInfo.size (LoadedModel.info mB)
                    + ModelInfo.size (LoadedModel.info mC);
     unloads := [] |}.

End LRUCacheStates.

(** ** runtime/ModelRegistry.js *)

Module ModelRegistry.

Record t := mk {
  adapters : Js.Map ModelAdapter.t;
  loadedModels : Js.Map LoadedModel.t
}.

Definition new : t := {| adapters := []; loadedModels := [] |}.

Definition registerAdapter (adapter : ModelAdapter.t) (r : t) : t :=
  {| adapters := Js.map_set (ModelAdapter.format adapter) adapter (adapters r);
     loadedModels := loadedModels r |}.

Definition getAdapter (format : string) (r : t) : option ModelAdapter.t :=
  Js.map_get format (adapters r).

Definition getAllAdapters (r : t) : list ModelAdapter.t :=
  Js.map_values (adapters r).

Record Candidate := mkCandidate {
  adapter : ModelAdapter.t;
  score : Z
}.

(** The body of the selection loop from [let score = 0] to the [push]. *)
Definition scoreOf (modelInfo : option ModelInfo.t)
    (hardware : option HardwareInfo.t) (adapter : ModelAdapter.t) : Z :=
  let score := 0 in
  let capabilities := ModelAdapter.getCapabilities adapter in
  let score :=
    if match modelInfo with
       | Some i => String.eqb (ModelInfo.format i) (ModelAdapter.format adapter)
       | None => false
       end
    then score + 100 else score in
  let score :=
    if (match hardware with
        | Some h => HardwareInfo.hasGPU h
        | None => false
        end && AdapterCapabilities.supportsGPU capabilities)%bool
    then score + 50 else score in
  let score :=
    if AdapterCapabilities.supportsStreaming capabilities
    then score + 20 else score in
  let score :=
    if Z.of_nat (List.length (AdapterCapabilities.supportsQuantization capabilities)) >? 0
    then score + 10 else score in
  score.

Definition candidatesOf (modelPath : string) (modelInfo : option ModelInfo.t)
    (hardware : option HardwareInfo.t) (r : t) : list Candidate :=
  fold_left
    (fun (candidates : list Candidate) adapter =>
       if negb (ModelAdapter.canHandle adapter modelPath modelInfo)
       then candidates
       else (candidates ++ [mkCandidate adapter (scoreOf modelInfo hardware adapter)])%list)
    (Js.map_values (adapters r)) [].

Definition selectBestAdapter (modelPath : string)
    (modelInfo : option ModelInfo.t) (hardware : option HardwareInfo.t)
    (r : t) : option ModelAdapter.t :=
  let candidates := candidatesOf modelPath modelInfo hardware r in
  if Z.of_nat (List.length candidates) =? 0 then None
  else
    match Js.sort (fun a b => score b - score a) candidates with
    | first :: _ => Some (adapter first)
    | [] => None
    end.

(** The registry after [registerAdapter] was called on each adapter of a
    list, in order. *)
Definition registerAll (l : list ModelAdapter.t) (r : t) : t :=
  fold_left (fun acc adapter => registerAdapter adapter acc) l r.

End ModelRegistry.

(** ** The static part of adapters/GGUFAdapter.js and adapters/TFLiteAdapter.ts *)

Module Adapters.

Definition GGUFAdapter : ModelAdapter.t :=
  {| ModelAdapter.format := "gguf";
     ModelAdapter.supportedTypes := ["llm"; "embedding"];
     ModelAdapter.canHandle := fun modelPath info =>
       if match info with
          | Some i => String.eqb (ModelInfo.format i) "gguf"
          | None => false
          end
       then true
       else Js.endsWith ".gguf" (Js.toLowerCase modelPath);
     ModelAdapter.getCapabilities :=
       {| AdapterCapabilities.supportsStreaming := true;
          AdapterCapabilities.supportsGPU := true;
          AdapterCapabilities.supportsQuantization :=
            ["2bit"; "4bit"; "8bit"; "fp16"; "fp32"];
          AdapterCapabilities.maxContextLength := Some 32768;
          AdapterCapabilities.supportedFormats := ["gguf"] |} |}.

Definition TFLiteAdapter : ModelAdapter.t :=
  {| ModelAdapter.format := "tflite";
     ModelAdapter.supportedTypes := ["vision"; "audio"];
     ModelAdapter.canHandle := fun modelPath info =>
       if match info with
          | Some i => String.eqb (ModelInfo.format i) "tflite"
          | None => false
          end
       then true
       else Js.endsWith ".tflite" (Js.toLowerCase modelPath);
     ModelAdapter.getCapabilities :=
       {| AdapterCapabilities.supportsStreaming := false;
          AdapterCapabilities.supportsGPU := true;
          AdapterCapabilities.supportsQuantization := ["int8"; "float16"];
          AdapterCapabilities.maxContextLength := None;
          AdapterCapabilities.supportedFormats := ["tflite"] |} |}.

End Adapters.

(** A loaded GGUF model of a given id and byte size, for examples. *)
Module Examples.

Definition modelOf (id : string) (size : Z) : LoadedModel.t :=
  {| LoadedModel.id := id;
     LoadedModel.info :=
       {| ModelInfo.name := id;
          ModelInfo.format := "gguf";
          ModelInfo.type := "llm";
          ModelInfo.size := size;
          ModelInfo.version := "1.0";
          ModelInfo.checksum := "123" |};
     LoadedModel.adapter := Adapters.GGUFAdapter |}.

End Examples.

(** Adapters of a given format tag that accept every input and declare no
    GPU support, for examples of the selection. *)
Module SelectionExamples.

Definition adapterOf (format revision : string) (streaming : bool)
    (quantization : list string) : ModelAdapter.t :=
  {| ModelAdapter.format := format;
     ModelAdapter.supportedTypes := [revision];
     ModelAdapter.canHandle := fun _ _ => true;
     ModelAdapter.getCapabilities :=
       {| AdapterCapabilities.supportsStreaming := streaming;
          AdapterCapabilities.supportsGPU := false;
          AdapterCapabilities.supportsQuantization := quantization;
          AdapterCapabilities.maxContextLength := None;
          AdapterCapabilities.supportedFormats := [format] |} |}.

End SelectionExamples.

(** ** utils/StreamingUtils.ts *)

Module BackpressureHandler.

(** A resolver is the [resolve] function of the promise one suspended
    [acquire] call returned; it is named by the caller's tag.  [granted]
    is the trace of callers whose [acquire] has resolved, oldest first. *)
Record t := mk {
  pending : Z;
  maxPending : Z;
  waitingResolvers : list nat;
  granted : list nat
}.

Definition new (maxPending : Z) : t :=
  {| pending := 0; maxPending := maxPending; waitingResolvers := [];
     granted := [] |}.

Definition acquire (caller : nat) (h : t) : t :=
  if pending h <? maxPending h
  then {| pending := pending h + 1; maxPending := maxPending h;
          waitingResolvers := waitingResolvers h;
          granted := granted h ++ [caller] |}
  else {| pending := pending h; maxPending := maxPending h;
          waitingResolvers := waitingResolvers h ++ [caller];
          granted := granted h |}.

Definition release (h : t) : t :=
  let pending1 := pending h - 1 in
  match waitingResolvers h with
  | resolver :: rest =>
      {| pending := pending1 + 1; maxPending := maxPending h;
         waitingResolvers := rest;
         granted := granted h ++ [resolver] |}
  | [] =>
      {| pending := pending1; maxPending := maxPending h;
         waitingResolvers := []; granted := granted h |}
  end.

Definition pendingCount (h : t) : Z := pending h.

Definition waitingCount (h : t) : Z := Z.of_nat (List.length (waitingResolvers h)).

Inductive Call :=
| Acquire (caller : nat)
| Release.

Definition call (c : Call) (h : t) : t :=
  match c with
  | Acquire caller => acquire caller h
  | Release => release h
  end.

(** The handler after each call of a sequence, in order. *)
Fixpoint observed (calls : list Call) (h : t) : list t :=
  match calls with
  | [] => []
  | c :: calls' => call c h :: observed calls' (call c h)
  end.

(** No [release] in excess of the granted acquires: each [release] finds
    a permit that is held. *)
Fixpoint disciplined (calls : list Call) (h : t) : Prop :=
  match calls with
  | [] => True
  | c :: calls' =>
      match c with
      | Release => 0 < pending h
      | Acquire _ => True
      end /\ disciplined calls' (call c h)
  end.

(** Permits held stay within the bound, and callers wait only while every
    permit is held. *)
Definition saturating (h : t) : Prop :=
  0 <= pending h <= maxPending h
  /\ (waitingResolvers h <> [] -> pending h = maxPending h).

End BackpressureHandler.

Module TokenBuffer.

Record t := mk {
  buffer : list string;
  maxSize : Z
}.

Definition new (maxSize : Z) : t := {| buffer := []; maxSize := maxSize |}.

Definition add (token : string) (b : t) : t :=
  let pushed := buffer b ++ [token] in
  if Z.of_nat (List.length pushed) >? maxSize b
  then {| buffer := List.tl pushed; maxSize := maxSize b |}
  else {| buffer := pushed; maxSize := maxSize b |}.

Definition getAll (b : t) : list string := buffer b.

Definition getText (b : t) : string := Js.join_empty (buffer b).

Definition getLastN (n : Z) (b : t) : list string :=
  Js.slice_from (- n) (buffer b).

Definition clear (b : t) : t := {| buffer := []; maxSize := maxSize b |}.

Definition length (b : t) : Z := Z.of_nat (List.length (buffer b)).

Definition addAll (tokens : list string) (b : t) : t :=
  fold_left (fun acc token => add token acc) tokens b.

End TokenBuffer.

(** ** utils/ErrorHandler.ts *)

Module ErrorHandler.

Inductive ErrorCode :=
| MODEL_NOT_FOUND
| MODEL_LOAD_FAILED
| INFERENCE_FAILED
| UNSUPPORTED_FORMAT
| INVALID_INPUT
| MEMORY_ERROR
| TIMEOUT_ERROR
| NETWORK_ERROR
| HARDWARE_ERROR
| CONFIGURATION_ERROR.

Definition ErrorCode_eqb (a b : ErrorCode) : bool :=
  match a, b with
  | MODEL_NOT_FOUND, MODEL_NOT_FOUND
  | MODEL_LOAD_FAILED, MODEL_LOAD_FAILED
  | INFERENCE_FAILED, INFERENCE_FAILED
  | UNSUPPORTED_FORMAT, UNSUPPORTED_FORMAT
  | INVALID_INPUT, INVALID_INPUT
  | MEMORY_ERROR, MEMORY_ERROR
  | TIMEOUT_ERROR, TIMEOUT_ERROR
  | NETWORK_ERROR, NETWORK_ERROR
  | HARDWARE_ERROR, HARDWARE_ERROR
  | CONFIGURATION_ERROR, CONFIGURATION_ERROR => true
  | _, _ => false
  end.

(** An [Error] is either a plain [Error] or an [AIError]; the [details]
    record of an [AIError] plays no part in the retry logic. *)
Inductive Error :=
| PlainError (message : string)
| AIError (code : ErrorCode) (message : string) (recoverable : bool).

Definition message (e : Error) : string :=
  match e with
  | PlainError m => m
  | AIError _ m _ => m
  end.

(** A number in a template literal, for an integer below 10 ^ 21 in
    absolute value: its decimal digits.  Larger numbers print in exponent
    form, which is not modelled; the text goes into the messages of errors
    and nowhere else. *)
Definition showNumber (n : Z) : string := NilZero.string_of_int (Z.to_int n).

Definition modelNotFound (modelId : string) : Error :=
  AIError MODEL_NOT_FOUND (String.append "Model not found: " modelId) true.

Definition modelLoadFailed (modelPath : string) : Error :=
  AIError MODEL_LOAD_FAILED (String.append "Failed to load model: " modelPath) true.

Definition inferenceFailed (operation : string) : Error :=
  AIError INFERENCE_FAILED
    (String.append "Inference failed for operation: " operation) true.

Definition unsupportedFormat (format : string) : Error :=
  AIError UNSUPPORTED_FORMAT
    (String.append "Unsupported model format: " format) false.

Definition invalidInput (expectedType actualType : string) : Error :=
  AIError INVALID_INPUT
    (String.append "Invalid input type. Expected: "
       (String.append expectedType (String.append ", Got: " actualType))) true.

Definition memoryError (requiredMB availableMB : Z) : Error :=
  AIError MEMORY_ERROR
    (String.append "Insufficient memory. Required: "
       (String.append (showNumber requiredMB)
          (String.append "MB, Available: "
             (String.append (showNumber availableMB) "MB")))) false.

Definition timeoutError (operation : string) (timeoutMs : Z) : Error :=
  AIError TIMEOUT_ERROR
    (String.append "Operation timed out: "
       (String.append operation
          (String.append " ("
             (String.append (showNumber timeoutMs) "ms)")))) true.

Definition networkError (url : string) : Error :=
  AIError NETWORK_ERROR
    (String.append "Network error while accessing: " url) true.

Definition hardwareError (msg : string) : Error :=
  AIError HARDWARE_ERROR (String.append "Hardware error: " msg) false.

Definition configurationError (setting reason : string) : Error :=
  AIError CONFIGURATION_ERROR
    (String.append "Configuration error for "
       (String.append setting (String.append ": " reason))) true.

Definition retryableErrors : list ErrorCode :=
  [MODEL_LOAD_FAILED; INFERENCE_FAILED; TIMEOUT_ERROR; NETWORK_ERROR].

Definition isRetryable (error : Error) : bool :=
  match error with
  | AIError code _ recoverable =>
      (recoverable && List.existsb (ErrorCode_eqb code) retryableErrors)%bool
  | PlainError m =>
      let message := Js.toLowerCase m in
      (Js.includes "timeout" message
       || Js.includes "network" message
       || Js.includes "connection" message
       || Js.includes "temporary" message)%bool
  end.

(** How one call of [operation] settles. *)
Inductive Settled (T : Type) :=
| Fulfilled (value : T)
| Failed (error : Error).
Arguments Fulfilled {T} value.
Arguments Failed {T} error.

(** How [withRetry] settles; [Thrown None] is the [throw lastError!] with
    nothing assigned. *)
Inductive Outcome (T : Type) :=
| Returned (value : T)
| Thrown (error : option Error).
Arguments Returned {T} value.
Arguments Thrown {T} error.

(** What a run of [withRetry] did: how it settled, how many times it
    called [operation], and the delays it slept, in order. *)
Record Run (T : Type) := mkRun {
  outcome : Outcome T;
  attempts : nat;
  delays : list Z
}.
Arguments mkRun {T} outcome attempts delays.
Arguments outcome {T} r.
Arguments attempts {T} r.
Arguments delays {T} r.

Section WithRetry.
Context {T : Type}.
(** [operation k] is how the call number [k] of the closure settles,
    counting from 0. *)
Variable operation : nat -> Settled T.
Variables maxRetries backoffMs : Z.

(** The [for] loop from iteration [attempt] on; [remaining] counts the
    iterations for which [attempt <= maxRetries] still holds. *)
Fixpoint retryFrom (remaining : nat) (attempt : Z) (calls : nat)
    (slept : list Z) (lastError : option Error) : Run T :=
  match remaining with
  | O => mkRun (Thrown lastError) calls slept
  | S remaining' =>
      match operation calls with
      | Fulfilled value => mkRun (Returned value) (S calls) slept
      | Failed error =>
          if ((attempt =? maxRetries) || negb (isRetryable error))%bool
          then mkRun (Thrown (Some error)) (S calls) slept
          else
            let delay := backoffMs * 2 ^ attempt in
            retryFrom remaining' (attempt + 1) (S calls) (slept ++ [delay])
              (Some error)
      end
  end.

Definition withRetry : Run T :=
  retryFrom (Z.to_nat (maxRetries + 1)) 0 O [] None.
End WithRetry.

End ErrorHandler.

(** ** runtime/ModelRegistry.js: the loaded models *)

Module LoadedModels.
Import ModelRegistry.

Definition registerLoadedModel (model : LoadedModel.t) (r : t) : t :=
  {| adapters := adapters r;
     loadedModels := Js.map_set (LoadedModel.id model) model (loadedModels r) |}.

Definition getLoadedModel (modelId : string) (r : t) : option LoadedModel.t :=
  Js.map_get modelId (loadedModels r).

(** [unloadModel] returns the calls [adapter.unloadModel(modelId)] it
    awaited and the registry it leaves. *)
Definition unloadModel (modelId : string) (r : t)
  : list LRUCache.AdapterCall * t :=
  match Js.map_get modelId (loadedModels r) with
  | Some model =>
      ([(ModelAdapter.format (LoadedModel.adapter model), modelId)],
       {| adapters := adapters r;
          loadedModels := Js.map_delete modelId (loadedModels r) |})
  | None => ([], r)
  end.

Definition getAllLoadedModels (r : t) : list LoadedModel.t :=
  Js.map_values (loadedModels r).

Definition getMemoryUsage (r : t) : Z :=
  fold_left (fun total model => total + ModelInfo.size (LoadedModel.info model))
    (Js.map_values (loadedModels r)) 0.

End LoadedModels.

(** ** IDGAF.ts: dispatch, metrics and the log gate *)

Module PerformanceMetrics.
Record t := mk {
  tokensPerSecond : option Q;
  inferenceTimeMs : Q;
  memoryUsageMB : Q;
  gpuUtilization : option Q;
  modelLoadTimeMs : option Q
}.
End PerformanceMetrics.

(** [Partial<PerformanceMetrics>]: [None] is a field that is absent. *)
Module PartialMetrics.
Record t := mk {
  tokensPerSecond : option Q;
  inferenceTimeMs : option Q;
  memoryUsageMB : option Q;
  gpuUtilization : option Q;
  modelLoadTimeMs : option Q
}.
End PartialMetrics.

Module IDGAF.

Record t := mk {
  registry : ModelRegistry.t;
  performanceMetrics : Js.Map PerformanceMetrics.t;
  logLevel : string
}.

Definition getLoadedModels (ai : t) : list LoadedModel.t :=
  LoadedModels.getAllLoadedModels (registry ai).

Definition getCompatibleModels (type : string) (ai : t) : list LoadedModel.t :=
  filter (fun model => String.eqb (ModelInfo.type (LoadedModel.info model)) type)
    (LoadedModels.getAllLoadedModels (registry ai)).

(** The model a call for a modality goes to, [models[0]]; [None] is the
    error [No ... models loaded]. *)
Definition dispatchTarget (type : string) (ai : t) : option LoadedModel.t :=
  let models := getCompatibleModels type ai in
  if Z.of_nat (List.length models) =? 0 then None else hd_error models.

(** The record [{ inferenceTimeMs: 0, memoryUsageMB: 0 }]. *)
Definition noMetrics : PerformanceMetrics.t :=
  {| PerformanceMetrics.tokensPerSecond := None;
     PerformanceMetrics.inferenceTimeMs := 0%Q;
     PerformanceMetrics.memoryUsageMB := 0%Q;
     PerformanceMetrics.gpuUtilization := None;
     PerformanceMetrics.modelLoadTimeMs := None |}.





(** [getPerformanceMetrics(modelId?)]: the test [if (modelId)] sends a
    missing id and the empty string to the whole map. *)
Definition getPerformanceMetrics (modelId : option string) (ai : t)
  : PerformanceMetrics.t + Js.Map PerformanceMetrics.t :=
  match modelId with
  | Some id =>
      if Js.truthy id
      then inl match Js.map_get id (performanceMetrics ai) with
               | Some m => m
               | None => noMetrics
               end
      else inr (performanceMetrics ai)
  | None => inr (performanceMetrics ai)
  end.

Definition unloadModel (modelId : string) (ai : t)
  : list LRUCache.AdapterCall * t :=
  let '(calls, registry') := LoadedModels.unloadModel modelId (registry ai) in
  (calls,
   {| registry := registry';
      performanceMetrics := Js.map_delete modelId (performanceMetrics ai);
      logLevel := logLevel ai |}).

(** [Array.prototype.indexOf] on strings, [-1] when absent. *)
Fixpoint indexOf (x : string) (l : list string) : Z :=
  match l with
  | [] => -1
  | y :: l' =>
      if String.eqb y x then 0
      else let i := indexOf x l' in if i <? 0 then -1 else i + 1
  end.

Definition levels : list string := ["debug"; "info"; "warn"; "error"].

(** Whether [log(level, message)] prints. *)
Definition logs (level : string) (ai : t) : bool :=
  let configLevel := indexOf (logLevel ai) levels in
  let messageLevel := indexOf level levels in
  messageLevel >=? configLevel.

End IDGAF.

(** ** utils/StreamingUtils.ts: StreamController *)

(** The platform's [ReadableStreamDefaultController], as far as the class
    drives it: [enqueue] and [close] throw unless the stream is readable
    and no close was requested, [error] does nothing unless the stream is
    readable. *)
Module ReadableStream.
Section Stream.
Context {T : Type}.

Inductive State :=
| Readable
| Closed
| Errored.

Record t := mk {
  queue : list T;
  closeRequested : bool;
  state : State
}.

Definition fresh : t := {| queue := []; closeRequested := false; state := Readable |}.

Definition canEnqueue (s : t) : bool :=
  match state s with
  | Readable => negb (closeRequested s)
  | _ => false
  end.

(** [None] is the [TypeError] the platform throws. *)
Definition enqueue (value : T) (s : t) : option t :=
  if canEnqueue s
  then Some {| queue := queue s ++ [value]; closeRequested := false;
               state := Readable |}
  else None.

Definition close (s : t) : option t :=
  if canEnqueue s
  then Some {| queue := queue s; closeRequested := true;
               state := match queue s with [] => Closed | _ => Readable end |}
  else None.

Definition error (s : t) : t :=
  match state s with
  | Readable => {| queue := []; closeRequested := closeRequested s; state := Errored |}
  | _ => s
  end.

(** The consumer cancels the stream. *)
Definition cancel (s : t) : t :=
  match state s with
  | Readable => {| queue := []; closeRequested := closeRequested s; state := Closed |}
  | _ => s
  end.

(** The consumer reads one queued value. *)
Definition read (s : t) : option T * t :=
  match state s, queue s with
  | Readable, value :: rest =>
      (Some value,
       {| queue := rest; closeRequested := closeRequested s;
          state := match rest with
                   | [] => if closeRequested s then Closed else Readable
                   | _ => Readable
                   end |})
  | _, _ => (None, s)
  end.

End Stream.
Arguments t T : clear implicits.
End ReadableStream.

Module StreamController.
Section Controller.
Context {T : Type}.

(** [_controller] is assigned by [start], which the constructor of the
    stream runs before it returns, so that it is never [null] in a
    constructed object; [_stream] is the platform's stream. *)
Record t := mk {
  _stream : ReadableStream.t T;
  _closed : bool
}.

Definition new : t := {| _stream := ReadableStream.fresh; _closed := false |}.

Definition push (value : T) (c : t) : bool * t :=
  if _closed c then (false, c)
  else match ReadableStream.enqueue value (_stream c) with
       | Some s => (true, {| _stream := s; _closed := _closed c |})
       | None => (false, c)
       end.

(** [None] is an exception of [controller.close()] that escapes. *)
Definition close (c : t) : option t :=
  if negb (_closed c)
  then match ReadableStream.close (_stream c) with
       | Some s => Some {| _stream := s; _closed := true |}
       | None => None
       end
  else Some c.

Definition error (c : t) : t :=
  if negb (_closed c)
  then {| _stream := ReadableStream.error (_stream c); _closed := true |}
  else c.

Definition isClosed (c : t) : bool := _closed c.

(** The consumer cancels: the platform closes the stream and runs the
    [cancel] callback of the source. *)
Definition cancelled (c : t) : t :=
  match ReadableStream.state (_stream c) with
  | ReadableStream.Readable =>
      {| _stream := ReadableStream.cancel (_stream c); _closed := true |}
  | _ => c
  end.

(** The consumer reads. *)
Definition consumed (c : t) : option T * t :=
  let '(value, s) := ReadableStream.read (_stream c) in
  (value, {| _stream := s; _closed := _closed c |}).

Inductive reachable : t -> Prop :=
| reach_new : reachable new
| reach_push value c : reachable c -> reachable (snd (push value c))
| reach_close c c' : reachable c -> close c = Some c' -> reachable c'
| reach_error c : reachable c -> reachable (error c)
| reach_cancelled c : reachable c -> reachable (cancelled c)
| reach_consumed c : reachable c -> reachable (snd (consumed c)).

End Controller.
Arguments t T : clear implicits.
End StreamController.

(** ** utils/StreamingUtils.ts: StreamCancellation *)

Module StreamCancellation.

(** A callback, named by a tag, that returns or throws when it is called. *)
Record Callback := mkCallback {
  tag : nat;
  throws : bool
}.

(** [invoked] is the trace of the callbacks called, oldest first. *)
Record t := mk {
  _cancelled : bool;
  _onCancel : list Callback;
  invoked : list nat
}.

Definition new : t := {| _cancelled := false; _onCancel := []; invoked := [] |}.

Definition cancel (c : t) : t :=
  if negb (_cancelled c)
  then {| _cancelled := true;
          _onCancel := _onCancel c;
          invoked := invoked c ++ List.map tag (_onCancel c) |}
  else c.

(** The boolean tells whether the call of [onCancel] threw: a callback
    called at once is not guarded. *)
Definition onCancel (callback : Callback) (c : t) : bool * t :=
  if _cancelled c
  then (throws callback,
        {| _cancelled := _cancelled c;
           _onCancel := _onCancel c;
           invoked := invoked c ++ [tag callback] |})
  else (false,
        {| _cancelled := _cancelled c;
           _onCancel := _onCancel c ++ [callback];
           invoked := invoked c |}).

Definition isCancelled (c : t) : bool := _cancelled c.

(** [Some] is the error [Stream was cancelled]. *)
Definition throwIfCancelled (c : t) : option string :=
  if _cancelled c then Some "Stream was cancelled" else None.

Inductive Call :=
| Cancel
| OnCancel (callback : Callback).

Definition call (x : Call) (c : t) : t :=
  match x with
  | Cancel => cancel c
  | OnCancel callback => snd (onCancel callback c)
  end.

Definition run (calls : list Call) (c : t) : t :=
  fold_left (fun acc x => call x acc) calls c.

(** The tags of the callbacks a sequence of calls registers, in order. *)
Definition registered (calls : list Call) : list nat :=
  flat_map (fun x => match x with
                     | Cancel => []
                     | OnCancel callback => [tag callback]
                     end) calls.

Definition cancels (calls : list Call) : bool :=
  existsb (fun x => match x with Cancel => true | OnCancel _ => false end) calls.

End StreamCancellation.

(** ** utils/StreamingUtils.ts: streamWithTimeout *)

Module StreamWithTimeout.

(** How one call of [next()] on the wrapped generator settles: with
    [{ done: false, value }], with [{ done: true }], or by throwing. *)
Inductive Settles (T : Type) :=
| Yields (value : T)
| Returns
| Throws (error : ErrorHandler.Error).
Arguments Yields {T} value.
Arguments Returns {T}.
Arguments Throws {T} error.

(** One step of the producer, an async generator: the time its [next()]
    takes to settle, in milliseconds, [None] for a step that never
    settles, and how it settles. *)
Record Step (T : Type) := mkStep {
  duration : option Z;
  settles : Settles T
}.
Arguments mkStep {T} duration settles.
Arguments duration {T} s.
Arguments settles {T} s.

(** How the wrapper ends for a consumer that drains it without delay: at
    a time, normally or with an error, or never. *)
Inductive Outcome :=
| Ended (time : Z)
| Threw (error : ErrorHandler.Error) (time : Z)
| Pending.

(** What that consumer observes: the values with the times at which they
    arrive, the outcome, and the time at which the
    [await generator.return()] of the [finally] block settled, if it did. *)
Record Run (T : Type) := mkRun {
  yielded : list (Z * T);
  outcome : Outcome;
  returned : option Z
}.
Arguments mkRun {T} yielded outcome returned.
Arguments yielded {T} r.
Arguments outcome {T} r.
Arguments returned {T} r.

Section Wrapper.
Context {T : Type}.
(** [timeoutMs] is positive. *)
Variable timeoutMs : Z.
(** Which promise of the race settles first when the step and the timer
    are due at the same instant. *)
Variable timerWinsTie : bool.

(** [new Error(`Stream timeout after ${timeoutMs}ms`)]. *)
Definition timeoutError : ErrorHandler.Error :=
  ErrorHandler.PlainError
    (String.append "Stream timeout after "
       (String.append (ErrorHandler.showNumber timeoutMs) "ms")).

(** [Promise.race([nextPromise, timeoutPromise])]: [true] when the timer
    rejects before the step settles. *)
Definition timerFirst (duration : option Z) : bool :=
  match duration with
  | None => true
  | Some d => if d =? timeoutMs then timerWinsTie else timeoutMs <? d
  end.

(** The [while (true)] loop from the time [now] on, and the [finally]
    block.  When the step settles first, the timer is cleared and the
    result is tested.  When the timer rejects first, the [await] throws
    and [finally] awaits [generator.return()]: an async generator queues
    that request behind its pending [next()], so that it settles when the
    step does, and only then does the timeout error leave the wrapper.
    A generator that has run out of steps has completed, and answers
    [next()] and [return()] at once. *)
Fixpoint loop (steps : list (Step T)) (now : Z) (out : list (Z * T)) : Run T :=
  match steps with
  | [] => mkRun out (Ended now) (Some now)
  | step :: rest =>
      match duration step with
      | None => mkRun out Pending None
      | Some d =>
          if timerFirst (Some d)
          then mkRun out (Threw timeoutError (now + d)) (Some (now + d))
          else match settles step with
               | Yields value => loop rest (now + d) (out ++ [(now + d, value)])
               | Returns => mkRun out (Ended (now + d)) (Some (now + d))
               | Throws error => mkRun out (Threw error (now + d)) (Some (now + d))
               end
      end
  end.

Definition streamWithTimeout (steps : list (Step T)) : Run T := loop steps 0 [].

(** Steps that yield the values of [items] after the given durations. *)
Definition yielding (items : list (Z * T)) : list (Step T) :=
  List.map (fun item => mkStep (Some (fst item)) (Yields (snd item))) items.

(** The values of [items] with their times of arrival, from [now] on. *)
Fixpoint arrivals (now : Z) (items : list (Z * T)) : list (Z * T) :=
  match items with
  | [] => []
  | (d, value) :: rest => (now + d, value) :: arrivals (now + d) rest
  end.

Definition elapsed (items : list (Z * T)) : Z :=
  fold_right (fun item total => fst item + total) 0 items.

End Wrapper.

End StreamWithTimeout.

(** ** utils/StreamingUtils.ts: transformStream and bufferStream *)

Module Streams.

(** What a consumer that drains an async generator obtains: the values
    yielded, then the end of the sequence or an error thrown. *)
Record Drained (T : Type) := mkDrained {
  yielded : list T;
  thrown : option ErrorHandler.Error
}.
Arguments mkDrained {T} yielded thrown.
Arguments yielded {T} d.
Arguments thrown {T} d.

Section Transform.
Context {T R : Type}.
Variable transform : T -> ErrorHandler.Settled R.

Fixpoint transformLoop (values : list T) (sourceError : option ErrorHandler.Error)
  : Drained R :=
  match values with
  | [] => mkDrained [] sourceError
  | value :: rest =>
      match transform value with
      | ErrorHandler.Fulfilled r =>
          let d := transformLoop rest sourceError in
          mkDrained (r :: yielded d) (thrown d)
      | ErrorHandler.Failed e => mkDrained [] (Some e)
      end
  end.

Definition transformStream (generator : Drained T) : Drained R :=
  transformLoop (yielded generator) (thrown generator).
End Transform.

Section Buffer.
Context {T : Type}.
Variable bufferSize : Z.

(** The [for await] loop from a given [buffer] on. *)
Fixpoint bufferLoop (values : list T) (buffer : list T)
  : list (list T) * list T :=
  match values with
  | [] => ([], buffer)
  | value :: rest =>
      let buffer1 := buffer ++ [value] in
      if Z.of_nat (List.length buffer1) >=? bufferSize
      then let '(batches, kept) := bufferLoop rest [] in (buffer1 :: batches, kept)
      else bufferLoop rest buffer1
  end.

Definition bufferStream (generator : Drained T) : Drained (list T) :=
  let '(batches, kept) := bufferLoop (yielded generator) [] in
  match thrown generator with
  | Some e => mkDrained batches (Some e)
  | None =>
      if Z.of_nat (List.length kept) >? 0
      then mkDrained (batches ++ [kept]) None
      else mkDrained batches None
  end.
End Buffer.

End Streams.

(** ** Sequences of calls *)

Module BackpressureRuns.
Import BackpressureHandler.

Definition run (calls : list Call) (h : t) : t :=
  fold_left (fun acc c => call c acc) calls h.

(** The callers of the [acquire] calls of a sequence, in order. *)
Definition callers (calls : list Call) : list nat :=
  flat_map (fun c => match c with Acquire caller => [caller] | Release => [] end)
    calls.

Definition releases (calls : list Call) : Z :=
  Z.of_nat (List.length (filter (fun c => match c with
                                          | Release => true
                                          | Acquire _ => false
                                          end) calls)).

End BackpressureRuns.

(** ** Consistency of the cache *)

Module LRUCacheInvariants.
Import LRUCache.

(** The entry stored under a key describes the model stored with it. *)
Definition describes (kc : string * Cached) : Prop :=
  CacheEntry.key (entry (snd kc)) = fst kc
  /\ CacheEntry.modelId (entry (snd kc)) = LoadedModel.id (model (snd kc))
  /\ CacheEntry.size (entry (snd kc))
     = ModelInfo.size (LoadedModel.info (model (snd kc))).

Definition consistent (st : t) : Prop :=
  NoDup (Js.map_keys (cache st))
  /\ currentSize st = LRUCacheStates.sum_sizes st
  /\ Forall describes (cache st).

(** Models in the cache plus models unloaded so far. *)
Definition handled (st : t) : nat :=
  (List.length (cache st) + List.length (unloads st))%nat.

Definition age (now : Z) (kc : string * Cached) : Z :=
  now - CacheEntry.lastAccessed (entry (snd kc)).

End LRUCacheInvariants.

(** ** adapters/TFLiteAdapter.ts: applyNMS *)

Module DetectionBox.
(** Coordinates and confidence are finite numbers. *)
Record t := mk {
  x : Q;
  y : Q;
  width : Q;
  height : Q;
  confidence : Q;
  label : string;
  labelId : Z
}.
End DetectionBox.

Module NMS.
Import DetectionBox.

(** The comparator [(a, b) => b.confidence - a.confidence], by its sign. *)
Definition byConfidence (a b : DetectionBox.t) : Z :=
  match (confidence b ?= confidence a)%Q with
  | Lt => -1
  | Eq => 0
  | Gt => 1
  end.

(** [suppressed.has(i)], the set kept as a list of indices. *)
Definition has (i : nat) (suppressed : list nat) : bool :=
  existsb (Nat.eqb i) suppressed.

Section ApplyNMS.
(** [exceeds a b] is the test [this.calculateIoU(a, b) > iouThreshold] of
    the inner loop: with the threshold fixed, a function of the two boxes. *)
Variable exceeds : DetectionBox.t -> DetectionBox.t -> bool.

(** One iteration of the inner loop, for the index [j]. *)
Definition suppressStep (boxes : list DetectionBox.t) (boxI : DetectionBox.t)
    (suppressed : list nat) (j : nat) : list nat :=
  if has j suppressed then suppressed
  else match nth_error boxes j with
       | Some boxJ => if exceeds boxI boxJ then j :: suppressed else suppressed
       | None => suppressed
       end.

(** One iteration of the outer loop, for the index [i], on the pair of
    [result] and [suppressed]. *)
Definition keepStep (boxes : list DetectionBox.t)
    (state : list DetectionBox.t * list nat) (i : nat)
  : list DetectionBox.t * list nat :=
  if has i (snd state) then state
  else match nth_error boxes i with
       | Some boxI =>
           (fst state ++ [boxI],
            fold_left (suppressStep boxes boxI)
              (seq (S i) (List.length boxes - S i)) (snd state))
       | None => state
       end.

(** The two loops, on the array as sorted. *)
Definition suppressLoop (boxes : list DetectionBox.t) : list DetectionBox.t :=
  fst (fold_left (keepStep boxes) (seq 0 (List.length boxes)) ([], [])).

Definition applyNMS (boxes : list DetectionBox.t) : list DetectionBox.t :=
  suppressLoop (Js.sort byConfidence boxes).

(** The boxes at the indices [indices] that are not suppressed. *)
Definition alive (boxes : list DetectionBox.t) (suppressed : list nat)
    (indices : list nat) : list DetectionBox.t :=
  flat_map (fun j => if has j suppressed then []
                     else match nth_error boxes j with
                          | Some box => [box]
                          | None => []
                          end) indices.

(** The selection of the two loops written as a recursion on the list of
    boxes: keep the first box, drop the later boxes it exceeds, go on. *)
Fixpoint greedy (fuel : nat) (boxes : list DetectionBox.t) : list DetectionBox.t :=
  match fuel, boxes with
  | S fuel', box :: rest =>
      box :: greedy fuel' (filter (fun other => negb (exceeds box other)) rest)
  | _, _ => []
  end.

End ApplyNMS.

(** Confidence in descending order. *)
Definition descending (boxes : list DetectionBox.t) : Prop :=
  ForallOrdPairs (fun a b => (confidence b <= confidence a)%Q) boxes.

End NMS.

(** ** IDGAF.ts: inferModelInfoFromUrl *)

Module UrlInference.

(** [String.prototype.split] by a separator of one character. *)
Fixpoint split (sep : ascii) (s : string) : list string :=
  match s with
  | EmptyString => [EmptyString]
  | String c s' =>
      if Ascii.eqb c sep then EmptyString :: split sep s'
      else match split sep s' with
           | first :: rest => String c first :: rest
           | [] => [String c EmptyString]
           end
  end.








End UrlInference.

(** * Properties *)

(** Turns boolean comparisons of integers in the hypotheses into
    propositions that [lia] reads. *)
Ltac zbool :=
  repeat match goal with
    | H : (_ >? _) = true |- _ => rewrite Z.gtb_ltb, Z.ltb_lt in H
    | H : (_ >? _) = false |- _ => rewrite Z.gtb_ltb, Z.ltb_ge in H
    | H : (_ <? _) = true |- _ => rewrite Z.ltb_lt in H
    | H : (_ <? _) = false |- _ => rewrite Z.ltb_ge in H
    | H : (_ <=? _) = true |- _ => rewrite Z.leb_le in H
    | H : (_ <=? _) = false |- _ => rewrite Z.leb_gt in H
    | H : (_ =? _) = true |- _ => rewrite Z.eqb_eq in H
    | H : (_ =? _) = false |- _ => rewrite Z.eqb_neq in H
    end.

(** ** TokenBuffer *)

Section TokenBufferFacts.
Import TokenBuffer.

Lemma addAll_snoc (tokens : list string) (token : string) (b : t) :
  addAll (tokens ++ [token]) b = add token (addAll tokens b).
Proof. unfold addAll. now rewrite fold_left_app. Qed.

Lemma maxSize_add (token : string) (b : t) : maxSize (add token b) = maxSize b.
Proof. unfold add. now destruct (_ >? _). Qed.

Lemma maxSize_addAll (tokens : list string) (b : t) :
  maxSize (addAll tokens b) = maxSize b.
Proof.
  induction tokens as [|token tokens IH] using rev_ind; [reflexivity|].
  now rewrite addAll_snoc, maxSize_add.
Qed.

Lemma tl_skipn_snoc {A : Type} (k : nat) (l : list A) (x : A) :
  (k <= List.length l)%nat -> List.tl (skipn k l ++ [x]) = skipn (S k) (l ++ [x]).
Proof.
  revert k. induction l as [|y l IH]; intros k Hk.
  - destruct k; [reflexivity | simpl in Hk; lia].
  - destruct k as [|k]; [reflexivity|].
    simpl in Hk. change (List.tl (skipn k l ++ [x]) = skipn (S k) (l ++ [x])).
    apply IH. lia.
Qed.

(** The retained tokens are the last [maxSize] tokens added. *)
Lemma buffer_addAll_new (capacity : Z) (tokens : list string) :
  buffer (addAll tokens (new capacity))
  = skipn (List.length tokens - Z.to_nat capacity) tokens.
Proof.
  induction tokens as [|token tokens IH] using rev_ind; [reflexivity|].
  rewrite addAll_snoc. unfold add.
  rewrite maxSize_addAll, IH. cbn [new maxSize].
  rewrite !length_app, length_skipn. cbn [List.length].
  destruct (Z.gtb_spec
              (Z.of_nat (List.length tokens
                         - (List.length tokens - Z.to_nat capacity) + 1))
              capacity) as [Hfull | Hroom]; cbn [buffer].
  - rewrite tl_skipn_snoc by lia. f_equal. lia.
  - replace (List.length tokens + 1 - Z.to_nat capacity)%nat with O by lia.
    replace (List.length tokens - Z.to_nat capacity)%nat with O by lia.
    reflexivity.
Qed.

Lemma slice_from_zero {A : Type} (l : list A) : Js.slice_from 0 l = l.
Proof.
  unfold Js.slice_from. cbn [Z.ltb Z.compare].
  replace (Z.to_nat (Z.min 0 (Z.of_nat (List.length l)))) with O by lia.
  reflexivity.
Qed.

Lemma slice_from_neg {A : Type} (n : Z) (l : list A) :
  0 < n ->
  Js.slice_from (- n) l
  = skipn (List.length l - Z.to_nat (Z.min n (Z.of_nat (List.length l)))) l.
Proof.
  intros Hn. unfold Js.slice_from.
  destruct (Z.ltb_spec (- n) 0) as [_ | Hge]; [|lia].
  f_equal. lia.
Qed.

(** C8: the buffer drops exactly the oldest token on each [add] beyond its
    capacity, so that it holds the last [maxSize] tokens added, earliest
    first; with capacity 5 the tokens A..G leave [getLastN 5] equal to
    C,D,E,F,G, and with capacity 3 the tokens A..D leave [getText] equal
    to BCD. *)
Theorem token_buffer_fifo :
  (forall (capacity : Z) (tokens : list string),
      buffer (addAll tokens (new capacity))
      = skipn (List.length tokens - Z.to_nat capacity) tokens)
  /\ (forall (token : string) (b : t),
         buffer (add token b)
         = skipn (if Z.of_nat (List.length (buffer b)) + 1 >? maxSize b
                  then 1 else 0)
             (buffer b ++ [token]))
  /\ getLastN 5 (addAll ["A"; "B"; "C"; "D"; "E"; "F"; "G"] (new 5))
     = ["C"; "D"; "E"; "F"; "G"]
  /\ getText (addAll ["A"; "B"; "C"; "D"] (new 3)) = "BCD".
Proof.
  split; [exact buffer_addAll_new|].
  split; [|split; reflexivity].
  intros token b. unfold add.
  rewrite length_app. cbn [List.length].
  replace (Z.of_nat (List.length (buffer b) + 1))
    with (Z.of_nat (List.length (buffer b)) + 1) by lia.
  destruct (_ >? _); cbn [buffer].
  - now destruct (buffer b ++ [token]).
  - reflexivity.
Qed.

(** C10: [getLastN 0] returns every retained token, because [slice(-0)]
    is [slice(0)]; for [n > 0] it returns the last [min n length] retained
    tokens, earliest first. *)
Theorem getLastN_zero_is_whole_buffer (b : t) :
  getLastN 0 b = buffer b
  /\ forall n : Z, 0 < n ->
       getLastN n b
       = skipn (List.length (buffer b)
                - Z.to_nat (Z.min n (Z.of_nat (List.length (buffer b)))))
           (buffer b)
       /\ Z.of_nat (List.length (getLastN n b))
          = Z.min n (Z.of_nat (List.length (buffer b))).
Proof.
  split.
  - unfold getLastN. cbn [Z.opp]. apply slice_from_zero.
  - intros n Hn. unfold getLastN. rewrite slice_from_neg by exact Hn.
    split; [reflexivity|]. rewrite length_skipn. lia.
Qed.

Lemma getLastN_zero_is_whole_buffer_witness :
  getLastN 0 (addAll ["A"; "B"; "C"] (new 5)) = ["A"; "B"; "C"]
  /\ 0 < 2
  /\ getLastN 2 (addAll ["A"; "B"; "C"] (new 5)) = ["B"; "C"].
Proof.
  split; [|split].
  - exact (proj1 (getLastN_zero_is_whole_buffer (addAll ["A"; "B"; "C"] (new 5)))).
  - lia.
  - exact (proj1 (proj2 (getLastN_zero_is_whole_buffer
                           (addAll ["A"; "B"; "C"] (new 5))) 2 ltac:(lia))).
Defined.

End TokenBufferFacts.

(** ** BackpressureHandler *)

Section BackpressureFacts.
Import BackpressureHandler.

Lemma maxPending_call (c : Call) (h : t) : maxPending (call c h) = maxPending h.
Proof.
  destruct c as [caller|]; cbn [call]; unfold acquire, release.
  - now destruct (_ <? _).
  - now destruct (waitingResolvers h).
Qed.

Lemma saturating_acquire (caller : nat) (h : t) :
  saturating h -> saturating (acquire caller h).
Proof.
  intros [Hb Hw]. unfold acquire, saturating.
  destruct (Z.ltb_spec (pending h) (maxPending h)) as [Hlt | Hge];
    cbn [pending maxPending waitingResolvers].
  - split; [lia|]. intros Hne. apply Hw in Hne. lia.
  - split; [lia|]. intros _. lia.
Qed.

Lemma saturating_release (h : t) :
  saturating h -> 0 < pending h -> saturating (release h).
Proof.
  intros [Hb Hw] Hheld. unfold release, saturating.
  destruct (waitingResolvers h) as [|resolver rest] eqn:Hq;
    cbn [pending maxPending waitingResolvers].
  - split; [lia | congruence].
  - split; [lia|]. intros _.
    assert (pending h = maxPending h) by (apply Hw; congruence). lia.
Qed.

Lemma pending_bounded (calls : list Call) :
  forall h : t,
    saturating h -> disciplined calls h ->
    Forall (fun s => 0 <= pendingCount s <= maxPending h) (observed calls h).
Proof.
  induction calls as [|c calls IH]; intros h Hsat Hdisc; cbn [observed].
  - constructor.
  - destruct Hdisc as [Hc Hrest].
    assert (Hsat' : saturating (call c h)).
    { destruct c as [caller|]; cbn [call].
      - now apply saturating_acquire.
      - now apply saturating_release. }
    constructor.
    + unfold pendingCount. rewrite <- (maxPending_call c h). apply Hsat'.
    + rewrite <- (maxPending_call c h). now apply IH.
Qed.

(** C5: with [maxPending = 2], of three [acquire] calls the first two
    are granted at once and the third waits; one [release] resolves
    exactly the oldest waiter and hands it the permit; and after every
    call of a sequence with no [release] in excess of the granted
    acquires the pending count lies between 0 and 2. *)
Theorem backpressure_fairness (a b c : nat) :
  let h3 := acquire c (acquire b (acquire a (new 2))) in
  (granted h3 = [a; b] /\ waitingResolvers h3 = [c] /\ pendingCount h3 = 2)
  /\ (granted (release h3) = [a; b; c]
      /\ waitingResolvers (release h3) = []
      /\ pendingCount (release h3) = 2)
  /\ (forall (h : t) (w : nat) (ws : list nat),
         waitingResolvers h = w :: ws ->
         granted (release h) = granted h ++ [w]
         /\ waitingResolvers (release h) = ws
         /\ pendingCount (release h) = pendingCount h)
  /\ (forall calls : list Call,
         disciplined calls (new 2) ->
         Forall (fun s => 0 <= pendingCount s <= 2) (observed calls (new 2))).
Proof.
  cbv zeta. split; [|split; [|split]].
  - repeat split.
  - repeat split.
  - intros h w ws Hq. unfold release, pendingCount. rewrite Hq.
    cbn [granted waitingResolvers pending]. repeat split. lia.
  - intros calls Hdisc.
    apply (pending_bounded calls (new 2)); [|exact Hdisc].
    split; cbn; [lia | congruence].
Qed.

Lemma backpressure_fairness_witness :
  disciplined [Acquire 1; Acquire 2; Acquire 3; Release; Release] (new 2)
  /\ Forall (fun s => 0 <= pendingCount s <= 2)
       (observed [Acquire 1; Acquire 2; Acquire 3; Release; Release] (new 2))
  /\ waitingResolvers (acquire 3 (acquire 2 (acquire 1 (new 2)))) = [3%nat]
  /\ granted (release (acquire 3 (acquire 2 (acquire 1 (new 2)))))
     = granted (acquire 3 (acquire 2 (acquire 1 (new 2)))) ++ [3%nat].
Proof.
  assert (Hdisc : disciplined
                    [Acquire 1; Acquire 2; Acquire 3; Release; Release] (new 2))
    by (cbn; repeat split; lia).
  assert (Hwait : waitingResolvers (acquire 3 (acquire 2 (acquire 1 (new 2))))
                  = [3%nat]) by reflexivity.
  split; [exact Hdisc|]. split; [|split; [exact Hwait|]].
  - exact (proj2 (proj2 (proj2 (backpressure_fairness 1 2 3))) _ Hdisc).
  - exact (proj1 (proj1 (proj2 (proj2 (backpressure_fairness 1 2 3))) _ _ _ Hwait)).
Defined.

End BackpressureFacts.

(** ** ErrorHandler.withRetry *)

Section RetryFacts.
Import ErrorHandler.
Context {T : Type}.

(** The delay slept after the failed attempt of index [i]. *)
Lemma retryFrom_delays (operation : nat -> Settled T) (maxRetries backoffMs : Z)
    (remaining : nat) :
  forall (attempt : Z) (calls : nat) (slept : list Z) (lastError : option Error),
    attempt + Z.of_nat remaining = maxRetries + 1 ->
    (0 < remaining)%nat ->
    attempt = Z.of_nat calls ->
    slept = List.map (fun i => backoffMs * 2 ^ Z.of_nat i) (seq 0 calls) ->
    let run := retryFrom operation maxRetries backoffMs remaining attempt calls
                 slept lastError in
    (0 < attempts run)%nat
    /\ delays run
       = List.map (fun i => backoffMs * 2 ^ Z.of_nat i) (seq 0 (attempts run - 1)).
Proof.
  induction remaining as [|remaining IH];
    intros attempt calls slept lastError Hsum Hpos Hatt Hslept; [lia|].
  cbn [retryFrom].
  destruct (operation calls) as [value | error].
  - cbn [attempts delays]. split; [lia|].
    now replace (S calls - 1)%nat with calls by lia.
  - destruct (Z.eqb_spec attempt maxRetries) as [Hlast | Hmore]; cbn [orb].
    + cbn [attempts delays]. split; [lia|].
      now replace (S calls - 1)%nat with calls by lia.
    + destruct (isRetryable error); cbn [negb].
      * apply IH; try lia.
        rewrite seq_S, map_app. cbn [List.map Nat.add]. now subst.
      * cbn [attempts delays]. split; [lia|].
        now replace (S calls - 1)%nat with calls by lia.
Qed.

Lemma withRetry_delays (operation : nat -> Settled T) (maxRetries backoffMs : Z) :
  delays (withRetry operation maxRetries backoffMs)
  = List.map (fun i => backoffMs * 2 ^ Z.of_nat i)
      (seq 0 (attempts (withRetry operation maxRetries backoffMs) - 1)).
Proof.
  unfold withRetry.
  destruct (Z.to_nat (maxRetries + 1)) as [|remaining] eqn:Hrem; [reflexivity|].
  apply retryFrom_delays; [lia | lia | reflexivity | reflexivity].
Qed.

Lemma retryable_AIError (code : ErrorCode) (msg : string) (recoverable : bool) :
  isRetryable (AIError code msg recoverable) = true
  <-> recoverable = true
      /\ In code [MODEL_LOAD_FAILED; INFERENCE_FAILED; TIMEOUT_ERROR; NETWORK_ERROR].
Proof.
  cbn [isRetryable]. rewrite andb_true_iff. unfold retryableErrors.
  split; intros [Hrec Hcode]; (split; [exact Hrec|]).
  - destruct code; cbn in Hcode; try discriminate; cbn [In]; auto.
  - cbn [In] in Hcode.
    repeat (destruct Hcode as [<- | Hcode]; [reflexivity|]). contradiction.
Qed.

(** C6, amended: under [withRetry], an operation that fails twice with
    errors that [isRetryable] accepts and then succeeds returns its value
    after exactly 3 attempts when [maxRetries = 3]; one that always fails
    with such errors is attempted exactly 3 times when [maxRetries = 2] and
    the error of the last attempt is the one thrown; the delay slept after
    the failed attempt of index [i] is [backoffMs * 2 ^ i].  An [AIError]
    is accepted exactly when it is marked recoverable and its code is one
    of MODEL_LOAD_FAILED, INFERENCE_FAILED, TIMEOUT_ERROR and
    NETWORK_ERROR; every other [AIError], whether not marked recoverable
    or marked recoverable under another code, is thrown after the first
    attempt with no delay. *)
Theorem retry_semantics :
  (forall (operation : nat -> Settled T) (e0 e1 : Error) (value : T) (backoffMs : Z),
      operation 0%nat = Failed e0 -> isRetryable e0 = true ->
      operation 1%nat = Failed e1 -> isRetryable e1 = true ->
      operation 2%nat = Fulfilled value ->
      withRetry operation 3 backoffMs
      = mkRun (Returned value) 3 [backoffMs * 2 ^ 0; backoffMs * 2 ^ 1])
  /\ (forall (operation : nat -> Settled T) (errors : nat -> Error) (backoffMs : Z),
         (forall k, operation k = Failed (errors k)) ->
         (forall k, isRetryable (errors k) = true) ->
         withRetry operation 2 backoffMs
         = mkRun (Thrown (Some (errors 2%nat))) 3
             [backoffMs * 2 ^ 0; backoffMs * 2 ^ 1])
  /\ (forall (operation : nat -> Settled T) (maxRetries backoffMs : Z),
         delays (withRetry operation maxRetries backoffMs)
         = List.map (fun i => backoffMs * 2 ^ Z.of_nat i)
             (seq 0 (attempts (withRetry operation maxRetries backoffMs) - 1)))
  /\ (forall (code : ErrorCode) (msg : string) (recoverable : bool),
         isRetryable (AIError code msg recoverable) = true
         <-> recoverable = true
             /\ In code [MODEL_LOAD_FAILED; INFERENCE_FAILED; TIMEOUT_ERROR;
                         NETWORK_ERROR])
  /\ (forall (operation : nat -> Settled T) (code : ErrorCode) (msg : string)
             (recoverable : bool) (maxRetries backoffMs : Z),
         0 <= maxRetries ->
         operation 0%nat = Failed (AIError code msg recoverable) ->
         recoverable = false
         \/ ~ In code [MODEL_LOAD_FAILED; INFERENCE_FAILED; TIMEOUT_ERROR;
                       NETWORK_ERROR] ->
         withRetry operation maxRetries backoffMs
         = mkRun (Thrown (Some (AIError code msg recoverable))) 1 []).
Proof.
  split; [|split; [|split; [|split]]].
  - intros operation e0 e1 value backoffMs H0 R0 H1 R1 H2.
    unfold withRetry. change (Z.to_nat (3 + 1)) with 4%nat. cbn [retryFrom].
    rewrite H0, R0. change (0 =? 3) with false. cbn [orb negb].
    rewrite H1, R1. change (0 + 1 =? 3) with false. cbn [orb negb].
    rewrite H2. reflexivity.
  - intros operation errors backoffMs Hfail Hretry.
    unfold withRetry. change (Z.to_nat (2 + 1)) with 3%nat. cbn [retryFrom].
    rewrite !Hfail, !Hretry.
    change (0 =? 2) with false. change (0 + 1 =? 2) with false.
    change (0 + 1 + 1 =? 2) with true. cbn [orb negb].
    reflexivity.
  - exact withRetry_delays.
  - exact retryable_AIError.
  - intros operation code msg recoverable maxRetries backoffMs Hmax Hfail Hkind.
    assert (Hnot : isRetryable (AIError code msg recoverable) = false).
    { destruct (isRetryable (AIError code msg recoverable)) eqn:Hr; [|reflexivity].
      apply retryable_AIError in Hr. destruct Hr as [Hrec Hcode].
      destruct Hkind as [Hfalse | Hother]; [congruence | contradiction]. }
    unfold withRetry.
    destruct (Z.to_nat (maxRetries + 1)) as [|remaining] eqn:Hrem; [lia|].
    cbn [retryFrom]. rewrite Hfail, Hnot. cbn [negb].
    now rewrite orb_true_r.
Qed.

End RetryFacts.

(** C6, as stated, fails: an operation that fails twice with the error of
    [AIError.modelNotFound], which is built with [recoverable = true], and
    would then succeed, is called once under [maxRetries = 3], and the
    first error is thrown with no retry. *)
Lemma recoverable_error_is_not_retried :
  let flaky := fun k : nat =>
    match k with
    | 0%nat | 1%nat => ErrorHandler.Failed (ErrorHandler.modelNotFound "llama")
    | _ => ErrorHandler.Fulfilled "success"
    end in
  ErrorHandler.modelNotFound "llama"
  = ErrorHandler.AIError ErrorHandler.MODEL_NOT_FOUND "Model not found: llama" true
  /\ ErrorHandler.withRetry flaky 3 1000
     = ErrorHandler.mkRun
         (ErrorHandler.Thrown (Some (ErrorHandler.modelNotFound "llama"))) 1 []
  /\ ErrorHandler.withRetry flaky 3 1000
     <> ErrorHandler.mkRun (ErrorHandler.Returned "success") 3
          [1000 * 2 ^ 0; 1000 * 2 ^ 1].
Proof.
  cbv zeta. split; [reflexivity|]. split; [reflexivity | discriminate].
Qed.

Lemma retry_semantics_witness :
  let flaky := fun k : nat =>
    match k with
    | 0%nat | 1%nat =>
        ErrorHandler.Failed (ErrorHandler.timeoutError "generate" 5000)
    | _ => ErrorHandler.Fulfilled "success"
    end in
  let failing := fun k : nat =>
    ErrorHandler.Failed (T := string) (ErrorHandler.networkError "https://models.example/m.gguf") in
  let fatal := fun k : nat =>
    ErrorHandler.Failed (T := string) (ErrorHandler.memoryError 8192 4096) in
  let misplaced := fun k : nat =>
    ErrorHandler.Failed (T := string) (ErrorHandler.invalidInput "tensor" "string") in
  ErrorHandler.withRetry flaky 3 10
  = ErrorHandler.mkRun (ErrorHandler.Returned "success") 3 [10 * 2 ^ 0; 10 * 2 ^ 1]
  /\ ErrorHandler.withRetry failing 2 10
     = ErrorHandler.mkRun
         (ErrorHandler.Thrown
            (Some (ErrorHandler.networkError "https://models.example/m.gguf")))
         3 [10 * 2 ^ 0; 10 * 2 ^ 1]
  /\ ErrorHandler.withRetry fatal 3 1000
     = ErrorHandler.mkRun
         (ErrorHandler.Thrown (Some (ErrorHandler.memoryError 8192 4096))) 1 []
  /\ ErrorHandler.withRetry misplaced 3 1000
     = ErrorHandler.mkRun
         (ErrorHandler.Thrown (Some (ErrorHandler.invalidInput "tensor" "string")))
         1 [].
Proof.
  intros flaky failing fatal misplaced. split; [|split; [|split]].
  - apply (proj1 (@retry_semantics string) flaky
             (ErrorHandler.timeoutError "generate" 5000)
             (ErrorHandler.timeoutError "generate" 5000) "success" 10);
      reflexivity.
  - apply (proj1 (proj2 (@retry_semantics string)) failing
             (fun _ => ErrorHandler.networkError "https://models.example/m.gguf") 10);
      intros k; reflexivity.
  - apply (proj2 (proj2 (proj2 (proj2 (@retry_semantics string)))) fatal
             ErrorHandler.MEMORY_ERROR _ false 3 1000);
      [lia | reflexivity | left; reflexivity].
  - apply (proj2 (proj2 (proj2 (proj2 (@retry_semantics string)))) misplaced
             ErrorHandler.INVALID_INPUT _ true 3 1000);
      [lia | reflexivity | right].
    cbn [In]. intuition discriminate.
Defined.

(** ** ModelRegistry.selectBestAdapter *)

Section SortFacts.
Context {A : Type} (rank : A -> Z).

(** Sorting by descending rank puts first the earliest element of highest
    rank. *)
Lemma sort_descending_head (l : list A) :
  l <> [] ->
  exists before best after,
    l = before ++ best :: after
    /\ hd_error (Js.sort (fun a b => rank b - rank a) l) = Some best
    /\ (forall x, In x before -> rank x < rank best)
    /\ (forall x, In x after -> rank x <= rank best).
Proof.
  induction l as [|x l IH]; intros Hne; [congruence|].
  destruct l as [|y l'].
  - exists [], x, []. cbn. repeat split; intros z [].
  - remember (y :: l') as l eqn:El.
    destruct IH as (before & best & after & Hl & Hhd & Hlt & Hle); [congruence|].
    cbn [Js.sort].
    destruct (Js.sort (fun a b => rank b - rank a) l) as [|h rest];
      [discriminate|].
    cbn [hd_error] in Hhd. injection Hhd as ->.
    cbn [Js.sort_insert].
    destruct (Z.leb_spec (rank best - rank x) 0) as [Hx | Hx].
    + exists [], x, l. cbn [app hd_error]. repeat split.
      * intros z [].
      * intros z Hz. rewrite Hl in Hz. apply in_app_or in Hz.
        destruct Hz as [Hz | [<- | Hz]];
          [apply Hlt in Hz | | apply Hle in Hz]; lia.
    + exists (x :: before), best, after. rewrite Hl. cbn [app hd_error].
      repeat split; [|exact Hle].
      intros z [<- | Hz]; [lia | now apply Hlt].
Qed.

End SortFacts.

Section RegistryFacts.
Import ModelRegistry.

Lemma filter_eq_app_cons {A : Type} (f : A -> bool) (l : list A) :
  forall (l1 : list A) (c : A) (l2 : list A),
    filter f l = l1 ++ c :: l2 ->
    exists before after,
      l = before ++ c :: after
      /\ f c = true /\ filter f before = l1 /\ filter f after = l2.
Proof.
  induction l as [|x l IH]; intros l1 c l2 H; cbn [filter] in H.
  - now destruct l1.
  - destruct (f x) eqn:Hx.
    + destruct l1 as [|y l1]; cbn [app] in H; injection H as -> H.
      * exists [], l. cbn [app filter]. auto.
      * destruct (IH _ _ _ H) as (before & after & -> & Hc & Hb & Ha).
        exists (y :: before), after. cbn [app filter]. rewrite Hx, Hb. auto.
    + destruct (IH _ _ _ H) as (before & after & -> & Hc & Hb & Ha).
      exists (x :: before), after. cbn [app filter]. rewrite Hx. auto.
Qed.

Lemma candidatesOf_filter (modelPath : string) (modelInfo : option ModelInfo.t)
    (hardware : option HardwareInfo.t) (r : t) :
  candidatesOf modelPath modelInfo hardware r
  = List.map (fun a => mkCandidate a (scoreOf modelInfo hardware a))
      (filter (fun a => ModelAdapter.canHandle a modelPath modelInfo)
         (getAllAdapters r)).
Proof.
  unfold candidatesOf, getAllAdapters.
  set (step := fun (candidates : list Candidate) adapter =>
         if negb (ModelAdapter.canHandle adapter modelPath modelInfo)
         then candidates
         else candidates ++ [mkCandidate adapter (scoreOf modelInfo hardware adapter)]).
  assert (G : forall l acc,
             fold_left step l acc
             = acc ++ List.map (fun a => mkCandidate a (scoreOf modelInfo hardware a))
                        (filter (fun a => ModelAdapter.canHandle a modelPath modelInfo) l)).
  { induction l as [|a l IH]; intros acc.
    - cbn. now rewrite app_nil_r.
    - cbn [fold_left filter]. rewrite IH. unfold step.
      destruct (ModelAdapter.canHandle a modelPath modelInfo); cbn [negb].
      + cbn [List.map]. now rewrite <- app_assoc.
      + reflexivity. }
  apply (G _ []).
Qed.

Lemma map_set_fresh {V : Type} (k : string) (v : V) (m : Js.Map V) :
  ~ In k (Js.map_keys m) -> Js.map_set k v m = m ++ [(k, v)].
Proof.
  induction m as [|[k' v'] m IH]; intros Hfresh; [reflexivity|].
  cbn [Js.map_set Js.map_keys List.map fst In] in *.
  destruct (String.eqb_spec k k') as [-> | Hne]; [tauto|].
  cbn [app]. f_equal. apply IH. tauto.
Qed.

(** Adapters of pairwise different format tags are iterated in the order
    of their registration. *)
Lemma registerAll_order (l : list ModelAdapter.t) :
  NoDup (List.map ModelAdapter.format l) ->
  getAllAdapters (registerAll l new) = l.
Proof.
  intros Hnd. unfold registerAll.
  assert (G : forall r : t,
             (forall a, In a l ->
                        ~ In (ModelAdapter.format a) (Js.map_keys (adapters r))) ->
             getAllAdapters
               (fold_left (fun acc adapter => registerAdapter adapter acc) l r)
             = getAllAdapters r ++ l).
  { induction l as [|a l IH]; intros r Hfresh; cbn [fold_left].
    - now rewrite app_nil_r.
    - cbn [List.map] in Hnd. inversion Hnd as [|? ? Ha Hrest]; subst.
      assert (Hreg : adapters (registerAdapter a r)
                     = adapters r ++ [(ModelAdapter.format a, a)]).
      { cbn [registerAdapter adapters]. apply map_set_fresh, Hfresh. now left. }
      rewrite (IH Hrest).
      + unfold getAllAdapters, Js.map_values. rewrite Hreg, map_app.
        cbn [List.map snd]. now rewrite <- app_assoc.
      + intros b Hb. rewrite Hreg. unfold Js.map_keys. rewrite map_app.
        cbn [List.map fst]. intros Hin. apply in_app_or in Hin.
        destruct Hin as [Hin | [Heq | []]].
        * apply (Hfresh b); [now right | exact Hin].
        * apply Ha. rewrite Heq. now apply in_map. }
  apply (G new). intros a _ [].
Qed.

Lemma selectBestAdapter_head (modelPath : string) (modelInfo : option ModelInfo.t)
    (hardware : option HardwareInfo.t) (r : t) :
  selectBestAdapter modelPath modelInfo hardware r
  = option_map adapter
      (hd_error (Js.sort (fun a b => score b - score a)
                   (candidatesOf modelPath modelInfo hardware r))).
Proof.
  unfold selectBestAdapter.
  destruct (candidatesOf modelPath modelInfo hardware r) as [|c cs] eqn:Hc.
  - reflexivity.
  - change (Z.of_nat (List.length (c :: cs)) =? 0) with false. cbv iota.
    now destruct (Js.sort _ (c :: cs)).
Qed.

(** Registering under a format tag that is present replaces the adapter
    in the place of the tag. *)
Lemma map_set_middle {V : Type} (k : string) (v old : V) (before after : Js.Map V) :
  ~ In k (Js.map_keys before) ->
  Js.map_set k v (before ++ (k, old) :: after) = before ++ (k, v) :: after.
Proof.
  induction before as [|[k' v'] before IH]; intros Hfresh;
    cbn [app Js.map_set].
  - now rewrite String.eqb_refl.
  - cbn [Js.map_keys List.map fst In] in Hfresh.
    destruct (String.eqb_spec k k') as [-> | Hne]; [tauto|].
    f_equal. apply IH. tauto.
Qed.

(** C4, as stated, fails: after an adapter of tag x, an adapter of tag y
    and a second adapter of tag x were registered, in that order, the two
    adapters in the registry both handle the input with a score of 20, and
    the one selected is the second adapter of tag x, registered last, not
    the adapter of tag y, registered before it. *)
Lemma reregistered_adapter_wins_tie :
  let a1 := SelectionExamples.adapterOf "x" "first" true [] in
  let b1 := SelectionExamples.adapterOf "y" "only" true [] in
  let a2 := SelectionExamples.adapterOf "x" "second" true [] in
  let r := registerAll [a1; b1; a2] new in
  getAllAdapters r = [a2; b1]
  /\ ModelAdapter.canHandle a2 "model.bin" None = true
  /\ ModelAdapter.canHandle b1 "model.bin" None = true
  /\ scoreOf None None a2 = 20
  /\ scoreOf None None b1 = 20
  /\ selectBestAdapter "model.bin" None None r = Some a2
  /\ selectBestAdapter "model.bin" None None r <> Some b1.
Proof.
  cbv zeta. repeat split; try reflexivity. discriminate.
Qed.

(** C4, amended: [selectBestAdapter] returns [null] exactly when no
    registered adapter can handle the input; otherwise it returns an
    adapter that can handle it, whose score no other candidate exceeds and
    which every candidate iterated before it falls short of: a tie goes to
    the candidate that comes first in the iteration order of the adapters
    map.  The score is 100 for a matching format tag, plus 50 for a GPU on
    both sides, plus 20 for streaming, plus 10 for a non-empty list of
    quantization levels; the result depends on the registered adapters and
    the arguments only.  The iteration order is that of the first
    registration of each format tag: an adapter of a new tag goes to the
    end, an adapter of a tag that is present replaces the adapter of that
    tag in its place, and adapters of pairwise different tags are iterated
    in the order of their registration, so that among them the first
    registered wins a tie. *)
Theorem selectBestAdapter_highest_score (modelPath : string)
    (modelInfo : option ModelInfo.t) (hardware : option HardwareInfo.t) (r : t) :
  let handles := fun a => ModelAdapter.canHandle a modelPath modelInfo in
  let points := scoreOf modelInfo hardware in
  (selectBestAdapter modelPath modelInfo hardware r = None
   <-> forall a, In a (getAllAdapters r) -> handles a = false)
  /\ (forall best,
         selectBestAdapter modelPath modelInfo hardware r = Some best ->
         exists before after,
           getAllAdapters r = before ++ best :: after
           /\ handles best = true
           /\ (forall a, In a before -> handles a = true -> points a < points best)
           /\ (forall a, In a after -> handles a = true -> points a <= points best))
  /\ (forall a,
         points a
         = (if match modelInfo with
               | Some i => String.eqb (ModelInfo.format i) (ModelAdapter.format a)
               | None => false
               end then 100 else 0)
           + (if (match hardware with
                  | Some h => HardwareInfo.hasGPU h
                  | None => false
                  end
                  && AdapterCapabilities.supportsGPU (ModelAdapter.getCapabilities a))%bool
              then 50 else 0)
           + (if AdapterCapabilities.supportsStreaming (ModelAdapter.getCapabilities a)
              then 20 else 0)
           + (match AdapterCapabilities.supportsQuantization
                      (ModelAdapter.getCapabilities a) with
              | [] => 0
              | _ :: _ => 10
              end))
  /\ (forall r' : t,
         adapters r' = adapters r ->
         selectBestAdapter modelPath modelInfo hardware r'
         = selectBestAdapter modelPath modelInfo hardware r)
  /\ (forall a : ModelAdapter.t,
         ~ In (ModelAdapter.format a) (Js.map_keys (adapters r)) ->
         getAllAdapters (registerAdapter a r) = getAllAdapters r ++ [a])
  /\ (forall (a old : ModelAdapter.t) (before after : Js.Map ModelAdapter.t),
         adapters r = before ++ (ModelAdapter.format a, old) :: after ->
         ~ In (ModelAdapter.format a) (Js.map_keys before) ->
         getAllAdapters (registerAdapter a r)
         = Js.map_values before ++ a :: Js.map_values after)
  /\ (forall l : list ModelAdapter.t,
         NoDup (List.map ModelAdapter.format l) ->
         getAllAdapters (registerAll l new) = l).
Proof.
  intros handles points.
  split; [|split; [|split; [|split; [|split; [|split]]]]].
  - rewrite selectBestAdapter_head, candidatesOf_filter.
    fold handles. fold points.
    destruct (filter handles (getAllAdapters r)) as [|c cs] eqn:Hf.
    + split; [|reflexivity]. intros _ a Ha.
      destruct (handles a) eqn:Hh; [|reflexivity].
      assert (Hin : In a (filter handles (getAllAdapters r)))
        by (apply filter_In; auto).
      rewrite Hf in Hin. destruct Hin.
    + split.
      * intros Hnone.
        destruct (sort_descending_head score
                    (List.map (fun a => mkCandidate a (points a)) (c :: cs)))
          as (b & best & a & _ & Hhd & _); [discriminate|].
        rewrite Hhd in Hnone. discriminate.
      * intros Hall.
        assert (Hin : In c (filter handles (getAllAdapters r)))
          by (rewrite Hf; now left).
        apply filter_In in Hin. destruct Hin as [Hin Hh].
        rewrite (Hall c Hin) in Hh. discriminate.
  - intros best Hbest.
    rewrite selectBestAdapter_head, candidatesOf_filter in Hbest.
    fold handles in Hbest. fold points in Hbest.
    destruct (filter handles (getAllAdapters r)) as [|c cs] eqn:Hf;
      [discriminate|].
    destruct (sort_descending_head score
                (List.map (fun a => mkCandidate a (points a)) (c :: cs)))
      as (cb & cbest & ca & Hsplit & Hhd & Hlt & Hle); [discriminate|].
    rewrite Hhd in Hbest. cbn [option_map] in Hbest. injection Hbest as Hbest.
    apply map_eq_app in Hsplit.
    destruct Hsplit as (fb & frest & Hfsplit & Hfb & Hfrest).
    apply map_eq_cons in Hfrest.
    destruct Hfrest as (a0 & fa & -> & Ha0 & Hfa).
    subst cbest. cbn [adapter] in Hbest. subst a0.
    rewrite <- Hf in Hfsplit.
    apply filter_eq_app_cons in Hfsplit.
    destruct Hfsplit as (before & after & Hvals & Hh & Hbefore & Hafter).
    exists before, after. split; [exact Hvals|]. split; [exact Hh|]. split.
    + intros a Ha Hha.
      assert (Hin : In a fb) by (rewrite <- Hbefore; apply filter_In; auto).
      apply (in_map (fun a => mkCandidate a (points a))) in Hin.
      rewrite Hfb in Hin. apply Hlt in Hin. exact Hin.
    + intros a Ha Hha.
      assert (Hin : In a fa) by (rewrite <- Hafter; apply filter_In; auto).
      apply (in_map (fun a => mkCandidate a (points a))) in Hin.
      rewrite Hfa in Hin. apply Hle in Hin. exact Hin.
  - intros a. unfold points, scoreOf.
    destruct (match modelInfo with Some _ => _ | None => _ end);
      destruct (match hardware with Some _ => _ | None => _ end && _)%bool;
      destruct (AdapterCapabilities.supportsStreaming _);
      destruct (AdapterCapabilities.supportsQuantization _); reflexivity.
  - intros r' Heq. unfold selectBestAdapter, candidatesOf. now rewrite Heq.
  - intros a Hfresh. unfold getAllAdapters, registerAdapter. cbn [adapters].
    rewrite (map_set_fresh _ _ _ Hfresh). unfold Js.map_values.
    now rewrite map_app.
  - intros a old before after Hr Hfresh.
    unfold getAllAdapters, registerAdapter. cbn [adapters].
    rewrite Hr, (map_set_middle _ _ _ _ _ Hfresh). unfold Js.map_values.
    now rewrite map_app.
  - exact registerAll_order.
Qed.

Lemma selectBestAdapter_highest_score_witness :
  let x20 := SelectionExamples.adapterOf "x" "plain" true [] in
  let y20 := SelectionExamples.adapterOf "y" "plain" true [] in
  let z30 := SelectionExamples.adapterOf "z" "quantized" true ["int8"] in
  let ranked := registerAll [x20; y20; z30] new in
  let tied := registerAll [x20; y20] new in
  let builtin := registerAll [Adapters.TFLiteAdapter; Adapters.GGUFAdapter] new in
  selectBestAdapter "model.bin" None None ranked = Some z30
  /\ (exists before after,
        getAllAdapters ranked = before ++ z30 :: after
        /\ (forall a, In a before ->
                      ModelAdapter.canHandle a "model.bin" None = true ->
                      scoreOf None None a < scoreOf None None z30))
  /\ selectBestAdapter "model.bin" None None tied = Some x20
  /\ (exists before after,
        getAllAdapters tied = before ++ x20 :: after
        /\ (forall a, In a after ->
                      ModelAdapter.canHandle a "model.bin" None = true ->
                      scoreOf None None a <= scoreOf None None x20))
  /\ getAllAdapters ranked = [x20; y20; z30]
  /\ getAllAdapters (registerAdapter z30 tied) = getAllAdapters tied ++ [z30]
  /\ getAllAdapters
       (registerAdapter (SelectionExamples.adapterOf "x" "newer" true []) tied)
     = [SelectionExamples.adapterOf "x" "newer" true []; y20]
  /\ selectBestAdapter "model.bin" None None
       (mk (adapters ranked) [("m1", Examples.modelOf "m1" 5)])
     = selectBestAdapter "model.bin" None None ranked
  /\ (selectBestAdapter "notes.txt" None None builtin = None
      <-> forall a, In a (getAllAdapters builtin) ->
                    ModelAdapter.canHandle a "notes.txt" None = false).
Proof.
  intros x20 y20 z30 ranked tied builtin.
  assert (Hranked : selectBestAdapter "model.bin" None None ranked = Some z30)
    by reflexivity.
  assert (Htied : selectBestAdapter "model.bin" None None tied = Some x20)
    by reflexivity.
  assert (Hnd : NoDup (List.map ModelAdapter.format [x20; y20; z30])).
  { repeat constructor; cbn; intuition discriminate. }
  split; [exact Hranked|]. split.
  { destruct (proj1 (proj2 (selectBestAdapter_highest_score
                              "model.bin" None None ranked)) z30 Hranked)
      as (before & after & Hsplit & _ & Hlt & _).
    exists before, after. split; assumption. }
  split; [exact Htied|]. split.
  { destruct (proj1 (proj2 (selectBestAdapter_highest_score
                              "model.bin" None None tied)) x20 Htied)
      as (before & after & Hsplit & _ & _ & Hle).
    exists before, after. split; assumption. }
  split.
  { exact (proj2 (proj2 (proj2 (proj2 (proj2 (proj2
             (selectBestAdapter_highest_score "model.bin" None None ranked))))))
             _ Hnd). }
  split.
  { apply (proj1 (proj2 (proj2 (proj2 (proj2
             (selectBestAdapter_highest_score "model.bin" None None tied)))))).
    cbn. intuition discriminate. }
  split.
  { apply (proj1 (proj2 (proj2 (proj2 (proj2 (proj2
             (selectBestAdapter_highest_score "model.bin" None None tied))))))
             (SelectionExamples.adapterOf "x" "newer" true []) x20 [] [("y", y20)]).
    - reflexivity.
    - intros []. }
  split.
  { exact (proj1 (proj2 (proj2 (proj2
             (selectBestAdapter_highest_score "model.bin" None None ranked))))
             (mk (adapters ranked) [("m1", Examples.modelOf "m1" 5)]) eq_refl). }
  exact (proj1 (selectBestAdapter_highest_score "notes.txt" None None builtin)).
Defined.

End RegistryFacts.

(** ** JavaScript maps *)

Section MapFacts.
Context {V : Type}.
Implicit Types (m : Js.Map V) (k : string) (v : V).

Lemma map_get_None m k : Js.map_get k m = None <-> ~ In k (Js.map_keys m).
Proof.
  induction m as [|[k' v'] m IH]; cbn [Js.map_get Js.map_keys List.map fst In].
  - tauto.
  - destruct (String.eqb_spec k k') as [-> | Hne].
    + split; [discriminate | tauto].
    + rewrite IH. unfold Js.map_keys. intuition congruence.
Qed.

Lemma map_get_In m k v : Js.map_get k m = Some v -> In v (Js.map_values m).
Proof.
  induction m as [|[k' v'] m IH]; cbn [Js.map_get Js.map_values List.map snd In];
    [discriminate|].
  destruct (String.eqb k k'); [intros [= ->]; now left | intros H; right; now apply IH].
Qed.

Lemma map_delete_absent m k : Js.map_get k m = None -> Js.map_delete k m = m.
Proof.
  induction m as [|[k' v'] m IH]; cbn [Js.map_get Js.map_delete]; [reflexivity|].
  destruct (String.eqb k k'); [discriminate | intros H; f_equal; now apply IH].
Qed.

Lemma map_keys_delete_incl m k k' :
  In k' (Js.map_keys (Js.map_delete k m)) -> In k' (Js.map_keys m).
Proof.
  induction m as [|[k0 v0] m IH]; cbn [Js.map_delete]; [tauto|].
  destruct (String.eqb k k0); cbn [Js.map_keys List.map fst In] in *.
  - unfold Js.map_keys. tauto.
  - intros [H | H]; [now left | right; now apply IH].
Qed.

Lemma map_delete_NoDup m k :
  NoDup (Js.map_keys m) -> NoDup (Js.map_keys (Js.map_delete k m)).
Proof.
  induction m as [|[k0 v0] m IH]; cbn [Js.map_delete]; [tauto|].
  cbn [Js.map_keys List.map fst]. intros Hnd.
  inversion Hnd as [|? ? Hk Hrest]; subst.
  destruct (String.eqb k k0); [exact Hrest|].
  cbn [Js.map_keys List.map fst]. constructor; [|now apply IH].
  intros Hin. apply Hk. now apply map_keys_delete_incl in Hin.
Qed.

Lemma map_get_delete_same m k :
  NoDup (Js.map_keys m) -> Js.map_get k (Js.map_delete k m) = None.
Proof.
  induction m as [|[k0 v0] m IH]; cbn [Js.map_delete]; [reflexivity|].
  cbn [Js.map_keys List.map fst]. intros Hnd.
  inversion Hnd as [|? ? Hk Hrest]; subst.
  destruct (String.eqb_spec k k0) as [-> | Hne].
  - now apply map_get_None.
  - cbn [Js.map_get]. destruct (String.eqb_spec k k0); [congruence|]. now apply IH.
Qed.

Lemma map_get_delete_other m k k' :
  k' <> k -> Js.map_get k' (Js.map_delete k m) = Js.map_get k' m.
Proof.
  intros Hne. induction m as [|[k0 v0] m IH]; cbn [Js.map_delete]; [reflexivity|].
  destruct (String.eqb_spec k k0) as [-> | Hk]; cbn [Js.map_get].
  - destruct (String.eqb_spec k' k0); [congruence | reflexivity].
  - now rewrite IH.
Qed.

Lemma map_keys_set m k v :
  Js.map_keys (Js.map_set k v m)
  = if Js.map_has k m then Js.map_keys m else Js.map_keys m ++ [k].
Proof.
  unfold Js.map_has.
  induction m as [|[k0 v0] m IH]; cbn [Js.map_set Js.map_get]; [reflexivity|].
  destruct (String.eqb k k0); [reflexivity|].
  cbn [Js.map_keys List.map fst]. fold (Js.map_keys (Js.map_set k v m)).
  rewrite IH. fold (Js.map_keys m). now destruct (Js.map_get k m).
Qed.

Lemma map_set_NoDup m k v :
  NoDup (Js.map_keys m) -> NoDup (Js.map_keys (Js.map_set k v m)).
Proof.
  intros Hnd. rewrite map_keys_set. unfold Js.map_has.
  destruct (Js.map_get k m) eqn:Hg; [exact Hnd|].
  apply map_get_None in Hg.
  apply NoDup_app; [exact Hnd | repeat constructor; intros [] |].
  intros x Hx [<- | []]. contradiction.
Qed.

Lemma map_values_delete_Forall (P : V -> Prop) m k :
  Forall P (Js.map_values m) -> Forall P (Js.map_values (Js.map_delete k m)).
Proof.
  induction m as [|[k0 v0] m IH]; cbn [Js.map_delete]; [tauto|].
  cbn [Js.map_values List.map snd]. intros HF.
  inversion HF as [|? ? Hv Hrest]; subst.
  destruct (String.eqb k k0); [exact Hrest|].
  cbn [Js.map_values List.map snd]. constructor; [exact Hv | now apply IH].
Qed.

Lemma map_values_set_Forall (P : V -> Prop) m k v :
  P v -> Forall P (Js.map_values m) -> Forall P (Js.map_values (Js.map_set k v m)).
Proof.
  intros Hv. induction m as [|[k0 v0] m IH]; cbn [Js.map_set].
  - intros _. repeat constructor. exact Hv.
  - cbn [Js.map_values List.map snd]. intros HF.
    inversion HF as [|? ? H0 Hrest]; subst.
    destruct (String.eqb k k0); cbn [Js.map_values List.map snd];
      constructor; auto.
Qed.

Lemma map_get_set_same m k v : Js.map_get k (Js.map_set k v m) = Some v.
Proof.
  induction m as [|[k0 v0] m IH]; cbn [Js.map_set Js.map_get].
  - now rewrite String.eqb_refl.
  - destruct (String.eqb_spec k k0) as [-> | Hne]; cbn [Js.map_get].
    + now rewrite String.eqb_refl.
    + destruct (String.eqb_spec k k0); [congruence | exact IH].
Qed.

End MapFacts.

(** Registering an adapter under a format tag that is already taken
    replaces the adapter in place: the tag keeps the slot of its first
    registration in the iteration order, and the last adapter registered
    under it is the one kept. *)
Lemma registerAdapter_keeps_slot (a : ModelAdapter.t) (r : ModelRegistry.t) :
  In (ModelAdapter.format a) (Js.map_keys (ModelRegistry.adapters r)) ->
  Js.map_keys (ModelRegistry.adapters (ModelRegistry.registerAdapter a r))
  = Js.map_keys (ModelRegistry.adapters r)
  /\ ModelRegistry.getAdapter (ModelAdapter.format a)
       (ModelRegistry.registerAdapter a r) = Some a.
Proof.
  intros Hin. unfold ModelRegistry.registerAdapter, ModelRegistry.getAdapter.
  cbn [ModelRegistry.adapters]. split; [|apply map_get_set_same].
  rewrite map_keys_set. unfold Js.map_has.
  destruct (Js.map_get (ModelAdapter.format a) (ModelRegistry.adapters r)) eqn:Hg;
    [reflexivity|].
  apply map_get_None in Hg. contradiction.
Qed.

(** ** LRUCache: bookkeeping *)

Section CacheFacts.
Import LRUCache LRUCacheStates.
Implicit Types (st : t) (m : Js.Map Cached) (k key : string).

Lemma new_empty (maxSizeMB : Z) : new maxSizeMB = empty (maxSizeMB * 1024 * 1024).
Proof. reflexivity. Qed.

Lemma total_delete m k c :
  Js.map_get k m = Some c ->
  total (Js.map_delete k m) = total m - CacheEntry.size (entry c).
Proof.
  unfold total.
  induction m as [|[k0 c0] m IH]; cbn [Js.map_get Js.map_delete]; [discriminate|].
  destruct (String.eqb k k0); cbn [Js.map_values List.map snd fold_right].
  - intros [= ->]. fold (Js.map_values m). lia.
  - intros H. fold (Js.map_values (Js.map_delete k m)). fold (Js.map_values m).
    rewrite (IH H). lia.
Qed.

Lemma total_set m k (c : Cached) :
  total (Js.map_set k c m)
  = total m + CacheEntry.size (entry c)
    - match Js.map_get k m with
      | Some old => CacheEntry.size (entry old)
      | None => 0
      end.
Proof.
  unfold total.
  induction m as [|[k0 c0] m IH]; cbn [Js.map_get Js.map_set].
  - cbn. lia.
  - destruct (String.eqb k k0); cbn [Js.map_values List.map snd fold_right].
    + fold (Js.map_values m). lia.
    + fold (Js.map_values (Js.map_set k c m)). fold (Js.map_values m).
      rewrite IH. lia.
Qed.

Lemma total_nonneg m :
  Forall (fun c => 0 <= CacheEntry.size (entry c)) (Js.map_values m) ->
  0 <= total m.
Proof.
  unfold total. induction 1 as [|c l Hc _ IH]; cbn [fold_right]; lia.
Qed.

Lemma maxSize_delete key st : maxSize (delete key st) = maxSize st.
Proof. unfold delete. now destruct (Js.map_get key (cache st)). Qed.

Lemma maxSize_evictLRU st : maxSize (evictLRU st) = maxSize st.
Proof.
  unfold evictLRU. destruct (fst (oldest (cache st))) as [k|]; [|reflexivity].
  destruct (Js.truthy k); [apply maxSize_delete | reflexivity].
Qed.

Lemma accounted_delete key st : accounted st -> accounted (delete key st).
Proof.
  intros (Hnd & Hsum & Hpos). unfold delete.
  destruct (Js.map_get key (cache st)) as [c|] eqn:Hg; [|now repeat split].
  unfold accounted, sum_sizes. cbn [cache currentSize]. repeat split.
  - now apply map_delete_NoDup.
  - rewrite (total_delete _ _ _ Hg). unfold sum_sizes in Hsum. lia.
  - now apply map_values_delete_Forall.
Qed.

Lemma accounted_evictLRU st : accounted st -> accounted (evictLRU st).
Proof.
  intros Hacc. unfold evictLRU.
  destruct (fst (oldest (cache st))) as [k|]; [|exact Hacc].
  destruct (Js.truthy k); [now apply accounted_delete | exact Hacc].
Qed.

Lemma evict_while_unfold fuel modelSize st :
  evict_while fuel modelSize st
  = if pressed modelSize st
    then match fuel with
         | O => None
         | S fuel' => evict_while fuel' modelSize (evictLRU st)
         end
    else Some st.
Proof. now destruct fuel. Qed.

(** What the eviction loop leaves behind when it ends. *)
Lemma evict_while_post fuel modelSize :
  forall st st1,
    accounted st ->
    evict_while fuel modelSize st = Some st1 ->
    accounted st1 /\ maxSize st1 = maxSize st /\ pressed modelSize st1 = false.
Proof.
  induction fuel as [|fuel IH]; intros st st1 Hacc Hrun;
    rewrite evict_while_unfold in Hrun;
    destruct (pressed modelSize st) eqn:Hp; try discriminate.
  - injection Hrun as <-. auto.
  - apply IH in Hrun; [|now apply accounted_evictLRU].
    now rewrite maxSize_evictLRU in Hrun.
  - injection Hrun as <-. auto.
Qed.

Lemma pressed_false modelSize st :
  accounted st -> pressed modelSize st = false ->
  currentSize st + modelSize <= maxSize st \/ (cache st = [] /\ currentSize st = 0).
Proof.
  intros (_ & Hsum & _) Hp. unfold pressed in Hp.
  apply andb_false_iff in Hp. destruct Hp as [Hp | Hp].
  - left. zbool. lia.
  - right. unfold Js.map_size in Hp. zbool.
    destruct (cache st) as [|kc m] eqn:Hc; [|cbn [List.length] in Hp; lia].
    split; [reflexivity|]. rewrite Hsum. unfold sum_sizes. now rewrite Hc.
Qed.

Lemma accounted_set fuel key model now st r st' :
  accounted st -> sized model ->
  set fuel key model now st = Some (r, st') ->
  accounted st'
  /\ maxSize st' = maxSize st
  /\ (r = Resolved -> currentSize st' <= maxSize st).
Proof.
  intros Hacc Hsized Hset. unfold set in Hset. unfold sized in Hsized.
  set (modelSize := ModelInfo.size (LoadedModel.info model)) in *.
  destruct (evict_while fuel modelSize st) as [st1|] eqn:Hrun; [|discriminate].
  destruct (evict_while_post _ _ _ _ Hacc Hrun) as (Hacc1 & Hmax & Hp).
  destruct (modelSize >? maxSize st1) eqn:Hbig.
  - injection Hset as <- <-. repeat split; try apply Hacc1; try exact Hmax.
    discriminate.
  - injection Hset as <- <-. zbool.
    assert (Hfit : currentSize st1 + modelSize <= maxSize st1 \/ currentSize st1 = 0)
      by (destruct (pressed_false _ _ Hacc1 Hp) as [Hfit | [_ Hzero]]; auto).
    destruct Hacc1 as (Hnd & Hsum & Hpos). unfold sum_sizes in Hsum.
    assert (Hold : match Js.map_get key (cache st1) with
                   | Some old => 0 <= CacheEntry.size (entry old)
                   | None => True
                   end).
    { destruct (Js.map_get key (cache st1)) as [old|] eqn:Hg; [|exact I].
      apply map_get_In in Hg.
      now apply (proj1 (Forall_forall _ _) Hpos) in Hg. }
    destruct (Js.map_get key (cache st1)) as [old|] eqn:Hg;
      unfold accounted, sum_sizes; cbn [cache currentSize maxSize];
      rewrite total_set, Hg; cbn [entry CacheEntry.size];
      (split; [|split; [exact Hmax | intros _; lia]]);
      (split; [now apply map_set_NoDup|]);
      (split; [lia | now apply map_values_set_Forall]).
Qed.

Lemma accounted_get key now st : accounted st -> accounted (snd (get key now st)).
Proof.
  intros Hacc. unfold get.
  destruct (Js.map_get key (cache st)) as [c|] eqn:Hg; [|exact Hacc].
  destruct Hacc as (Hnd & Hsum & Hpos). unfold sum_sizes in Hsum.
  cbn [snd]. unfold accounted, sum_sizes. cbn [cache currentSize].
  assert (Hc : 0 <= CacheEntry.size (entry c)).
  { apply map_get_In in Hg. now apply (proj1 (Forall_forall _ _) Hpos) in Hg. }
  split; [now apply map_set_NoDup, map_delete_NoDup|]. split.
  - rewrite total_set, (map_get_delete_same _ _ Hnd), (total_delete _ _ _ Hg).
    cbn [touch entry CacheEntry.size]. lia.
  - apply map_values_set_Forall; [exact Hc|].
    now apply map_values_delete_Forall.
Qed.

Lemma accounted_clear st : accounted st -> accounted (clear st).
Proof.
  intros _. unfold accounted, sum_sizes, clear. cbn.
  repeat split; constructor.
Qed.

Lemma accounted_prune maxAge now st :
  accounted st -> accounted (snd (prune maxAge now st)).
Proof.
  unfold prune. cbn [snd].
  generalize (Js.map_keys
                (filter (fun kc => now - CacheEntry.lastAccessed (entry (snd kc))
                                   >? maxAge) (cache st))) as keys.
  intros keys. revert st.
  induction keys as [|k keys IH]; intros st Hacc; cbn [fold_left]; [exact Hacc|].
  apply IH. now apply accounted_delete.
Qed.

(** Every state reached with sized models keeps exact books. *)
Lemma reachable_accounted capacity st :
  reachable sized capacity st -> accounted st /\ maxSize st = capacity.
Proof.
  induction 1 as [| key now st _ [IH Hm] | fuel key model now st r st' _ [IH Hm] Hs Hset
                  | key st _ [IH Hm] | st _ [IH Hm] | maxAge now st _ [IH Hm]].
  - split; [|reflexivity]. unfold accounted, sum_sizes, empty. cbn.
    repeat split; constructor.
  - split; [now apply accounted_get|].
    unfold get. now destruct (Js.map_get key (cache st)).
  - destruct (accounted_set _ _ _ _ _ _ _ IH Hs Hset) as (Hacc & Hmax & _).
    split; [exact Hacc | congruence].
  - split; [now apply accounted_delete | now rewrite maxSize_delete].
  - split; [now apply accounted_clear | exact Hm].
  - split; [now apply accounted_prune|].
    unfold prune. cbn [snd]. rewrite <- Hm.
    generalize (Js.map_keys
                  (filter (fun kc => now - CacheEntry.lastAccessed (entry (snd kc))
                                     >? maxAge) (cache st))) as keys.
    intros keys. generalize st as s.
    induction keys as [|k keys IHk]; intros s; cbn [fold_left]; [reflexivity|].
    now rewrite IHk, maxSize_delete.
Qed.

End CacheFacts.

(** ** LRUCache: eviction *)

Section EvictionFacts.
Import LRUCache LRUCacheStates.
Implicit Types (st : t) (m : Js.Map Cached) (k key : string).

Lemma oldest_snoc m (kc : string * Cached) :
  oldest (m ++ [kc]) = oldest_step (oldest m) kc.
Proof. unfold oldest. now rewrite fold_left_app. Qed.

(** The scan of [evictLRU] finds the first entry of least [lastAccessed]. *)
Lemma oldest_first_least m :
  m <> [] ->
  exists before k c after,
    m = before ++ (k, c) :: after
    /\ oldest m = (Some k, Some (CacheEntry.lastAccessed (entry c)))
    /\ (forall x, In x before ->
          CacheEntry.lastAccessed (entry c)
          < CacheEntry.lastAccessed (entry (snd x)))
    /\ (forall x, In x after ->
          CacheEntry.lastAccessed (entry c)
          <= CacheEntry.lastAccessed (entry (snd x))).
Proof.
  induction m as [|[kx cx] m IH] using rev_ind; intros Hne; [congruence|].
  rewrite oldest_snoc.
  destruct m as [|kc0 m0].
  - exists [], kx, cx, []. cbn. repeat split; intros x [].
  - remember (kc0 :: m0) as m eqn:Em.
    destruct IH as (before & k & c & after & Hm & Hold & Hlt & Hle); [congruence|].
    rewrite Hold. cbn [oldest_step snd].
    destruct (Z.ltb_spec (CacheEntry.lastAccessed (entry cx))
                (CacheEntry.lastAccessed (entry c))) as [Hnew | Hkeep].
    + exists m, kx, cx, []. repeat split.
      * intros x Hx. rewrite Hm in Hx. apply in_app_or in Hx.
        destruct Hx as [Hx | [<- | Hx]]; cbn [snd];
          [apply Hlt in Hx | | apply Hle in Hx]; lia.
      * intros x [].
    + exists before, k, c, (after ++ [(kx, cx)]). repeat split.
      * rewrite Hm, <- app_assoc. reflexivity.
      * exact Hlt.
      * intros x Hx. apply in_app_or in Hx.
        destruct Hx as [Hx | [<- | []]]; [now apply Hle | cbn [snd]; lia].
Qed.

Lemma map_get_middle (m1 m2 : Js.Map Cached) k c :
  NoDup (Js.map_keys (m1 ++ (k, c) :: m2)) ->
  Js.map_get k (m1 ++ (k, c) :: m2) = Some c.
Proof.
  induction m1 as [|[k0 c0] m1 IH]; cbn [app Js.map_get Js.map_keys List.map fst].
  - intros _. now rewrite String.eqb_refl.
  - intros Hnd. inversion Hnd as [|? ? Hk Hrest]; subst.
    destruct (String.eqb_spec k k0) as [-> | Hne]; [|now apply IH].
    exfalso. apply Hk. fold (Js.map_keys (m1 ++ (k0, c) :: m2)).
    unfold Js.map_keys. rewrite map_app. apply in_or_app. right. now left.
Qed.

(** One call of [evictLRU] either deletes an entry of the cache or, when
    the cache is empty or the key found is the empty string, does nothing. *)
Lemma evictLRU_cases st :
  NoDup (Js.map_keys (cache st)) ->
  (evictLRU st = st
   /\ (cache st = [] \/ exists k, fst (oldest (cache st)) = Some k /\ Js.truthy k = false))
  \/ (exists k c,
        Js.map_get k (cache st) = Some c
        /\ Js.truthy k = true
        /\ fst (oldest (cache st)) = Some k
        /\ evictLRU st
           = {| cache := Js.map_delete k (cache st);
                maxSize := maxSize st;
                currentSize := currentSize st - CacheEntry.size (entry c);
                unloads := unloads st ++ [unloadModel (model c)] |}).
Proof.
  intros Hnd. unfold evictLRU.
  destruct (cache st) as [|kc0 m0] eqn:Hc.
  - left. cbn. auto.
  - destruct (oldest_first_least (kc0 :: m0)) as (before & k & c & after & Hm & Hold & _);
      [congruence|].
    rewrite Hold. cbn [fst].
    destruct (Js.truthy k) eqn:Ht.
    + right. exists k, c.
      assert (Hg : Js.map_get k (cache st) = Some c).
      { rewrite Hc, Hm. apply map_get_middle. rewrite <- Hm. exact Hnd. }
      rewrite <- Hc. repeat split; try assumption.
      unfold delete. now rewrite Hg.
    + left. split; [reflexivity|]. right. exists k. auto.
Qed.

(** A call of [evictLRU] that changes nothing under pressure is repeated
    for ever. *)
Lemma evict_while_stuck modelSize st :
  pressed modelSize st = true -> evictLRU st = st ->
  forall fuel, evict_while fuel modelSize st = None.
Proof.
  intros Hp Hstuck fuel.
  induction fuel as [|fuel IH]; rewrite evict_while_unfold, Hp; [reflexivity|].
  now rewrite Hstuck.
Qed.

Lemma map_delete_length m k (c : Cached) :
  Js.map_get k m = Some c ->
  List.length m = S (List.length (Js.map_delete k m)).
Proof.
  induction m as [|[k0 c0] m IH]; cbn [Js.map_get Js.map_delete]; [discriminate|].
  destruct (String.eqb k k0); [reflexivity|].
  intros H. cbn [List.length]. now rewrite <- IH.
Qed.

(** With no empty-string key in the cache the eviction loop ends within
    as many rounds as there are entries. *)
Lemma evict_while_terminates modelSize :
  forall fuel st,
    NoDup (Js.map_keys (cache st)) ->
    Forall (fun k => Js.truthy k = true) (Js.map_keys (cache st)) ->
    (List.length (cache st) <= fuel)%nat ->
    exists st1, evict_while fuel modelSize st = Some st1.
Proof.
  induction fuel as [|fuel IH]; intros st Hnd Hkeys Hlen;
    rewrite evict_while_unfold; destruct (pressed modelSize st) eqn:Hp;
    try (eexists; reflexivity).
  - unfold pressed, Js.map_size in Hp. apply andb_true_iff in Hp.
    destruct Hp as [_ Hp]. zbool. lia.
  - destruct (evictLRU_cases st Hnd)
      as [[_ [Hempty | (k & Hk & Hfalsy)]] | (k & c & Hg & _ & _ & Hev)].
    + unfold pressed, Js.map_size in Hp. rewrite Hempty in Hp.
      cbn in Hp. now rewrite andb_false_r in Hp.
    + exfalso.
      destruct (cache st) as [|kc0 m0] eqn:Hc; [discriminate|].
      destruct (oldest_first_least (kc0 :: m0))
        as (before & k' & c & after & Hm & Hold & _); [congruence|].
      rewrite Hold in Hk. cbn [fst] in Hk. injection Hk as ->.
      rewrite Hm in Hkeys. unfold Js.map_keys in Hkeys.
      rewrite map_app in Hkeys. apply Forall_app in Hkeys.
      destruct Hkeys as [_ Hkeys]. cbn [List.map fst] in Hkeys.
      inversion Hkeys as [|? ? Hkt _]; subst. congruence.
    + rewrite Hev. apply IH; cbn [cache].
      * now apply map_delete_NoDup.
      * apply Forall_forall. intros x Hx. apply map_keys_delete_incl in Hx.
        now apply (proj1 (Forall_forall _ _) Hkeys).
      * rewrite (map_delete_length _ _ _ Hg) in Hlen. lia.
Qed.

End EvictionFacts.

(** ** LRUCache.set: capacity *)

Section CapacityFacts.
Import LRUCache LRUCacheStates.
Implicit Types (st : t) (k key : string).

(** After a [set] that resolves on a cache reached with sized models, the
    entry sizes add up to at most the capacity; a [set] of a model larger
    than the capacity that settles rejects and leaves the cache empty. *)
Lemma set_within_capacity capacity st fuel key model now r st' :
  reachable sized capacity st -> sized model ->
  set fuel key model now st = Some (r, st') ->
  (r = Resolved -> sum_sizes st' <= capacity /\ currentSize st' <= capacity)
  /\ (ModelInfo.size (LoadedModel.info model) > capacity ->
      r = Rejected (CapacityExceeded (ModelInfo.size (LoadedModel.info model)) capacity)
      /\ cache st' = []).
Proof.
  intros Hreach Hsized Hset.
  destruct (reachable_accounted _ _ Hreach) as [Hacc Hcap].
  destruct (accounted_set _ _ _ _ _ _ _ Hacc Hsized Hset) as (Hacc' & Hmax & Hle).
  split.
  - intros Hr. specialize (Hle Hr). destruct Hacc' as (_ & Hsum & _). lia.
  - intros Hbig. unfold set in Hset.
    destruct (evict_while fuel _ st) as [st1|] eqn:Hrun; [|discriminate].
    destruct (evict_while_post _ _ _ _ Hacc Hrun) as (Hacc1 & Hmax1 & Hp).
    destruct (_ >? maxSize st1) eqn:Hgt; zbool; [|lia].
    injection Hset as <- <-. split; [now rewrite Hmax1, Hcap|].
    destruct (pressed_false _ _ Hacc1 Hp) as [Hfit | [Hempty _]]; [|exact Hempty].
    destruct Hacc1 as (_ & Hsum & Hpos). apply total_nonneg in Hpos.
    unfold sum_sizes in Hsum. lia.
Qed.

(** With no empty-string key in the cache every [set] settles. *)
Lemma set_settles st key model now :
  NoDup (Js.map_keys (cache st)) ->
  Forall (fun k => Js.truthy k = true) (Js.map_keys (cache st)) ->
  exists r st', set (List.length (cache st)) key model now st = Some (r, st').
Proof.
  intros Hnd Hkeys. unfold set.
  destruct (evict_while_terminates (ModelInfo.size (LoadedModel.info model))
              (List.length (cache st)) st Hnd Hkeys (Nat.le_refl _)) as [st1 ->].
  destruct (_ >? _); eexists; eexists; reflexivity.
Qed.

(** C1, at the failing input: on a cache of 1 MB, a [set] under the
    empty-string key with a model of 5 bytes resolves; the following [set]
    under the key b with a model of 2000000 bytes, larger than the whole
    capacity, never settles: the scan of [evictLRU] finds the empty-string
    key, the test [if (oldestKey)] takes it for no key, and the loop of
    [set] runs for ever instead of rejecting. *)
Theorem set_never_settles_behind_empty_key :
  exists st1,
    set 0 EmptyString (Examples.modelOf "m1" 5) 1000 (new 1) = Some (Resolved, st1)
    /\ Js.map_keys (cache st1) = [EmptyString]
    /\ ModelInfo.size (LoadedModel.info (Examples.modelOf "m2" 2000000)) > maxSize st1
    /\ forall fuel, set fuel "b" (Examples.modelOf "m2" 2000000) 1001 st1 = None.
Proof.
  eexists. split; [reflexivity|]. split; [reflexivity|]. split; [reflexivity|].
  intros fuel. unfold set.
  rewrite evict_while_stuck; reflexivity.
Qed.

(** The last entry a [set] evicted, if any, had to go: with it the
    incoming model would not fit. *)
Lemma maxSize_evictions (n : nat) :
  forall st, maxSize (evictions n st) = maxSize st.
Proof.
  induction n as [|n IH]; intros st; cbn [evictions]; [reflexivity|].
  now rewrite IH, maxSize_evictLRU.
Qed.

(** The eviction loop of a [set] that settles, step by step: it applies
    [evictLRU] as many times as the loop condition holds and no more, each
    application removes one entry and unloads its model, and the entries
    that stay are untouched. *)
Lemma evict_while_steps modelSize :
  forall fuel st st1,
    NoDup (Js.map_keys (cache st)) ->
    evict_while fuel modelSize st = Some st1 ->
    exists (n : nat) (evicted : Js.Map Cached),
      st1 = evictions n st
      /\ List.length evicted = n
      /\ (forall i, (i < n)%nat -> pressed modelSize (evictions i st) = true)
      /\ pressed modelSize st1 = false
      /\ List.length (cache st) = (List.length (cache st1) + n)%nat
      /\ unloads st1
         = unloads st ++ List.map (fun c => unloadModel (model c)) (Js.map_values evicted)
      /\ currentSize st1 = currentSize st - total evicted
      /\ Forall (fun kc => Js.map_get (fst kc) (cache st) = Some (snd kc)
                           /\ Js.map_get (fst kc) (cache st1) = None) evicted
      /\ (forall k c, Js.map_get k (cache st1) = Some c ->
                      Js.map_get k (cache st) = Some c)
      /\ NoDup (Js.map_keys (cache st1))
      /\ (forall k c, Js.map_get k (cache st) = Some c ->
                      In (k, c) evicted \/ Js.map_get k (cache st1) = Some c).
Proof.
  assert (Hstop : forall st,
             NoDup (Js.map_keys (cache st)) -> pressed modelSize st = false ->
             exists (n : nat) (evicted : Js.Map Cached),
               st = evictions n st
               /\ List.length evicted = n
               /\ (forall i, (i < n)%nat -> pressed modelSize (evictions i st) = true)
               /\ pressed modelSize st = false
               /\ List.length (cache st) = (List.length (cache st) + n)%nat
               /\ unloads st
                  = unloads st
                    ++ List.map (fun c => unloadModel (model c)) (Js.map_values evicted)
               /\ currentSize st = currentSize st - total evicted
               /\ Forall (fun kc => Js.map_get (fst kc) (cache st) = Some (snd kc)
                                    /\ Js.map_get (fst kc) (cache st) = None) evicted
               /\ (forall k c, Js.map_get k (cache st) = Some c ->
                               Js.map_get k (cache st) = Some c)
               /\ NoDup (Js.map_keys (cache st))
               /\ (forall k c, Js.map_get k (cache st) = Some c ->
                               In (k, c) evicted \/ Js.map_get k (cache st) = Some c)).
  { intros st Hnd Hp. exists 0%nat, []. cbn [evictions List.length Js.map_values List.map].
    rewrite app_nil_r. unfold total. cbn [Js.map_values List.map fold_right].
    repeat split; auto; try lia. }
  induction fuel as [|fuel IH]; intros st st1 Hnd Hrun;
    rewrite evict_while_unfold in Hrun;
    destruct (pressed modelSize st) eqn:Hp; try discriminate;
    try (injection Hrun as <-; now apply Hstop).
  destruct (evictLRU_cases st Hnd) as [[Hstuck _] | (k & c & Hg & _ & _ & Hev)].
  { rewrite Hstuck, (evict_while_stuck _ _ Hp Hstuck) in Hrun. discriminate. }
  assert (Hnd' : NoDup (Js.map_keys (cache (evictLRU st)))).
  { rewrite Hev. cbn [cache]. now apply map_delete_NoDup. }
  destruct (IH _ _ Hnd' Hrun)
    as (n & evicted & Hst1 & Hlen & Hpress & Hdone & Hcount & Hun & Hsize
        & Hgone & Hkept & Hnd1 & Hall).
  assert (Hback : forall k' c', Js.map_get k' (cache (evictLRU st)) = Some c' ->
                                k' <> k /\ Js.map_get k' (cache st) = Some c').
  { intros k' c'. rewrite Hev. cbn [cache]. intros Hget.
    destruct (String.eqb_spec k' k) as [-> | Hne].
    - rewrite (map_get_delete_same _ _ Hnd) in Hget. discriminate.
    - split; [exact Hne|]. now rewrite map_get_delete_other in Hget. }
  exists (S n), ((k, c) :: evicted). cbn [evictions List.length].
  split; [exact Hst1|]. split; [now rewrite Hlen|].
  split; [|split; [exact Hdone|]].
  { intros [|i] Hi; cbn [evictions]; [exact Hp | apply Hpress; lia]. }
  split.
  { rewrite Hev in Hcount. cbn [cache] in Hcount.
    rewrite (map_delete_length _ _ _ Hg). lia. }
  split.
  { rewrite Hun, Hev. cbn [unloads Js.map_values List.map snd].
    now rewrite <- app_assoc. }
  split.
  { rewrite Hsize, Hev. cbn [currentSize]. unfold total.
    cbn [Js.map_values List.map snd fold_right]. fold (Js.map_values evicted). lia. }
  split; [|split; [|split; [exact Hnd1|]]].
  - constructor.
    + cbn [fst snd]. split; [exact Hg|].
      destruct (Js.map_get k (cache st1)) as [c'|] eqn:Hk; [|reflexivity].
      apply Hkept, Hback in Hk. now destruct Hk.
    + eapply Forall_impl; [|exact Hgone]. cbn beta. intros [k' c'] [Hin Hout].
      cbn [fst snd] in *. split; [|exact Hout]. now apply Hback in Hin.
  - intros k' c' Hget. now apply Hkept, Hback in Hget.
  - intros k' c' Hget. destruct (String.eqb_spec k' k) as [-> | Hne].
    + left. left. congruence.
    + destruct (Hall k' c') as [Hin | Hstay]; [| left; now right | now right].
      rewrite Hev. cbn [cache]. now rewrite map_get_delete_other.
Qed.

(** C2, as stated, fails: on a cache of 1 MB that holds one entry of 5
    bytes, a [set] of a model of 2000000 bytes, which no eviction can make
    fit, first evicts that entry and unloads its model and only then
    rejects. *)
Lemma oversized_set_evicts_everything :
  exists st1 st2,
    set 1 "a" (Examples.modelOf "m1" 5) 1000 (new 1) = Some (Resolved, st1)
    /\ Js.map_keys (cache st1) = ["a"]
    /\ set 1 "b" (Examples.modelOf "m2" 2000000) 1001 st1
       = Some (Rejected (CapacityExceeded 2000000 1048576), st2)
    /\ cache st2 = []
    /\ unloads st2 = [unloadModel (Examples.modelOf "m1" 5)].
Proof.
  eexists. eexists. repeat split; reflexivity.
Qed.

(** C2, amended: a [set] that settles on a cache reached with sized models
    leaves [currentSize] non-negative, after its eviction loop and at its
    end.  Its loop is [n] applications of [evictLRU], where [n] is the
    least number after which the loop condition fails: before each of them
    [currentSize] plus the size of the incoming model exceeded the
    capacity while the cache was not empty, and after the last the model
    fits beside what is cached or the cache is empty.  Each application
    removes one entry and unloads its model once, in that order; the
    entries that stay are untouched.  The loop condition takes
    [currentSize] as it is, without discounting an entry stored under the
    key being set, so that a [set] of a cached key under pressure evicts
    at least one entry.  A [set] of a model larger than the capacity
    evicts every entry and rejects; any other [set] resolves, unloads in
    addition the model found under its key after the loop, and stores the
    new entry. *)
Theorem set_evicts_only_under_pressure capacity st fuel key model now r st' :
  reachable sized capacity st -> sized model ->
  set fuel key model now st = Some (r, st') ->
  let modelSize := ModelInfo.size (LoadedModel.info model) in
  0 <= currentSize st'
  /\ exists (n : nat) (evicted : Js.Map Cached),
       let st1 := evictions n st in
       evict_while fuel modelSize st = Some st1
       /\ 0 <= currentSize st1
       /\ List.length evicted = n
       /\ List.length (cache st) = (List.length (cache st1) + n)%nat
       /\ (forall i, (i < n)%nat ->
                     capacity < currentSize (evictions i st) + modelSize
                     /\ cache (evictions i st) <> [])
       /\ (currentSize st1 + modelSize <= capacity \/ cache st1 = [])
       /\ Forall (fun kc => Js.map_get (fst kc) (cache st) = Some (snd kc)
                            /\ Js.map_get (fst kc) (cache st1) = None) evicted
       /\ (forall k c, Js.map_get k (cache st1) = Some c ->
                       Js.map_get k (cache st) = Some c)
       /\ unloads st1
          = unloads st
            ++ List.map (fun c => unloadModel (LRUCache.model c)) (Js.map_values evicted)
       /\ currentSize st1 = currentSize st - total evicted
       /\ (forall old, Js.map_get key (cache st) = Some old ->
                       capacity < currentSize st + modelSize -> (1 <= n)%nat)
       /\ (modelSize > capacity ->
           r = Rejected (CapacityExceeded modelSize capacity)
           /\ st' = st1 /\ cache st1 = [] /\ n = List.length (cache st))
       /\ (modelSize <= capacity ->
           r = Resolved
           /\ unloads st'
              = unloads st1
                ++ match Js.map_get key (cache st1) with
                   | Some old => [unloadModel (LRUCache.model old)]
                   | None => []
                   end
           /\ cache st'
              = Js.map_set key
                  (mkCached model
                     (CacheEntry.mk key (LoadedModel.id model) modelSize now 1))
                  (cache st1)).
Proof.
  intros Hreach Hsized Hset modelSize.
  destruct (reachable_accounted _ _ Hreach) as [Hacc Hcap].
  destruct (accounted_set _ _ _ _ _ _ _ Hacc Hsized Hset) as (Hacc' & _ & _).
  split.
  { destruct Hacc' as (_ & Hsum & Hpos). apply total_nonneg in Hpos.
    unfold sum_sizes in Hsum. lia. }
  unfold set in Hset. fold modelSize in Hset.
  destruct (evict_while fuel modelSize st) as [st1|] eqn:Hrun; [|discriminate].
  destruct (evict_while_post _ _ _ _ Hacc Hrun) as (Hacc1 & Hmax1 & _).
  destruct (evict_while_steps _ _ _ _ (proj1 Hacc) Hrun)
    as (n & evicted & Hst1 & Hlen & Hpress & Hdone & Hcount & Hun & Hsize
        & Hgone & Hkept & _).
  exists n, evicted. cbn zeta. rewrite <- Hst1.
  assert (Hstop : currentSize st1 + modelSize <= capacity \/ cache st1 = []).
  { unfold pressed in Hdone. apply andb_false_iff in Hdone.
    destruct Hdone as [Hfit | Hempty]; zbool.
    - left. lia.
    - right. unfold Js.map_size in Hempty.
      destruct (cache st1); [reflexivity | cbn [List.length] in Hempty; lia]. }
  split; [reflexivity|]. split.
  { destruct Hacc1 as (_ & Hsum & Hpos). apply total_nonneg in Hpos.
    unfold sum_sizes in Hsum. lia. }
  split; [exact Hlen|]. split; [exact Hcount|]. split.
  { intros i Hi. specialize (Hpress i Hi). unfold pressed in Hpress.
    apply andb_true_iff in Hpress. destruct Hpress as [Hover Hsome].
    rewrite maxSize_evictions, Hcap in Hover. zbool. split; [lia|].
    intros Hnil. rewrite Hnil in Hsome. cbn in Hsome. lia. }
  split; [exact Hstop|]. split; [exact Hgone|]. split; [exact Hkept|].
  split; [exact Hun|]. split; [exact Hsize|]. split.
  { intros old Hold Hover. destruct n as [|n]; [|lia].
    cbn [evictions] in Hst1. subst st1.
    destruct Hstop as [Hfit | Hnil]; [lia|].
    rewrite Hnil in Hold. discriminate. }
  split.
  - intros Hgt.
    destruct (modelSize >? maxSize st1) eqn:Hcmp; zbool; [|lia].
    injection Hset as <- <-. rewrite Hmax1, Hcap.
    destruct Hstop as [Hfit | Hnil].
    + destruct Hacc1 as (_ & Hsum & Hpos). apply total_nonneg in Hpos.
      unfold sum_sizes in Hsum. lia.
    + repeat split; [exact Hnil|]. rewrite Hnil in Hcount. cbn [List.length] in Hcount. lia.
  - intros Hle.
    destruct (modelSize >? maxSize st1) eqn:Hcmp; zbool; [lia|].
    injection Hset as <- <-. cbn [unloads cache].
    destruct (Js.map_get key (cache st1)) as [old|]; cbn [unloads cache];
      [|rewrite app_nil_r]; auto.
Qed.

Lemma set_evicts_only_under_pressure_witness :
  let st1 := {| cache := [("a", mkCached (Examples.modelOf "m1" 600000)
                                 (CacheEntry.mk "a" "m1" 600000 1000 1))];
                maxSize := 1048576; currentSize := 600000; unloads := [] |} in
  let incoming := Examples.modelOf "m2" 600000 in
  reachable sized 1048576 st1
  /\ sized incoming
  /\ exists st2,
       set 1 "a" incoming 1001 st1 = Some (Resolved, st2)
       /\ 0 <= currentSize st2
       /\ exists (n : nat) (evicted : Js.Map Cached),
            evict_while 1 600000 st1 = Some (evictions n st1)
            /\ (1 <= n)%nat
            /\ List.length evicted = n
            /\ unloads (evictions n st1)
               = unloads st1
                 ++ List.map (fun c => unloadModel (LRUCache.model c))
                      (Js.map_values evicted).
Proof.
  intros st1 incoming.
  assert (Hreach : reachable sized 1048576 st1).
  { apply (reach_set sized 1048576 0 "a" (Examples.modelOf "m1" 600000) 1000
             (empty 1048576) Resolved st1).
    - apply reach_new.
    - unfold sized. cbn. lia.
    - reflexivity. }
  assert (Hsized : sized incoming) by (unfold sized; cbn; lia).
  split; [exact Hreach|]. split; [exact Hsized|].
  eexists. split; [reflexivity|].
  destruct (set_evicts_only_under_pressure 1048576 st1 1 "a" incoming 1001
              Resolved _ Hreach Hsized eq_refl)
    as (Hnonneg & n & evicted & Hrun & _ & Hlen & _ & _ & _ & _ & _ & Hun & _
        & Hnodiscount & _).
  split; [exact Hnonneg|].
  exists n, evicted. split; [exact Hrun|]. split; [|split; [exact Hlen | exact Hun]].
  apply (Hnodiscount (mkCached (Examples.modelOf "m1" 600000)
                        (CacheEntry.mk "a" "m1" 600000 1000 1))).
  - reflexivity.
  - cbn. lia.
Defined.

End CapacityFacts.

(** ** LRUCache.getStats *)

Section StatsFacts.
Import LRUCache LRUCacheStates.
Implicit Types (st : t) (k key : string).

Lemma counted_delete key st : counted st -> counted (delete key st).
Proof.
  intros Hc. unfold delete.
  destruct (Js.map_get key (cache st)); [|exact Hc].
  unfold counted. cbn [cache]. now apply map_values_delete_Forall.
Qed.

Lemma counted_evictLRU st : counted st -> counted (evictLRU st).
Proof.
  intros Hc. unfold evictLRU.
  destruct (fst (oldest (cache st))) as [k|]; [|exact Hc].
  destruct (Js.truthy k); [now apply counted_delete | exact Hc].
Qed.

Lemma counted_evict_while modelSize :
  forall fuel st st1,
    counted st -> evict_while fuel modelSize st = Some st1 -> counted st1.
Proof.
  induction fuel as [|fuel IH]; intros st st1 Hc Hrun;
    rewrite evict_while_unfold in Hrun;
    destruct (pressed modelSize st); try discriminate;
    try (now injection Hrun as <-).
  apply (IH _ _ (counted_evictLRU _ Hc) Hrun).
Qed.

Lemma counted_fold_delete (keys : list string) :
  forall st, counted st -> counted (fold_left (fun s k => delete k s) keys st).
Proof.
  induction keys as [|k keys IH]; intros st Hc; cbn [fold_left]; [exact Hc|].
  apply IH. now apply counted_delete.
Qed.

(** Every entry of a reachable cache has been hit at least once. *)
Lemma reachable_counted capacity st : reachable anyModel capacity st -> counted st.
Proof.
  induction 1 as [| key now st _ IH | fuel key model now st r st' _ IH _ Hset
                  | key st _ IH | st _ IH | maxAge now st _ IH].
  - constructor.
  - unfold get. destruct (Js.map_get key (cache st)) as [c|] eqn:Hg; [|exact IH].
    cbn [snd]. unfold counted. cbn [cache].
    apply map_values_set_Forall; [|now apply map_values_delete_Forall].
    apply map_get_In in Hg.
    apply (proj1 (Forall_forall _ _) IH) in Hg.
    cbn [touch entry CacheEntry.hitCount]. lia.
  - unfold set in Hset.
    destruct (evict_while fuel _ st) as [st1|] eqn:Hrun; [|discriminate].
    apply (counted_evict_while _ _ _ _ IH) in Hrun.
    destruct (_ >? _); injection Hset as _ <-; [exact Hrun|].
    unfold counted. cbn [cache].
    apply map_values_set_Forall; [cbn; lia|].
    now destruct (Js.map_get key (cache st1)).
  - now apply counted_delete.
  - constructor.
  - unfold prune. cbn [snd]. now apply counted_fold_delete.
Qed.

Lemma totalHits_fold (l : list Cached) (acc : Z) :
  fold_left (fun sum cached => sum + CacheEntry.hitCount (entry cached)) l acc
  = acc + fold_left (fun sum cached => sum + CacheEntry.hitCount (entry cached)) l 0.
Proof.
  revert acc. induction l as [|c l IH]; intros acc; cbn [fold_left]; [lia|].
  rewrite IH, (IH (0 + _)). lia.
Qed.

Lemma totalHits_counted st :
  counted st ->
  (cache st = [] -> totalHits st = 0) /\ (cache st <> [] -> 0 < totalHits st).
Proof.
  unfold counted, totalHits. intros Hc.
  destruct (cache st) as [|[k c] m]; split; try congruence; intros _.
  - reflexivity.
  - cbn [Js.map_values List.map snd fold_left] in *.
    inversion Hc as [|? ? Hhit Hrest]; subst.
    rewrite totalHits_fold.
    assert (0 <= fold_left
                   (fun sum cached => sum + CacheEntry.hitCount (entry cached))
                   (List.map snd m) 0).
    { clear - Hrest. induction Hrest as [|c' l Hc' _ IH]; cbn [fold_left]; [lia|].
      rewrite totalHits_fold. lia. }
    lia.
Qed.

(** C9: [getStats] reports a hit rate of 1 whenever the accumulated hit
    count is positive and of 0 when it is zero; in every reachable state
    the hit count of each entry is at least the 1 that [set] starts it
    with, so the hit rate is 1 for a non-empty cache and 0 for an empty
    one, whatever calls of [get] were made. *)
Theorem hitRate_degenerate capacity st :
  reachable anyModel capacity st ->
  (0 < totalHits st -> (hitRate (getStats st) == 1)%Q)
  /\ (totalHits st = 0 -> hitRate (getStats st) = 0%Q)
  /\ (cache st <> [] -> 0 < totalHits st /\ (hitRate (getStats st) == 1)%Q)
  /\ (cache st = [] -> totalHits st = 0 /\ hitRate (getStats st) = 0%Q).
Proof.
  intros Hreach.
  assert (Hpos : 0 < totalHits st -> (hitRate (getStats st) == 1)%Q).
  { intros Hhits. unfold getStats. cbn [hitRate].
    destruct (Z.gtb_spec (totalHits st) 0) as [_ | Hle]; [|lia].
    apply Qmult_inv_r. unfold Qeq. cbn. lia. }
  assert (Hzero : totalHits st = 0 -> hitRate (getStats st) = 0%Q).
  { intros Hhits. unfold getStats. cbn [hitRate]. now rewrite Hhits. }
  destruct (totalHits_counted st (reachable_counted _ _ Hreach)) as [Hempty Hfull].
  split; [exact Hpos|]. split; [exact Hzero|]. split.
  - intros Hne. split; [now apply Hfull | now apply Hpos, Hfull].
  - intros He. split; [now apply Hempty | now apply Hzero, Hempty].
Qed.

Lemma hitRate_degenerate_witness :
  let st1 := {| cache := [("a", mkCached (Examples.modelOf "m1" 5)
                                 (CacheEntry.mk "a" "m1" 5 1000 1))];
                maxSize := 1048576; currentSize := 5; unloads := [] |} in
  reachable anyModel 1048576 st1
  /\ cache st1 <> []
  /\ 0 < totalHits st1
  /\ (hitRate (getStats st1) == 1)%Q
  /\ totalHits (empty 1048576) = 0
  /\ hitRate (getStats (empty 1048576)) = 0%Q.
Proof.
  intros st1.
  assert (Hreach : reachable anyModel 1048576 st1).
  { apply (reach_set anyModel 1048576 0 "a" (Examples.modelOf "m1" 5) 1000
             (empty 1048576) Resolved st1).
    - apply reach_new.
    - exact I.
    - reflexivity. }
  assert (Hne : cache st1 <> []) by discriminate.
  assert (Hhits : 0 < totalHits st1) by reflexivity.
  assert (Hnone : totalHits (empty 1048576) = 0) by reflexivity.
  split; [exact Hreach|]. split; [exact Hne|]. split; [exact Hhits|].
  split; [|split; [exact Hnone|]].
  - assert (Hsame := proj2 (proj1 (proj2 (proj2 (hitRate_degenerate 1048576 st1 Hreach)))
                              Hne)).
    exact (proj1 (hitRate_degenerate 1048576 st1 Hreach) Hhits).
  - assert (Hsame := proj2 (proj2 (proj2 (proj2 (hitRate_degenerate 1048576
                                                   (empty 1048576)
                                                   (reach_new anyModel 1048576))))
                              eq_refl)).
    exact (proj1 (proj2 (hitRate_degenerate 1048576 (empty 1048576)
                           (reach_new anyModel 1048576))) Hnone).
Defined.

End StatsFacts.

(** ** LRUCache: eviction order *)

Section OrderFacts.
Import LRUCache LRUCacheStates.
Implicit Types (st : t) (k key : string).

Lemma set_step fuel key model now st :
  pressed (ModelInfo.size (LoadedModel.info model)) st = true ->
  set (S fuel) key model now st = set fuel key model now (evictLRU st).
Proof.
  intros Hp. unfold set. rewrite (evict_while_unfold (S fuel)), Hp. reflexivity.
Qed.

Lemma set_out_of_fuel key model now st :
  pressed (ModelInfo.size (LoadedModel.info model)) st = true ->
  set 0 key model now st = None.
Proof. intros Hp. unfold set. now rewrite evict_while_unfold, Hp. Qed.

Lemma set_stuck fuel key model now st :
  pressed (ModelInfo.size (LoadedModel.info model)) st = true ->
  evictLRU st = st ->
  set fuel key model now st = None.
Proof. intros Hp Hstuck. unfold set. now rewrite evict_while_stuck. Qed.

Lemma set_relaxed fuel key model now st :
  pressed (ModelInfo.size (LoadedModel.info model)) st = false ->
  set fuel key model now st = set 0 key model now st.
Proof. intros Hp. unfold set. now rewrite !evict_while_unfold, Hp. Qed.

Lemma unloads_evictLRU st :
  (List.length (unloads st) <= List.length (unloads (evictLRU st)))%nat.
Proof.
  unfold evictLRU. destruct (fst (oldest (cache st))) as [k|]; [|lia].
  destruct (Js.truthy k); [|lia]. unfold delete.
  destruct (Js.map_get k (cache st)); [|lia].
  cbn [unloads]. rewrite length_app. lia.
Qed.

Lemma unloads_set :
  forall fuel key model now st r st',
    set fuel key model now st = Some (r, st') ->
    (List.length (unloads st) <= List.length (unloads st'))%nat.
Proof.
  induction fuel as [|fuel IH]; intros key model now st r st' Hset;
    destruct (pressed (ModelInfo.size (LoadedModel.info model)) st) eqn:Hp.
  - now rewrite set_out_of_fuel in Hset.
  - unfold set in Hset. rewrite evict_while_unfold, Hp in Hset.
    destruct (_ >? _); injection Hset as _ <-; [lia|].
    destruct (Js.map_get key (cache st)); cbn [unloads]; [|lia].
    rewrite length_app. lia.
  - rewrite set_step in Hset by exact Hp. apply IH in Hset.
    pose proof (unloads_evictLRU st). lia.
  - rewrite set_relaxed in Hset by exact Hp.
    unfold set in Hset. rewrite evict_while_unfold, Hp in Hset.
    destruct (_ >? _); injection Hset as _ <-; [lia|].
    destruct (Js.map_get key (cache st)); cbn [unloads]; [|lia].
    rewrite length_app. lia.
Qed.

Lemma set_fresh_fits fuel key model now st :
  currentSize st + ModelInfo.size (LoadedModel.info model) <= maxSize st ->
  ModelInfo.size (LoadedModel.info model) <= maxSize st ->
  Js.map_get key (cache st) = None ->
  set fuel key model now st
  = Some (Resolved,
          {| cache := cache st ++ [entryOf key model now 1];
             maxSize := maxSize st;
             currentSize := currentSize st + ModelInfo.size (LoadedModel.info model);
             unloads := unloads st |}).
Proof.
  intros Hfits Hsmall Hfresh. unfold set.
  rewrite evict_while_unfold.
  assert (Hp : pressed (ModelInfo.size (LoadedModel.info model)) st = false).
  { unfold pressed. apply andb_false_iff. left.
    rewrite Z.gtb_ltb. apply Z.ltb_ge. lia. }
  rewrite Hp.
  destruct (Z.gtb_spec (ModelInfo.size (LoadedModel.info model)) (maxSize st));
    [lia|].
  rewrite Hfresh. rewrite map_set_fresh by now apply map_get_None.
  reflexivity.
Qed.

Section Scenario.
Variables (capacity : Z) (kA kB kC : string) (mA mB mC : LoadedModel.t).
Variables (tA tB tC tG : Z).

Let sA := ModelInfo.size (LoadedModel.info mA).
Let sB := ModelInfo.size (LoadedModel.info mB).
Let sC := ModelInfo.size (LoadedModel.info mC).

Hypothesis HsA : sized mA.
Hypothesis HsB : sized mB.
Hypothesis HsC : sized mC.
Hypothesis Hfit : sA + sB + sC <= capacity.
Hypothesis HAB : kA <> kB.
Hypothesis HAC : kA <> kC.
Hypothesis HBC : kB <> kC.
Hypothesis HtBC : tB <= tC.
Hypothesis HtCG : tC <= tG.

Lemma scenario_prefix (f1 f2 f3 : nat) :
  exists s1 s2 s3,
    set f1 kA mA tA (empty capacity) = Some (Resolved, s1)
    /\ set f2 kB mB tB s1 = Some (Resolved, s2)
    /\ set f3 kC mC tC s2 = Some (Resolved, s3)
    /\ get kA tG s3 = (Some mA, afterGet capacity kA kB kC mA mB mC tB tC tG).
Proof.
  unfold sized in *. fold sA sB sC in HsA, HsB, HsC.
  assert (EBA : String.eqb kB kA = false) by (apply String.eqb_neq; congruence).
  assert (ECA : String.eqb kC kA = false) by (apply String.eqb_neq; congruence).
  assert (ECB : String.eqb kC kB = false) by (apply String.eqb_neq; congruence).
  assert (EAB : String.eqb kA kB = false) by now apply String.eqb_neq.
  assert (EAC : String.eqb kA kC = false) by now apply String.eqb_neq.
  eexists. eexists. eexists.
  split; [|split; [|split]].
  - apply set_fresh_fits; cbn; fold sA; lia || reflexivity.
  - apply set_fresh_fits; cbn [cache currentSize maxSize empty app Js.map_get entryOf];
      fold sA sB; [lia | lia | now rewrite EBA].
  - apply set_fresh_fits; cbn [cache currentSize maxSize empty app Js.map_get entryOf];
      fold sA sB sC; [lia | lia | now rewrite ECA, ECB].
  - unfold get, afterGet, entryOf, touch.
    cbn [cache currentSize maxSize unloads empty app Js.map_get].
    rewrite String.eqb_refl.
    cbn [Js.map_delete]. rewrite String.eqb_refl.
    cbn [Js.map_set]. rewrite EAB, EAC.
    reflexivity.
Qed.

Lemma evictLRU_afterGet :
  Js.truthy kB = true ->
  evictLRU (afterGet capacity kA kB kC mA mB mC tB tC tG)
  = {| cache := [entryOf kC mC tC 1; entryOf kA mA tG 2];
       maxSize := capacity;
       currentSize := 0 + sA + sB + sC - sB;
       unloads := [unloadModel mB] |}.
Proof.
  intros HtB. unfold evictLRU, afterGet, oldest, entryOf.
  cbn [cache fold_left oldest_step snd fst entry CacheEntry.lastAccessed].
  destruct (Z.ltb_spec tC tB); [lia|].
  cbn [snd]. destruct (Z.ltb_spec tG tB); [lia|].
  cbn [fst]. rewrite HtB. unfold delete.
  cbn [cache Js.map_get]. rewrite String.eqb_refl.
  cbn [Js.map_delete]. rewrite String.eqb_refl. reflexivity.
Qed.

End Scenario.

(** C3: after A, B and C were stored in that order and A was read back,
    which stamps A with the time of the read and moves it behind B and C,
    a [set] of a new entry D that must evict, and for which evicting B
    suffices, evicts B and keeps A and C; and whenever that [set] settles
    having unloaded exactly one model, the model is B's, B has left the
    cache and A and C are still cached. *)
Theorem lru_evicts_least_recently_used
    (capacity : Z) (kA kB kC kD : string) (mA mB mC mD : LoadedModel.t)
    (tA tB tC tG tD : Z) (f1 f2 f3 : nat) :
  let sA := ModelInfo.size (LoadedModel.info mA) in
  let sB := ModelInfo.size (LoadedModel.info mB) in
  let sC := ModelInfo.size (LoadedModel.info mC) in
  let sD := ModelInfo.size (LoadedModel.info mD) in
  sized mA -> sized mB -> sized mC -> sized mD ->
  sA + sB + sC <= capacity ->
  kA <> kB -> kA <> kC -> kB <> kC ->
  kD <> kA -> kD <> kB -> kD <> kC ->
  tB <= tC -> tC <= tG ->
  let s4 := afterGet capacity kA kB kC mA mB mC tB tC tG in
  exists s1 s2 s3,
    set f1 kA mA tA (empty capacity) = Some (Resolved, s1)
    /\ set f2 kB mB tB s1 = Some (Resolved, s2)
    /\ set f3 kC mC tC s2 = Some (Resolved, s3)
    /\ get kA tG s3 = (Some mA, s4)
    /\ Js.map_keys (cache s4) = [kB; kC; kA]
    /\ (Js.truthy kB = true ->
        sA + sB + sC + sD > capacity -> sA + sC + sD <= capacity ->
        forall fuel, exists s5,
          set (S fuel) kD mD tD s4 = Some (Resolved, s5)
          /\ unloads s5 = [unloadModel mB]
          /\ Js.map_keys (cache s5) = [kC; kA; kD])
    /\ (forall fuel r s5,
          set fuel kD mD tD s4 = Some (r, s5) ->
          List.length (unloads s5) = 1%nat ->
          unloads s5 = [unloadModel mB]
          /\ Js.map_has kB (cache s5) = false
          /\ Js.map_has kA (cache s5) = true
          /\ Js.map_has kC (cache s5) = true).
Proof.
  intros sA sB sC sD HsA HsB HsC HsD Hfit HAB HAC HBC HDA HDB HDC HtBC HtCG.
  destruct (scenario_prefix capacity kA kB kC mA mB mC tA tB tC tG
              HsA HsB HsC Hfit HAB HAC HBC f1 f2 f3)
    as (s1 & s2 & s3 & H1 & H2 & H3 & H4).
  exists s1, s2, s3.
  repeat (split; [assumption|]). split; [reflexivity|].
  unfold sized in *. fold sA sB sC sD in HsA, HsB, HsC, HsD.
  assert (EDA : String.eqb kD kA = false) by now apply String.eqb_neq.
  assert (EDB : String.eqb kD kB = false) by now apply String.eqb_neq.
  assert (EDC : String.eqb kD kC = false) by now apply String.eqb_neq.
  assert (EBA : String.eqb kB kA = false) by (apply String.eqb_neq; congruence).
  assert (EBC : String.eqb kB kC = false) by now apply String.eqb_neq.
  assert (EBD : String.eqb kB kD = false) by (apply String.eqb_neq; congruence).
  assert (EAC : String.eqb kA kC = false) by now apply String.eqb_neq.
  assert (EAD : String.eqb kA kD = false) by (apply String.eqb_neq; congruence).
  assert (ECA : String.eqb kC kA = false) by (apply String.eqb_neq; congruence).
  assert (ECD : String.eqb kC kD = false) by (apply String.eqb_neq; congruence).
  set (s4 := afterGet capacity kA kB kC mA mB mC tB tC tG).
  set (s4' := {| cache := [entryOf kC mC tC 1; entryOf kA mA tG 2];
                 maxSize := capacity;
                 currentSize := 0 + sA + sB + sC - sB;
                 unloads := [unloadModel mB] |}).
  assert (Hev : Js.truthy kB = true -> evictLRU s4 = s4')
    by (intros HtB; now apply evictLRU_afterGet).
  assert (Hfresh' : Js.map_get kD (cache s4') = None).
  { unfold s4', entryOf. cbn [cache Js.map_get]. now rewrite EDC, EDA. }
  assert (Hpress : sA + sB + sC + sD > capacity -> pressed sD s4 = true).
  { intros Hover. unfold pressed, s4, afterGet.
    cbn [cache currentSize maxSize Js.map_size List.length].
    fold sA sB sC. apply andb_true_iff. split; [|reflexivity].
    rewrite Z.gtb_ltb. apply Z.ltb_lt. lia. }
  split.
  - intros HtB Hover Hone fuel.
    rewrite set_step by (apply Hpress; exact Hover).
    rewrite (Hev HtB).
    rewrite set_fresh_fits;
      [| cbn [currentSize maxSize s4']; fold sD; lia
       | cbn [maxSize s4']; fold sD; lia
       | exact Hfresh'].
    eexists. split; [reflexivity|]. split; reflexivity.
  - intros fuel r s5 Hset Hlen.
    destruct (pressed sD s4) eqn:Hp.
    + destruct fuel as [|fuel]; [now rewrite set_out_of_fuel in Hset|].
      rewrite set_step in Hset by exact Hp.
      destruct (Js.truthy kB) eqn:HtB.
      * rewrite (Hev eq_refl) in Hset.
        destruct (pressed sD s4') eqn:Hp'.
        -- exfalso.
           destruct fuel as [|fuel]; [now rewrite set_out_of_fuel in Hset|].
           rewrite set_step in Hset by exact Hp'.
           assert (Hev' : evictLRU s4' = s4'
                          \/ List.length (unloads (evictLRU s4')) = 2%nat).
           { unfold evictLRU, s4', oldest, entryOf.
             cbn [cache fold_left oldest_step snd fst entry CacheEntry.lastAccessed].
             destruct (Z.ltb_spec tG tC); [lia|]. cbn [fst].
             destruct (Js.truthy kC); [right | now left].
             unfold delete. cbn [cache Js.map_get]. now rewrite String.eqb_refl. }
           destruct Hev' as [Hstuck | Htwo].
           ++ rewrite Hstuck in Hset.
              now rewrite (set_stuck _ _ _ _ _ Hp' Hstuck) in Hset.
           ++ apply unloads_set in Hset. lia.
        -- rewrite set_relaxed in Hset by exact Hp'.
           unfold set in Hset. fold sD in Hset.
           rewrite evict_while_unfold, Hp' in Hset.
           destruct (_ >? _).
           ++ injection Hset as _ <-. unfold s4', entryOf, Js.map_has.
              cbn [unloads cache Js.map_get].
              rewrite EBC, EBA, EAC, !String.eqb_refl. auto.
           ++ rewrite Hfresh' in Hset. injection Hset as _ <-.
              unfold s4', entryOf, Js.map_has.
              cbn [unloads cache Js.map_get Js.map_set].
              rewrite EDC, EDA. cbn [Js.map_get].
              rewrite EBC, EBA, EBD, EAC, !String.eqb_refl. auto.
      * assert (Hstuck : evictLRU s4 = s4).
        { unfold evictLRU, s4, afterGet, oldest, entryOf.
          cbn [cache fold_left oldest_step snd fst entry CacheEntry.lastAccessed].
          destruct (Z.ltb_spec tC tB); [lia|]. cbn [snd].
          destruct (Z.ltb_spec tG tB); [lia|]. cbn [fst]. now rewrite HtB. }
        rewrite Hstuck in Hset.
        now rewrite (set_stuck _ _ _ _ _ Hp Hstuck) in Hset.
    + exfalso. rewrite set_relaxed in Hset by exact Hp.
      unfold set in Hset. fold sD in Hset.
      rewrite evict_while_unfold, Hp in Hset.
      destruct (_ >? _).
      * injection Hset as _ <-. discriminate.
      * assert (Hfresh : Js.map_get kD (cache s4) = None).
        { unfold s4, afterGet, entryOf. cbn [cache Js.map_get].
          now rewrite EDB, EDC, EDA. }
        rewrite Hfresh in Hset. injection Hset as _ <-. discriminate.
Qed.

Lemma lru_evicts_least_recently_used_witness :
  let mA := Examples.modelOf "mA" 3 in
  let mB := Examples.modelOf "mB" 3 in
  let mC := Examples.modelOf "mC" 3 in
  let mD := Examples.modelOf "mD" 4 in
  let s4 := afterGet 10 "a" "b" "c" mA mB mC 2 3 4 in
  exists s1 s2 s3,
    set 0 "a" mA 1 (empty 10) = Some (Resolved, s1)
    /\ set 0 "b" mB 2 s1 = Some (Resolved, s2)
    /\ set 0 "c" mC 3 s2 = Some (Resolved, s3)
    /\ get "a" 4 s3 = (Some mA, s4)
    /\ exists s5,
         set 1 "d" mD 5 s4 = Some (Resolved, s5)
         /\ unloads s5 = [unloadModel mB]
         /\ Js.map_keys (cache s5) = ["c"; "a"; "d"]
         /\ Js.map_has "b" (cache s5) = false
         /\ Js.map_has "a" (cache s5) = true
         /\ Js.map_has "c" (cache s5) = true.
Proof.
  intros mA mB mC mD s4.
  destruct (lru_evicts_least_recently_used 10 "a" "b" "c" "d" mA mB mC mD
              1 2 3 4 5 0 0 0)
    as (s1 & s2 & s3 & H1 & H2 & H3 & H4 & _ & Hevict & Honly);
    try (unfold sized; cbn; lia); try discriminate; try lia.
  exists s1, s2, s3.
  repeat (split; [assumption|]).
  destruct (Hevict eq_refl ltac:(cbn; lia) ltac:(cbn; lia) 0%nat)
    as (s5 & Hset & Hun & Hkeys).
  exists s5. repeat (split; [assumption|]).
  apply (Honly 1%nat Resolved s5 Hset). now rewrite Hun.
Defined.

End OrderFacts.

(** ** streamWithTimeout *)

Section TimeoutFacts.
Import StreamWithTimeout.
Context {T : Type}.

Lemma loop_yielding (timeoutMs : Z) (tie : bool) (items : list (Z * T)) :
  forall (steps : list (Step T)) (now : Z) (out : list (Z * T)),
    Forall (fun item => fst item < timeoutMs) items ->
    loop timeoutMs tie (yielding items ++ steps) now out
    = loop timeoutMs tie steps (now + elapsed items) (out ++ arrivals now items).
Proof.
  induction items as [|[d value] items IH]; intros steps now out Hfast.
  - cbn [yielding List.map app elapsed fold_right arrivals].
    now rewrite Z.add_0_r, app_nil_r.
  - inversion Hfast as [|? ? Hd Hrest]; subst. cbn [fst] in Hd.
    cbn [yielding List.map app loop duration settles fst snd timerFirst].
    destruct (Z.eqb_spec d timeoutMs) as [Heq | _]; [lia|].
    destruct (Z.ltb_spec timeoutMs d) as [Hlt | _]; [lia|].
    fold (yielding items). rewrite (IH _ _ _ Hrest).
    cbn [elapsed fold_right fst arrivals]. fold (elapsed items).
    rewrite <- app_assoc. cbn [app]. f_equal. lia.
Qed.

(** C7: for a positive [timeoutMs] and a producer whose first steps each
    yield within [timeoutMs], the values of these steps arrive one by one,
    whatever their total duration, and a producer that then ends or throws
    in time ends the wrapper the same way.  A step that takes longer than
    [timeoutMs] does not make the wrapper fail when the timer fires: the
    timeout error leaves the wrapper when the stalled step settles, once
    the queued [generator.return()] has settled; and when the step never
    settles the wrapper never ends, and no error is thrown. *)
Theorem streamWithTimeout_waits_for_stalled_step
    (timeoutMs : Z) (tie : bool) (items : list (Z * T)) (rest : list (Step T)) :
  0 < timeoutMs ->
  Forall (fun item => 0 <= fst item < timeoutMs) items ->
  let start := elapsed items in
  let wrapped := fun steps => streamWithTimeout timeoutMs tie (yielding items ++ steps) in
  wrapped [] = mkRun (arrivals 0 items) (Ended start) (Some start)
  /\ (forall d, 0 <= d < timeoutMs ->
        wrapped (mkStep (Some d) Returns :: rest)
        = mkRun (arrivals 0 items) (Ended (start + d)) (Some (start + d)))
  /\ (forall d error, 0 <= d < timeoutMs ->
        wrapped (mkStep (Some d) (Throws error) :: rest)
        = mkRun (arrivals 0 items) (Threw error (start + d)) (Some (start + d)))
  /\ (forall d settled, timeoutMs < d ->
        wrapped (mkStep (Some d) settled :: rest)
        = mkRun (arrivals 0 items) (Threw (timeoutError timeoutMs) (start + d))
            (Some (start + d))
        /\ start + timeoutMs < start + d)
  /\ (forall settled,
        wrapped (mkStep None settled :: rest)
        = mkRun (arrivals 0 items) Pending None).
Proof.
  intros Hpos Hfast. cbn zeta.
  assert (Hlt : Forall (fun item : Z * T => fst item < timeoutMs) items).
  { eapply Forall_impl; [|exact Hfast]. cbn beta. intros item Hitem. lia. }
  unfold streamWithTimeout. rewrite !(loop_yielding _ _ _ _ _ _ Hlt).
  cbn [app Z.add]. split; [reflexivity|]. split; [|split; [|split]].
  - intros d Hd. rewrite (loop_yielding _ _ _ _ _ _ Hlt).
    cbn [app loop duration settles timerFirst Z.add].
    destruct (Z.eqb_spec d timeoutMs) as [Heq | _]; [lia|].
    destruct (Z.ltb_spec timeoutMs d) as [Hover | _]; [lia | reflexivity].
  - intros d error Hd. rewrite (loop_yielding _ _ _ _ _ _ Hlt).
    cbn [app loop duration settles timerFirst Z.add].
    destruct (Z.eqb_spec d timeoutMs) as [Heq | _]; [lia|].
    destruct (Z.ltb_spec timeoutMs d) as [Hover | _]; [lia | reflexivity].
  - intros d settled Hd. rewrite (loop_yielding _ _ _ _ _ _ Hlt).
    cbn [app loop duration settles timerFirst Z.add].
    destruct (Z.eqb_spec d timeoutMs) as [Heq | _]; [lia|].
    destruct (Z.ltb_spec timeoutMs d) as [_ | Hunder]; [|lia].
    split; [reflexivity | lia].
  - intros settled. rewrite (loop_yielding _ _ _ _ _ _ Hlt). reflexivity.
Qed.

End TimeoutFacts.

Lemma streamWithTimeout_waits_for_stalled_step_witness :
  let tokens := StreamWithTimeout.yielding [(60, "a"); (70, "b")] in
  let never := StreamWithTimeout.mkStep None (StreamWithTimeout.Yields "c") in
  let slow := StreamWithTimeout.mkStep (Some 5000) (StreamWithTimeout.Yields "c") in
  StreamWithTimeout.streamWithTimeout 100 true (tokens ++ [never])
  = StreamWithTimeout.mkRun [(60, "a"); (130, "b")] StreamWithTimeout.Pending None
  /\ StreamWithTimeout.streamWithTimeout 100 true (tokens ++ [slow])
     = StreamWithTimeout.mkRun [(60, "a"); (130, "b")]
         (StreamWithTimeout.Threw (StreamWithTimeout.timeoutError 100) 5130)
         (Some 5130)
  /\ StreamWithTimeout.streamWithTimeout 100 true (tokens ++ [])
     = StreamWithTimeout.mkRun [(60, "a"); (130, "b")]
         (StreamWithTimeout.Ended 130) (Some 130).
Proof.
  intros tokens never slow.
  assert (Hfast : Forall (fun item : Z * string => 0 <= fst item < 100)
                    [(60, "a"); (70, "b")]).
  { repeat constructor; cbn; lia. }
  destruct (streamWithTimeout_waits_for_stalled_step 100 true
              [(60, "a"); (70, "b")] [] ltac:(lia) Hfast)
    as (Hend & _ & _ & Hslow & Hnever).
  split; [exact (Hnever (StreamWithTimeout.Yields "c"))|].
  split; [|exact Hend].
  exact (proj1 (Hslow 5000 (StreamWithTimeout.Yields "c") ltac:(lia))).
Defined.

(** * Further properties *)

(** ** JavaScript maps, continued *)

Section MoreMapFacts.
Context {V : Type}.
Implicit Types (m : Js.Map V) (k : string) (v : V).

Lemma map_get_set_other m k k' v :
  k' <> k -> Js.map_get k' (Js.map_set k v m) = Js.map_get k' m.
Proof.
  intros Hne. induction m as [|[k0 v0] m IH]; cbn [Js.map_set Js.map_get].
  - destruct (String.eqb_spec k' k); [congruence | reflexivity].
  - destruct (String.eqb_spec k k0) as [-> | Hk]; cbn [Js.map_get].
    + destruct (String.eqb_spec k' k0); [congruence | reflexivity].
    + now rewrite IH.
Qed.

Lemma map_get_app_cons m1 m2 k v :
  ~ In k (Js.map_keys m1) -> Js.map_get k (m1 ++ (k, v) :: m2) = Some v.
Proof.
  induction m1 as [|[k0 v0] m1 IH]; cbn [app Js.map_get Js.map_keys List.map fst In].
  - intros _. now rewrite String.eqb_refl.
  - intros Hnot. destruct (String.eqb_spec k k0) as [-> | Hne]; [tauto|].
    apply IH. tauto.
Qed.

Lemma map_delete_app_cons m1 m2 k v :
  ~ In k (Js.map_keys m1) -> Js.map_delete k (m1 ++ (k, v) :: m2) = m1 ++ m2.
Proof.
  induction m1 as [|[k0 v0] m1 IH];
    cbn [app Js.map_delete Js.map_keys List.map fst In].
  - intros _. now rewrite String.eqb_refl.
  - intros Hnot. destruct (String.eqb_spec k k0) as [-> | Hne]; [tauto|].
    f_equal. apply IH. tauto.
Qed.

Lemma map_keys_delete m k :
  NoDup (Js.map_keys m) ->
  Js.map_keys (Js.map_delete k m)
  = filter (fun k' => negb (String.eqb k' k)) (Js.map_keys m).
Proof.
  induction m as [|[k0 v0] m IH]; cbn [Js.map_delete Js.map_keys List.map fst filter];
    [reflexivity|].
  intros Hnd. inversion Hnd as [|? ? Hk Hrest]; subst.
  destruct (String.eqb_spec k k0) as [-> | Hne].
  - rewrite String.eqb_refl. cbn [negb].
    symmetry. apply forallb_filter_id. apply forallb_forall.
    intros x Hx. destruct (String.eqb_spec x k0) as [-> | _]; [|reflexivity].
    contradiction.
  - destruct (String.eqb_spec k0 k); [congruence|]. cbn [negb Js.map_keys List.map fst].
    f_equal. now apply IH.
Qed.

Lemma map_delete_length_present m k v :
  Js.map_get k m = Some v ->
  List.length m = S (List.length (Js.map_delete k m)).
Proof.
  induction m as [|[k0 v0] m IH]; cbn [Js.map_get Js.map_delete]; [discriminate|].
  destruct (String.eqb k k0); [reflexivity|].
  intros H. cbn [List.length]. now rewrite <- IH.
Qed.

Lemma map_set_length m k v :
  List.length (Js.map_set k v m)
  = if Js.map_has k m then List.length m else S (List.length m).
Proof.
  unfold Js.map_has.
  induction m as [|[k0 v0] m IH]; cbn [Js.map_set Js.map_get]; [reflexivity|].
  destruct (String.eqb k k0); [reflexivity|].
  cbn [List.length]. rewrite IH. now destruct (Js.map_get k m).
Qed.

Lemma map_get_In_pair m k v : Js.map_get k m = Some v -> In (k, v) m.
Proof.
  induction m as [|[k0 v0] m IH]; cbn [Js.map_get]; [discriminate|].
  destruct (String.eqb_spec k k0) as [-> | Hne].
  - intros [= ->]. now left.
  - intros H. right. now apply IH.
Qed.

Lemma map_In_get m k v :
  NoDup (Js.map_keys m) -> In (k, v) m -> Js.map_get k m = Some v.
Proof.
  intros Hnd Hin. apply in_split in Hin. destruct Hin as (m1 & m2 & ->).
  apply map_get_app_cons.
  unfold Js.map_keys in Hnd. rewrite map_app in Hnd. cbn [List.map fst] in Hnd.
  apply NoDup_remove_2 in Hnd. intros Hin. apply Hnd.
  apply in_or_app. now left.
Qed.

End MoreMapFacts.

(** ** LRUCache: get, delete, clear *)

Section CacheOperations.
Import LRUCache LRUCacheStates LRUCacheInvariants.
Implicit Types (st : t) (k key : string).

(** X1: [get] of a key that is not cached returns [null] and leaves the
    cache as it is; [get] of a cached key returns its model, stamps the
    entry with the time of the call, counts one more hit, moves the key to
    the end of the iteration order and touches neither another entry nor
    the size, the capacity or the adapters. *)
Theorem get_miss_and_hit st key now :
  NoDup (Js.map_keys (cache st)) ->
  (Js.map_get key (cache st) = None -> get key now st = (None, st))
  /\ (forall c,
        Js.map_get key (cache st) = Some c ->
        let st' := snd (get key now st) in
        fst (get key now st) = Some (model c)
        /\ Js.map_get key (cache st') = Some (touch now c)
        /\ CacheEntry.lastAccessed (entry (touch now c)) = now
        /\ CacheEntry.hitCount (entry (touch now c))
           = CacheEntry.hitCount (entry c) + 1
        /\ Js.map_keys (cache st')
           = filter (fun k' => negb (String.eqb k' key)) (Js.map_keys (cache st))
               ++ [key]
        /\ (forall k', k' <> key ->
                       Js.map_get k' (cache st') = Js.map_get k' (cache st))
        /\ currentSize st' = currentSize st
        /\ maxSize st' = maxSize st
        /\ unloads st' = unloads st).
Proof.
  intros Hnd. split.
  - intros Hmiss. unfold get. now rewrite Hmiss.
  - intros c Hhit. unfold get. rewrite Hhit. cbn [fst snd cache currentSize maxSize unloads].
    split; [reflexivity|]. split; [apply map_get_set_same|].
    split; [reflexivity|]. split; [reflexivity|]. split.
    + rewrite map_keys_set. unfold Js.map_has.
      rewrite (map_get_delete_same _ _ Hnd). now rewrite map_keys_delete.
    + split; [|auto]. intros k' Hne.
      rewrite map_get_set_other by exact Hne.
      now apply map_get_delete_other.
Qed.

Lemma get_miss_and_hit_witness :
  let st := afterGet 10 "a" "b" "c" (Examples.modelOf "mA" 3)
              (Examples.modelOf "mB" 3) (Examples.modelOf "mC" 3) 2 3 4 in
  fst (get "b" 7 st) = Some (Examples.modelOf "mB" 3)
  /\ Js.map_keys (cache (snd (get "b" 7 st))) = ["c"; "a"; "b"]
  /\ get "z" 7 st = (None, st).
Proof.
  intros st.
  assert (Hnd : NoDup (Js.map_keys (cache st))).
  { cbn. repeat constructor; cbn; intuition discriminate. }
  assert (Hhit : Js.map_get "b" (cache st)
                 = Some (snd (entryOf "b" (Examples.modelOf "mB" 3) 2 1)))
    by reflexivity.
  destruct (proj2 (get_miss_and_hit st "b" 7 Hnd) _ Hhit)
    as (Hm & _ & _ & _ & Hk & _).
  split; [exact Hm|]. split; [exact Hk|].
  exact (proj1 (get_miss_and_hit st "z" 7 Hnd) eq_refl).
Defined.

(** X2: [delete] of a key that is not cached does nothing and calls no
    adapter; [delete] of a cached key, the empty string included, removes
    that key and no other, lowers [currentSize] by the size of the entry
    and unloads the model once; a second [delete] of the key changes
    nothing more. *)
Theorem delete_removes_one st key :
  NoDup (Js.map_keys (cache st)) ->
  (Js.map_get key (cache st) = None -> delete key st = st)
  /\ (forall c,
        Js.map_get key (cache st) = Some c ->
        let st' := delete key st in
        Js.map_get key (cache st') = None
        /\ (forall k', k' <> key ->
                       Js.map_get k' (cache st') = Js.map_get k' (cache st))
        /\ List.length (cache st) = S (List.length (cache st'))
        /\ currentSize st' = currentSize st - CacheEntry.size (entry c)
        /\ unloads st' = unloads st ++ [unloadModel (model c)]
        /\ delete key st' = st').
Proof.
  intros Hnd. split.
  - intros Hmiss. unfold delete. now rewrite Hmiss.
  - intros c Hhit st'.
    assert (Hst' : st' = {| cache := Js.map_delete key (cache st);
                            maxSize := maxSize st;
                            currentSize := currentSize st - CacheEntry.size (entry c);
                            unloads := unloads st ++ [unloadModel (model c)] |})
      by (unfold st', delete; now rewrite Hhit).
    clearbody st'. subst st'. cbn [cache currentSize unloads].
    assert (Hgone : Js.map_get key (Js.map_delete key (cache st)) = None)
      by now apply map_get_delete_same.
    split; [exact Hgone|].
    split; [intros k' Hne; now apply map_get_delete_other|].
    split; [now apply (map_delete_length_present _ _ c)|].
    split; [reflexivity|]. split; [reflexivity|].
    unfold delete. cbn [cache]. now rewrite Hgone.
Qed.

Lemma delete_removes_one_witness :
  let st := {| cache := [entryOf EmptyString (Examples.modelOf "m1" 5) 1000 1];
               maxSize := 1048576; currentSize := 5; unloads := [] |} in
  cache (delete EmptyString st) = []
  /\ currentSize (delete EmptyString st) = 0
  /\ unloads (delete EmptyString st) = [unloadModel (Examples.modelOf "m1" 5)]
  /\ delete "b" st = st.
Proof.
  intros st.
  assert (Hnd : NoDup (Js.map_keys (cache st))).
  { cbn. repeat constructor. intros []. }
  assert (Hhit : Js.map_get EmptyString (cache st)
                 = Some (snd (entryOf EmptyString (Examples.modelOf "m1" 5) 1000 1)))
    by reflexivity.
  destruct (proj2 (delete_removes_one st EmptyString Hnd) _ Hhit)
    as (_ & _ & _ & Hsize & Hun & _).
  split; [reflexivity|]. split; [exact Hsize|]. split; [exact Hun|].
  exact (proj1 (delete_removes_one st "b" Hnd) eq_refl).
Defined.

(** [clear] unloads every cached model once, in iteration order,
    leaves statistics of zero size, zero entries and zero hit rate, keeps
    the capacity, and a second [clear] calls no adapter. *)
Lemma clear_unloads_all st :
  unloads (clear st)
  = unloads st ++ List.map (fun c => unloadModel (model c)) (Js.map_values (cache st))
  /\ getStats (clear st) = mkStats 0 0 0%Q
  /\ getEntries (clear st) = []
  /\ maxSize (clear st) = maxSize st
  /\ clear (clear st) = clear st.
Proof.
  repeat split. unfold clear. cbn [cache maxSize unloads Js.map_values List.map].
  now rewrite app_nil_r.
Qed.

End CacheOperations.

(** ** LRUCache: prune and the bookkeeping of every method *)

Section CachePrune.
Import LRUCache LRUCacheStates LRUCacheInvariants.
Implicit Types (st : t) (k key : string).

(** Deleting, in iteration order, the keys of the entries that satisfy a
    test leaves the entries that fail it. *)
Lemma fold_delete_filter (p : string * Cached -> bool) :
  forall (m pre : Js.Map Cached) st,
    cache st = pre ++ m ->
    NoDup (Js.map_keys (cache st)) ->
    fold_left (fun s k => delete k s) (Js.map_keys (filter p m)) st
    = {| cache := pre ++ filter (fun kc => negb (p kc)) m;
         maxSize := maxSize st;
         currentSize := currentSize st - total (filter p m);
         unloads := unloads st
                    ++ List.map (fun c => unloadModel (model c))
                         (Js.map_values (filter p m)) |}.
Proof.
  induction m as [|[k c] m IH]; intros pre st Hc Hnd.
  - cbn. rewrite app_nil_r in *. destruct st as [ca ma cu un]. cbn in *.
    subst ca. f_equal; [lia | now rewrite app_nil_r].
  - cbn [filter]. destruct (p (k, c)) eqn:Hp; cbn [negb].
    + cbn [Js.map_keys List.map fst fold_left].
      assert (Hfresh : ~ In k (Js.map_keys pre)).
      { rewrite Hc in Hnd. unfold Js.map_keys in Hnd. rewrite map_app in Hnd.
        cbn [List.map fst] in Hnd. apply NoDup_remove_2 in Hnd.
        intros Hin. apply Hnd. apply in_or_app. now left. }
      assert (Hdel : delete k st
                     = {| cache := pre ++ m; maxSize := maxSize st;
                          currentSize := currentSize st - CacheEntry.size (entry c);
                          unloads := unloads st ++ [unloadModel (model c)] |}).
      { unfold delete. rewrite Hc, (map_get_app_cons _ _ _ _ Hfresh).
        now rewrite (map_delete_app_cons _ _ _ _ Hfresh). }
      rewrite Hdel.
      fold (Js.map_keys (filter p m)).
      rewrite (IH pre); cbn [cache maxSize currentSize unloads].
      * unfold total. cbn [Js.map_values List.map snd fold_right].
        fold (Js.map_values (filter p m)).
        f_equal; [lia | now rewrite <- app_assoc].
      * reflexivity.
      * rewrite Hc in Hnd. unfold Js.map_keys in *. rewrite map_app in *.
        cbn [List.map fst] in Hnd. now apply NoDup_remove_1 in Hnd.
    + rewrite (IH (pre ++ [(k, c)])).
      * now rewrite <- app_assoc.
      * now rewrite Hc, <- app_assoc.
      * exact Hnd.
Qed.

(** X3: [prune] removes exactly the entries last accessed more than
    [maxAge] before [now] and keeps the others in their order; it returns
    the number of entries removed, unloads each removed model once and
    lowers [currentSize] by their sizes; an entry whose age equals
    [maxAge] survives. *)
Theorem prune_removes_the_old st maxAge now :
  NoDup (Js.map_keys (cache st)) ->
  let old := fun kc => age now kc >? maxAge in
  let st' := snd (prune maxAge now st) in
  cache st' = filter (fun kc => negb (old kc)) (cache st)
  /\ Forall (fun kc => age now kc <= maxAge) (cache st')
  /\ fst (prune maxAge now st)
     = Z.of_nat (List.length (cache st)) - Z.of_nat (List.length (cache st'))
  /\ unloads st'
     = unloads st
       ++ List.map (fun c => unloadModel (model c))
            (Js.map_values (filter old (cache st)))
  /\ currentSize st' = currentSize st - total (filter old (cache st))
  /\ maxSize st' = maxSize st.
Proof.
  intros Hnd old st'.
  assert (Hst' : st'
                 = {| cache := filter (fun kc => negb (old kc)) (cache st);
                      maxSize := maxSize st;
                      currentSize := currentSize st - total (filter old (cache st));
                      unloads := unloads st
                                 ++ List.map (fun c => unloadModel (model c))
                                      (Js.map_values (filter old (cache st))) |}).
  { unfold st', prune. cbn [snd].
    apply (fold_delete_filter old (cache st) [] st); [reflexivity | exact Hnd]. }
  clearbody st'. subst st'. cbn [cache maxSize currentSize unloads].
  split; [reflexivity|]. split; [|split; [|auto]].
  - apply Forall_forall. intros kc Hin. apply filter_In in Hin.
    destruct Hin as [_ Hyoung]. unfold old in Hyoung.
    apply negb_true_iff in Hyoung. zbool. exact Hyoung.
  - unfold prune. cbn [fst]. unfold Js.map_keys. rewrite length_map.
    change (Z.of_nat (List.length (filter old (cache st)))
            = Z.of_nat (List.length (cache st))
              - Z.of_nat (List.length (filter (fun kc => negb (old kc)) (cache st)))).
    assert (Hlen : List.length (cache st)
                   = (List.length (filter old (cache st))
                      + List.length (filter (fun kc => negb (old kc)) (cache st)))%nat).
    { clear Hnd. induction (cache st) as [|kc m IH]; [reflexivity|].
      cbn [filter List.length]. destruct (old kc); cbn [negb List.length]; lia. }
    lia.
Qed.

Lemma prune_removes_the_old_witness :
  let st := afterGet 10 "a" "b" "c" (Examples.modelOf "mA" 3)
              (Examples.modelOf "mB" 3) (Examples.modelOf "mC" 3) 2 3 4 in
  Js.map_keys (cache (snd (prune 5 8 st))) = ["c"; "a"]
  /\ fst (prune 5 8 st) = 1
  /\ unloads (snd (prune 5 8 st)) = [unloadModel (Examples.modelOf "mB" 3)].
Proof.
  intros st.
  assert (Hnd : NoDup (Js.map_keys (cache st))).
  { cbn. repeat constructor; cbn; intuition discriminate. }
  destruct (prune_removes_the_old st 5 8 Hnd) as (Hc & _ & Hn & Hu & _).
  split; [now rewrite Hc|]. split; [now rewrite Hn, Hc | exact Hu].
Defined.

End CachePrune.

Section CacheConsistency.
Import LRUCache LRUCacheStates LRUCacheInvariants.
Implicit Types (st : t) (k key : string) (m : Js.Map Cached).

Lemma map_delete_Forall_pairs (P : string * Cached -> Prop) m k :
  Forall P m -> Forall P (Js.map_delete k m).
Proof.
  induction m as [|[k0 c0] m IH]; cbn [Js.map_delete]; [tauto|].
  intros HF. inversion HF as [|? ? H0 Hrest]; subst.
  destruct (String.eqb k k0); [exact Hrest | constructor; auto].
Qed.

Lemma map_set_Forall_pairs (P : string * Cached -> Prop) m k c :
  P (k, c) -> Forall P m -> Forall P (Js.map_set k c m).
Proof.
  intros Hc. induction m as [|[k0 c0] m IH]; cbn [Js.map_set].
  - intros _. repeat constructor. exact Hc.
  - intros HF. inversion HF as [|? ? H0 Hrest]; subst.
    destruct (String.eqb_spec k k0) as [-> | Hne]; constructor; auto.
Qed.

Lemma consistent_delete key st : consistent st -> consistent (delete key st).
Proof.
  intros (Hnd & Hsum & Hdesc). unfold delete.
  destruct (Js.map_get key (cache st)) as [c|] eqn:Hg; [|now repeat split].
  unfold consistent, sum_sizes. cbn [cache currentSize]. repeat split.
  - now apply map_delete_NoDup.
  - rewrite (total_delete _ _ _ Hg). unfold sum_sizes in Hsum. lia.
  - now apply map_delete_Forall_pairs.
Qed.

Lemma consistent_evictLRU st : consistent st -> consistent (evictLRU st).
Proof.
  intros Hc. unfold evictLRU.
  destruct (fst (oldest (cache st))) as [k|]; [|exact Hc].
  destruct (Js.truthy k); [now apply consistent_delete | exact Hc].
Qed.

Lemma consistent_evict_while modelSize :
  forall fuel st st1,
    consistent st -> evict_while fuel modelSize st = Some st1 -> consistent st1.
Proof.
  induction fuel as [|fuel IH]; intros st st1 Hc Hrun;
    rewrite evict_while_unfold in Hrun;
    destruct (pressed modelSize st); try discriminate;
    try (now injection Hrun as <-).
  apply (IH _ _ (consistent_evictLRU _ Hc) Hrun).
Qed.

Lemma consistent_fold_delete (keys : list string) :
  forall st, consistent st -> consistent (fold_left (fun s k => delete k s) keys st).
Proof.
  induction keys as [|k keys IH]; intros st Hc; cbn [fold_left]; [exact Hc|].
  apply IH. now apply consistent_delete.
Qed.

Lemma consistent_set fuel key model now st r st' :
  consistent st -> set fuel key model now st = Some (r, st') -> consistent st'.
Proof.
  intros Hc Hset. unfold set in Hset.
  destruct (evict_while fuel _ st) as [st1|] eqn:Hrun; [|discriminate].
  apply (consistent_evict_while _ _ _ _ Hc) in Hrun.
  destruct (_ >? _); injection Hset as _ <-; [exact Hrun|].
  destruct Hrun as (Hnd & Hsum & Hdesc). unfold sum_sizes in Hsum.
  assert (Hnew : describes
                   (key, mkCached model
                           (CacheEntry.mk key (LoadedModel.id model)
                              (ModelInfo.size (LoadedModel.info model)) now 1)))
    by (repeat split).
  destruct (Js.map_get key (cache st1)) as [old|] eqn:Hg;
    unfold consistent, sum_sizes; cbn [cache currentSize];
    rewrite total_set, Hg; cbn [entry CacheEntry.size];
    (split; [now apply map_set_NoDup|]);
    (split; [lia | now apply map_set_Forall_pairs]).
Qed.

Lemma consistent_get key now st : consistent st -> consistent (snd (get key now st)).
Proof.
  intros Hc. unfold get.
  destruct (Js.map_get key (cache st)) as [c|] eqn:Hg; [|exact Hc].
  destruct Hc as (Hnd & Hsum & Hdesc). unfold sum_sizes in Hsum.
  cbn [snd]. unfold consistent, sum_sizes. cbn [cache currentSize].
  split; [now apply map_set_NoDup, map_delete_NoDup|]. split.
  - rewrite total_set, (map_get_delete_same _ _ Hnd), (total_delete _ _ _ Hg).
    cbn [touch entry CacheEntry.size]. lia.
  - apply map_set_Forall_pairs; [|now apply map_delete_Forall_pairs].
    apply map_get_In_pair in Hg.
    apply (proj1 (Forall_forall _ _) Hdesc) in Hg.
    destruct Hg as (Hk & Hid & Hsz). cbn [fst snd] in *.
    repeat split; cbn [touch entry model fst snd CacheEntry.key CacheEntry.modelId
                         CacheEntry.size]; assumption.
Qed.

Lemma fold_total (l : list Cached) (acc : Z) :
  fold_left (fun sum c => sum + CacheEntry.size (entry c)) l acc
  = acc + fold_right (fun c a => CacheEntry.size (entry c) + a) 0 l.
Proof.
  revert acc. induction l as [|c l IH]; intros acc; cbn [fold_left fold_right]; [lia|].
  rewrite IH. lia.
Qed.

(** X4: in every state reached through the public methods, whatever the
    models, no key is cached twice, [currentSize] and the [totalSize] of
    [getStats] equal the sum of the sizes of the entries [getEntries]
    lists, [entryCount] is their number, and each entry carries the key it
    is stored under and the id and the size of the model stored with it. *)
Theorem reachable_consistent capacity st :
  reachable anyModel capacity st ->
  NoDup (Js.map_keys (cache st))
  /\ NoDup (List.map CacheEntry.key (getEntries st))
  /\ totalSize (getStats st)
     = fold_left (fun sum e => sum + CacheEntry.size e) (getEntries st) 0
  /\ entryCount (getStats st) = Z.of_nat (List.length (getEntries st))
  /\ Forall describes (cache st)
  /\ maxSize st = capacity.
Proof.
  intros Hreach.
  assert (Hc : consistent st /\ maxSize st = capacity).
  { induction Hreach as [| key now st _ [IH Hm] | fuel key model now st r st' _ [IH Hm] _ Hset
                         | key st _ [IH Hm] | st _ [IH Hm] | maxAge now st _ [IH Hm]].
    - split; [|reflexivity]. unfold consistent, sum_sizes, empty. cbn.
      repeat split; constructor.
    - split; [now apply consistent_get|].
      unfold get. now destruct (Js.map_get key (cache st)).
    - split; [now apply (consistent_set _ _ _ _ _ _ _ IH Hset)|].
      unfold set in Hset.
      destruct (evict_while fuel _ st) as [st1|] eqn:Hrun; [|discriminate].
      assert (Hm1 : maxSize st1 = maxSize st).
      { clear - Hrun. revert st Hrun.
        induction fuel as [|fuel IHf]; intros st Hrun;
          rewrite evict_while_unfold in Hrun;
          destruct (pressed _ st); try discriminate;
          try (now injection Hrun as <-).
        apply IHf in Hrun. now rewrite maxSize_evictLRU in Hrun. }
      destruct (_ >? _); injection Hset as _ <-; [congruence|].
      cbn [maxSize]. destruct (Js.map_get key (cache st1)); cbn [maxSize]; congruence.
    - split; [now apply consistent_delete | now rewrite maxSize_delete].
    - split; [|exact Hm]. unfold consistent, sum_sizes, clear. cbn.
      repeat split; constructor.
    - split; [unfold prune; cbn [snd]; now apply consistent_fold_delete|].
      unfold prune. cbn [snd]. rewrite <- Hm.
      generalize (Js.map_keys
                    (filter (fun kc => now - CacheEntry.lastAccessed (entry (snd kc))
                                       >? maxAge) (cache st))) as keys.
      intros keys. generalize st as s.
      induction keys as [|k keys IHk]; intros s; cbn [fold_left]; [reflexivity|].
      now rewrite IHk, maxSize_delete. }
  destruct Hc as [(Hnd & Hsum & Hdesc) Hcap].
  assert (Hkeys : List.map CacheEntry.key (getEntries st) = Js.map_keys (cache st)).
  { unfold getEntries, Js.map_values, Js.map_keys. rewrite !map_map.
    apply map_ext_in. intros kc Hin.
    now apply (proj1 (Forall_forall _ _) Hdesc) in Hin as [Hk _]. }
  split; [exact Hnd|]. split; [now rewrite Hkeys|]. split; [|split; [|auto]].
  - unfold getStats, getEntries. cbn [totalSize]. rewrite Hsum.
    unfold sum_sizes, total.
    generalize (Js.map_values (cache st)) as l. intros l.
    assert (G : forall acc,
               fold_left (fun sum e => sum + CacheEntry.size e) (List.map entry l) acc
               = acc + fold_right (fun c a => CacheEntry.size (entry c) + a) 0 l).
    { induction l as [|c l IH]; intros acc; cbn [List.map fold_left fold_right]; [lia|].
      rewrite IH. lia. }
    rewrite G. lia.
  - unfold getStats, getEntries, Js.map_size, Js.map_values. cbn [entryCount].
    now rewrite !length_map.
Qed.

Lemma reachable_consistent_witness :
  let st := afterGet 10 "a" "b" "c" (Examples.modelOf "mA" 3)
              (Examples.modelOf "mB" 3) (Examples.modelOf "mC" 3) 2 3 4 in
  reachable anyModel 10 st
  /\ totalSize (getStats st) = 9
  /\ entryCount (getStats st) = 3.
Proof.
  intros st.
  assert (Hreach : reachable anyModel 10 st).
  { assert (H3 : reachable anyModel 10
                   {| cache := [entryOf "a" (Examples.modelOf "mA" 3) 1 1;
                                entryOf "b" (Examples.modelOf "mB" 3) 2 1;
                                entryOf "c" (Examples.modelOf "mC" 3) 3 1];
                      maxSize := 10; currentSize := 0 + 3 + 3 + 3; unloads := [] |}).
    { apply (reach_set anyModel 10 0 "c" (Examples.modelOf "mC" 3) 3
               {| cache := [entryOf "a" (Examples.modelOf "mA" 3) 1 1;
                            entryOf "b" (Examples.modelOf "mB" 3) 2 1];
                  maxSize := 10; currentSize := 0 + 3 + 3; unloads := [] |}
               Resolved); [|exact I|reflexivity].
      apply (reach_set anyModel 10 0 "b" (Examples.modelOf "mB" 3) 2
               {| cache := [entryOf "a" (Examples.modelOf "mA" 3) 1 1];
                  maxSize := 10; currentSize := 0 + 3; unloads := [] |}
               Resolved); [|exact I|reflexivity].
      apply (reach_set anyModel 10 0 "a" (Examples.modelOf "mA" 3) 1
               (empty 10) Resolved); [apply reach_new|exact I|reflexivity]. }
    exact (reach_get anyModel 10 "a" 4 _ H3). }
  destruct (reachable_consistent 10 st Hreach) as (_ & _ & Hsize & Hcount & _).
  split; [exact Hreach|]. split; [now rewrite Hsize | now rewrite Hcount].
Defined.

End CacheConsistency.

Section CacheLifecycle.
Import LRUCache LRUCacheStates LRUCacheInvariants.
Implicit Types (st : t) (k key : string) (m : Js.Map Cached).

(** X5: after a [set] that resolves, [get] of the same key returns the
    model that was stored, whatever was cached under the key before; the
    entry starts with one hit and the time of the [set], and the [get]
    makes it two hits at the time of the [get]. *)
Theorem set_then_get fuel key model now st st' later :
  set fuel key model now st = Some (Resolved, st') ->
  fst (get key later st') = Some model
  /\ Js.map_get key (cache st')
     = Some (mkCached model
               (CacheEntry.mk key (LoadedModel.id model)
                  (ModelInfo.size (LoadedModel.info model)) now 1))
  /\ Js.map_get key (cache (snd (get key later st')))
     = Some (mkCached model
               (CacheEntry.mk key (LoadedModel.id model)
                  (ModelInfo.size (LoadedModel.info model)) later 2)).
Proof.
  intros Hset. unfold set in Hset.
  destruct (evict_while fuel _ st) as [st1|]; [|discriminate].
  destruct (_ >? _); [discriminate|]. injection Hset as <-.
  assert (Hg : Js.map_get key
                 (Js.map_set key
                    (mkCached model
                       (CacheEntry.mk key (LoadedModel.id model)
                          (ModelInfo.size (LoadedModel.info model)) now 1))
                    (cache match Js.map_get key (cache st1) with
                           | Some existing =>
                               {| cache := cache st1; maxSize := maxSize st1;
                                  currentSize :=
                                    currentSize st1 - CacheEntry.size (entry existing);
                                  unloads := unloads st1 ++ [unloadModel (LRUCache.model existing)] |}
                           | None => st1
                           end))
               = Some (mkCached model
                         (CacheEntry.mk key (LoadedModel.id model)
                            (ModelInfo.size (LoadedModel.info model)) now 1)))
    by apply map_get_set_same.
  unfold get. cbn [cache]. rewrite Hg. cbn [fst snd cache].
  split; [reflexivity|]. split; [reflexivity|]. apply map_get_set_same.
Qed.

Lemma set_then_get_witness :
  exists st',
    set 0 "a" (Examples.modelOf "mA" 3) 1 (empty 10) = Some (Resolved, st')
    /\ fst (get "a" 4 st') = Some (Examples.modelOf "mA" 3).
Proof.
  eexists. split; [reflexivity|].
  exact (proj1 (set_then_get 0 "a" (Examples.modelOf "mA" 3) 1 (empty 10) _ 4 eq_refl)).
Defined.

Lemma handled_delete key st : handled (delete key st) = handled st.
Proof.
  unfold delete, handled.
  destruct (Js.map_get key (cache st)) as [c|] eqn:Hg; [|reflexivity].
  cbn [cache unloads]. rewrite length_app, (map_delete_length_present _ _ _ Hg).
  cbn [List.length]. lia.
Qed.

Lemma handled_evictLRU st : handled (evictLRU st) = handled st.
Proof.
  unfold evictLRU. destruct (fst (oldest (cache st))) as [k|]; [|reflexivity].
  destruct (Js.truthy k); [apply handled_delete | reflexivity].
Qed.

Lemma handled_evict_while modelSize :
  forall fuel st st1,
    evict_while fuel modelSize st = Some st1 -> handled st1 = handled st.
Proof.
  induction fuel as [|fuel IH]; intros st st1 Hrun;
    rewrite evict_while_unfold in Hrun;
    destruct (pressed modelSize st); try discriminate;
    try (now injection Hrun as <-).
  apply IH in Hrun. now rewrite handled_evictLRU in Hrun.
Qed.

(** X6: the [unloadModel] calls of each operation.  [delete] unloads the
    model of the entry it removes, if there is one; [clear] unloads every
    cached model, in iteration order; [prune] unloads the models of the
    entries it removes, in iteration order; [get] unloads nothing.  A
    [set] that settles unloads the models of the entries its loop evicts,
    in the order of eviction, and then, when it resolves and its key is
    still cached after the loop, the model stored under that key; every
    entry stored under another key is either among the evicted or stays
    with its value.  So no entry leaves the cache without one call of
    [unloadModel] for its model.  The converse fails for the key being
    set: the model found under it is unloaded also when it is the very
    model being stored, which then stays cached although its adapter was
    told to unload it. *)
Theorem unloads_match_removals st :
  NoDup (Js.map_keys (cache st)) ->
  let unload := fun c => unloadModel (LRUCache.model c) in
  (forall key,
      unloads (delete key st)
      = unloads st ++ match Js.map_get key (cache st) with
                      | Some c => [unload c]
                      | None => []
                      end)
  /\ unloads (clear st) = unloads st ++ List.map unload (Js.map_values (cache st))
  /\ (forall maxAge now,
         unloads (snd (prune maxAge now st))
         = unloads st
           ++ List.map unload
                (Js.map_values (filter (fun kc => age now kc >? maxAge) (cache st))))
  /\ (forall key now, unloads (snd (get key now st)) = unloads st)
  /\ (forall fuel key model now r st',
         set fuel key model now st = Some (r, st') ->
         exists (evicted : Js.Map Cached) (replaced : list Cached),
           unloads st'
           = unloads st ++ List.map unload (Js.map_values evicted)
               ++ List.map unload replaced
           /\ Forall (fun kc => Js.map_get (fst kc) (cache st) = Some (snd kc)
                                /\ (fst kc <> key ->
                                    Js.map_get (fst kc) (cache st') = None))
                evicted
           /\ (forall old, In old replaced ->
                           r = Resolved
                           /\ Js.map_get key (cache st) = Some old
                           /\ replaced = [old])
           /\ (forall k c, k <> key -> Js.map_get k (cache st) = Some c ->
                           In (k, c) evicted \/ Js.map_get k (cache st') = Some c)
           /\ handled st' = match r with
                            | Resolved => S (handled st)
                            | Rejected _ => handled st
                            end)
  /\ (forall fuel key c now later,
         Js.map_get key (cache st) = Some c ->
         0 <= currentSize st ->
         currentSize st + ModelInfo.size (LoadedModel.info (LRUCache.model c))
         <= maxSize st ->
         exists st',
           set fuel key (LRUCache.model c) now st = Some (Resolved, st')
           /\ unloads st' = unloads st ++ [unload c]
           /\ fst (get key later st') = Some (LRUCache.model c)).
Proof.
  intros Hnd unload.
  split; [|split; [reflexivity|split; [|split; [|split]]]].
  - intros key. unfold delete.
    destruct (Js.map_get key (cache st)); [reflexivity | now rewrite app_nil_r].
  - intros maxAge now. unfold prune. cbn [snd].
    exact (f_equal unloads
             (fold_delete_filter (fun kc => age now kc >? maxAge) (cache st) [] st
                eq_refl Hnd)).
  - intros key now. unfold get. now destruct (Js.map_get key (cache st)).
  - intros fuel key model now r st' Hset. unfold set in Hset.
    destruct (evict_while fuel _ st) as [st1|] eqn:Hrun; [|discriminate].
    pose proof (handled_evict_while _ _ _ _ Hrun) as Hhandled.
    destruct (evict_while_steps _ _ _ _ Hnd Hrun)
      as (n & evicted & _ & _ & _ & _ & _ & Hun & _ & Hgone & Hkept & _ & Hall).
    destruct (_ >? _).
    + injection Hset as <- <-. exists evicted, [].
      cbn [List.map]. rewrite app_nil_r.
      split; [exact Hun|]. split; [|split; [intros old [] | split; [|exact Hhandled]]].
      * eapply Forall_impl; [|exact Hgone]. cbn beta. intros kc [Hin Hout]. auto.
      * intros k c _ Hget. now apply Hall.
    + injection Hset as <- <-.
      exists evicted,
        (match Js.map_get key (cache st1) with Some old => [old] | None => [] end).
      split; [|split; [|split; [|split]]].
      * destruct (Js.map_get key (cache st1)) as [old|]; cbn [unloads List.map].
        -- now rewrite Hun, <- app_assoc.
        -- now rewrite Hun, app_nil_r.
      * eapply Forall_impl; [|exact Hgone]. cbn beta. intros kc [Hin Hout].
        split; [exact Hin|]. intros Hne.
        destruct (Js.map_get key (cache st1)); cbn [cache];
          now rewrite map_get_set_other.
      * intros old Hold.
        destruct (Js.map_get key (cache st1)) as [old'|] eqn:Hg; [|destruct Hold].
        destruct Hold as [<- | []]. split; [reflexivity|].
        split; [now apply Hkept | reflexivity].
      * intros k c Hne Hget. destruct (Hall k c Hget) as [Hin | Hstay]; [now left|].
        right. destruct (Js.map_get key (cache st1)); cbn [cache];
          now rewrite map_get_set_other.
      * rewrite <- Hhandled. unfold handled.
        destruct (Js.map_get key (cache st1)) as [old|] eqn:Hg;
          cbn [cache unloads]; rewrite map_set_length; unfold Js.map_has; rewrite Hg.
        -- rewrite length_app. cbn [List.length]. lia.
        -- lia.
  - intros fuel key c now later Hget Hcur Hfits.
    assert (Hcalm : pressed (ModelInfo.size (LoadedModel.info (LRUCache.model c))) st
                    = false).
    { unfold pressed. apply andb_false_iff. left.
      rewrite Z.gtb_ltb. apply Z.ltb_ge. lia. }
    unfold set. rewrite evict_while_unfold, Hcalm.
    destruct (Z.gtb_spec (ModelInfo.size (LoadedModel.info (LRUCache.model c)))
                (maxSize st)) as [Hbig | _]; [lia|].
    rewrite Hget. eexists. split; [reflexivity|].
    cbn [unloads]. split; [reflexivity|].
    unfold get. cbn [cache]. rewrite map_get_set_same. reflexivity.
Qed.

Lemma unloads_match_removals_witness :
  let mA := Examples.modelOf "mA" 3 in
  let st := {| cache := [("a", mkCached mA (CacheEntry.mk "a" "mA" 3 1 1))];
               maxSize := 10; currentSize := 3; unloads := [] |} in
  exists st',
    set 0 "a" mA 2 st = Some (Resolved, st')
    /\ unloads st' = [unloadModel mA]
    /\ fst (get "a" 5 st') = Some mA.
Proof.
  intros mA st.
  assert (Hnd : NoDup (Js.map_keys (cache st))).
  { cbn. repeat constructor. intros []. }
  destruct (unloads_match_removals st Hnd) as (_ & _ & _ & _ & _ & Hagain).
  destruct (Hagain 0%nat "a" (mkCached mA (CacheEntry.mk "a" "mA" 3 1 1)) 2 5
              eq_refl ltac:(cbn; lia) ltac:(cbn; lia))
    as (st' & Hset & Hun & Hget).
  exists st'. split; [exact Hset|]. split; [exact Hun | exact Hget].
Defined.

(** X7: on a cache none of whose keys is the empty string, [evictLRU]
    removes exactly one entry, unloads its model, and no entry that stays
    was last accessed before the one removed. *)
Theorem evictLRU_removes_least_recent st :
  NoDup (Js.map_keys (cache st)) ->
  Forall (fun k => Js.truthy k = true) (Js.map_keys (cache st)) ->
  cache st <> [] ->
  exists k c,
    Js.map_get k (cache st) = Some c
    /\ evictLRU st = delete k st
    /\ Js.map_get k (cache (evictLRU st)) = None
    /\ List.length (cache st) = S (List.length (cache (evictLRU st)))
    /\ unloads (evictLRU st) = unloads st ++ [unloadModel (model c)]
    /\ Forall (fun c' => CacheEntry.lastAccessed (entry c)
                         <= CacheEntry.lastAccessed (entry c'))
         (Js.map_values (cache (evictLRU st))).
Proof.
  intros Hnd Hkeys Hne.
  destruct (oldest_first_least (cache st) Hne)
    as (before & k & c & after & Hm & Hold & Hlt & Hle).
  assert (Hfresh : ~ In k (Js.map_keys before)).
  { rewrite Hm in Hnd. unfold Js.map_keys in Hnd. rewrite map_app in Hnd.
    cbn [List.map fst] in Hnd. apply NoDup_remove_2 in Hnd.
    intros Hin. apply Hnd. apply in_or_app. now left. }
  assert (Hg : Js.map_get k (cache st) = Some c)
    by (rewrite Hm; now apply map_get_app_cons).
  assert (Htruthy : Js.truthy k = true).
  { apply (proj1 (Forall_forall _ _) Hkeys). rewrite Hm. unfold Js.map_keys.
    rewrite map_app. apply in_or_app. right. now left. }
  assert (Hev : evictLRU st = delete k st).
  { unfold evictLRU. rewrite Hold. cbn [fst]. now rewrite Htruthy. }
  exists k, c. split; [exact Hg|]. split; [exact Hev|]. rewrite Hev.
  unfold delete. rewrite Hg. cbn [cache unloads].
  split; [now apply map_get_delete_same|].
  split; [now apply (map_delete_length_present _ _ c)|].
  split; [reflexivity|].
  rewrite Hm, (map_delete_app_cons _ _ _ _ Hfresh).
  unfold Js.map_values. rewrite map_app. apply Forall_app. split.
  - apply Forall_forall. intros c' Hin. apply in_map_iff in Hin.
    destruct Hin as (kc & <- & Hin). apply Hlt in Hin. lia.
  - apply Forall_forall. intros c' Hin. apply in_map_iff in Hin.
    destruct Hin as (kc & <- & Hin). now apply Hle.
Qed.

Lemma evictLRU_removes_least_recent_witness :
  let st := afterGet 10 "a" "b" "c" (Examples.modelOf "mA" 3)
              (Examples.modelOf "mB" 3) (Examples.modelOf "mC" 3) 2 3 4 in
  exists k c,
    Js.map_get k (cache st) = Some c
    /\ evictLRU st = delete k st
    /\ Js.map_keys (cache (evictLRU st)) = ["c"; "a"].
Proof.
  intros st.
  assert (Hnd : NoDup (Js.map_keys (cache st))).
  { cbn. repeat constructor; cbn; intuition discriminate. }
  assert (Hkeys : Forall (fun k => Js.truthy k = true) (Js.map_keys (cache st))).
  { cbn. repeat constructor. }
  assert (Hne : cache st <> []) by discriminate.
  destruct (evictLRU_removes_least_recent st Hnd Hkeys Hne)
    as (k & c & Hg & Hev & _).
  exists k, c. split; [exact Hg|]. split; [exact Hev | reflexivity].
Defined.

End CacheLifecycle.

(** ** ModelRegistry: adapters and loaded models *)

Section RegistryLifecycle.
Import ModelRegistry LoadedModels.
Implicit Types (r : t).

Lemma registerAll_snoc (l : list ModelAdapter.t) (a : ModelAdapter.t) r :
  registerAll (l ++ [a]) r = registerAdapter a (registerAll l r).
Proof. unfold registerAll. now rewrite fold_left_app. Qed.

(** X8: after any sequence of registrations [getAdapter] returns, for
    each format tag, the adapter registered last under that tag and
    nothing for a tag never registered; the adapter returned carries the
    tag it was asked for, and no tag is listed twice. *)
Theorem getAdapter_last_registered (l : list ModelAdapter.t) (format : string) :
  getAdapter format (registerAll l new)
  = find (fun a => String.eqb (ModelAdapter.format a) format) (rev l)
  /\ (forall a, getAdapter format (registerAll l new) = Some a ->
                ModelAdapter.format a = format /\ In a l)
  /\ (getAdapter format (registerAll l new) = None
      <-> ~ In format (List.map ModelAdapter.format l))
  /\ NoDup (Js.map_keys (adapters (registerAll l new))).
Proof.
  assert (Hfind : getAdapter format (registerAll l new)
                  = find (fun a => String.eqb (ModelAdapter.format a) format) (rev l)).
  { induction l as [|a l IH] using rev_ind; [reflexivity|].
    rewrite registerAll_snoc, rev_app_distr. cbn [rev app find].
    unfold getAdapter, registerAdapter. cbn [adapters].
    destruct (String.eqb_spec (ModelAdapter.format a) format) as [<- | Hne].
    - apply map_get_set_same.
    - rewrite map_get_set_other by congruence. exact IH. }
  split; [exact Hfind|]. split; [|split].
  - intros a Ha. rewrite Hfind in Ha. apply find_some in Ha.
    destruct Ha as [Hin Heq]. apply String.eqb_eq in Heq.
    split; [exact Heq | now apply in_rev].
  - rewrite Hfind. split.
    + intros Hnone Hin. apply in_map_iff in Hin. destruct Hin as (a & Hf & Hin).
      apply in_rev in Hin. pose proof (find_none _ _ Hnone a Hin) as Hfalse.
      cbn beta in Hfalse. rewrite Hf, String.eqb_refl in Hfalse. discriminate.
    + intros Hnot.
      destruct (find _ (rev l)) as [a|] eqn:Hf; [|reflexivity].
      apply find_some in Hf. destruct Hf as [Hin Heq]. apply String.eqb_eq in Heq.
      exfalso. apply Hnot. rewrite <- Heq. apply in_map. now apply in_rev.
  - clear Hfind. induction l as [|a l IH] using rev_ind; [constructor|].
    rewrite registerAll_snoc. unfold registerAdapter. cbn [adapters].
    apply map_set_NoDup. exact IH.
Qed.

Lemma memory_fold (l : list LoadedModel.t) (acc : Z) :
  fold_left (fun total model => total + ModelInfo.size (LoadedModel.info model)) l acc
  = acc + fold_left (fun total model => total + ModelInfo.size (LoadedModel.info model)) l 0.
Proof.
  revert acc. induction l as [|x l IH]; intros acc; cbn [fold_left]; [lia|].
  rewrite IH, (IH (0 + _)). lia.
Qed.

Lemma memory_delete (m : Js.Map LoadedModel.t) (k : string) (x : LoadedModel.t) :
  Js.map_get k m = Some x ->
  fold_left (fun total model => total + ModelInfo.size (LoadedModel.info model))
    (Js.map_values (Js.map_delete k m)) 0
  = fold_left (fun total model => total + ModelInfo.size (LoadedModel.info model))
      (Js.map_values m) 0
    - ModelInfo.size (LoadedModel.info x).
Proof.
  induction m as [|[k0 x0] m IH]; cbn [Js.map_get Js.map_delete]; [discriminate|].
  destruct (String.eqb k k0); cbn [Js.map_values List.map snd fold_left].
  - intros [= ->]. fold (Js.map_values m). rewrite (memory_fold _ (0 + _)). lia.
  - intros H. fold (Js.map_values (Js.map_delete k m)). fold (Js.map_values m).
    rewrite (memory_fold _ (0 + _)), (memory_fold (Js.map_values m) (0 + _)).
    rewrite (IH H). lia.
Qed.

Lemma memory_set (m : Js.Map LoadedModel.t) (k : string) (x : LoadedModel.t) :
  fold_left (fun total model => total + ModelInfo.size (LoadedModel.info model))
    (Js.map_values (Js.map_set k x m)) 0
  = fold_left (fun total model => total + ModelInfo.size (LoadedModel.info model))
      (Js.map_values m) 0
    + ModelInfo.size (LoadedModel.info x)
    - match Js.map_get k m with
      | Some old => ModelInfo.size (LoadedModel.info old)
      | None => 0
      end.
Proof.
  induction m as [|[k0 x0] m IH]; cbn [Js.map_get Js.map_set].
  - cbn. lia.
  - destruct (String.eqb k k0); cbn [Js.map_values List.map snd fold_left].
    + fold (Js.map_values m).
      rewrite (memory_fold _ (0 + _)), (memory_fold (Js.map_values m) (0 + _)). lia.
    + fold (Js.map_values (Js.map_set k x m)). fold (Js.map_values m).
      rewrite (memory_fold _ (0 + _)), (memory_fold (Js.map_values m) (0 + _)).
      rewrite IH. lia.
Qed.

(** X9: a registered model is found under its id, and registering it
    changes [getMemoryUsage] by its size less the size of the model it
    replaces; [unloadModel] of an id that is not loaded calls no adapter
    and changes nothing; [unloadModel] of a loaded id calls the owning
    adapter once with that id, after which the id is no longer found,
    every other model still is, the adapters are as before,
    [getMemoryUsage] is lower by the size of the model, and unloading
    again does nothing. *)
Theorem loaded_model_lifecycle r :
  NoDup (Js.map_keys (loadedModels r)) ->
  (forall model,
      getLoadedModel (LoadedModel.id model) (registerLoadedModel model r) = Some model
      /\ NoDup (Js.map_keys (loadedModels (registerLoadedModel model r)))
      /\ getMemoryUsage (registerLoadedModel model r)
         = getMemoryUsage r + ModelInfo.size (LoadedModel.info model)
           - match getLoadedModel (LoadedModel.id model) r with
             | Some old => ModelInfo.size (LoadedModel.info old)
             | None => 0
             end)
  /\ (forall modelId,
         getLoadedModel modelId r = None -> unloadModel modelId r = ([], r))
  /\ (forall modelId model,
         getLoadedModel modelId r = Some model ->
         let r' := snd (unloadModel modelId r) in
         fst (unloadModel modelId r)
         = [(ModelAdapter.format (LoadedModel.adapter model), modelId)]
         /\ getLoadedModel modelId r' = None
         /\ (forall other, other <> modelId ->
                           getLoadedModel other r' = getLoadedModel other r)
         /\ adapters r' = adapters r
         /\ getMemoryUsage r' = getMemoryUsage r - ModelInfo.size (LoadedModel.info model)
         /\ unloadModel modelId r' = ([], r')).
Proof.
  intros Hnd. split; [|split].
  - intros model. unfold getLoadedModel, registerLoadedModel, getMemoryUsage.
    cbn [loadedModels]. split; [apply map_get_set_same|].
    split; [now apply map_set_NoDup | apply memory_set].
  - intros modelId Hnone. unfold unloadModel. unfold getLoadedModel in Hnone.
    now rewrite Hnone.
  - intros modelId model Hsome r'. unfold getLoadedModel in Hsome.
    assert (Hun : unloadModel modelId r
                  = ([(ModelAdapter.format (LoadedModel.adapter model), modelId)],
                     {| adapters := adapters r;
                        loadedModels := Js.map_delete modelId (loadedModels r) |}))
      by (unfold unloadModel; now rewrite Hsome).
    unfold r'. rewrite Hun. cbn [fst snd].
    unfold getLoadedModel, getMemoryUsage. cbn [loadedModels adapters].
    assert (Hgone : Js.map_get modelId (Js.map_delete modelId (loadedModels r)) = None)
      by now apply map_get_delete_same.
    split; [reflexivity|]. split; [exact Hgone|].
    split; [intros other Hne; now apply map_get_delete_other|].
    split; [reflexivity|]. split; [now apply memory_delete|].
    unfold unloadModel. cbn [loadedModels]. now rewrite Hgone.
Qed.

Lemma loaded_model_lifecycle_witness :
  let r := registerLoadedModel (Examples.modelOf "m2" 7)
             (registerLoadedModel (Examples.modelOf "m1" 5) new) in
  getMemoryUsage r = 12
  /\ fst (unloadModel "m1" r) = [("gguf", "m1")]
  /\ getMemoryUsage (snd (unloadModel "m1" r)) = 7
  /\ unloadModel "m3" r = ([], r).
Proof.
  intros r.
  assert (Hnd : NoDup (Js.map_keys (loadedModels r))).
  { cbn. repeat constructor; cbn; intuition discriminate. }
  destruct (loaded_model_lifecycle r Hnd) as (_ & Habsent & Hpresent).
  destruct (Hpresent "m1" (Examples.modelOf "m1" 5) eq_refl)
    as (Hcalls & _ & _ & _ & Hmem & _).
  split; [reflexivity|]. split; [exact Hcalls|].
  split; [rewrite Hmem; reflexivity|]. exact (Habsent "m3" eq_refl).
Defined.

End RegistryLifecycle.

Lemma getAdapter_last_registered_witness :
  ModelRegistry.getAdapter "gguf"
    (ModelRegistry.registerAll [Adapters.GGUFAdapter; Adapters.TFLiteAdapter]
       ModelRegistry.new) = Some Adapters.GGUFAdapter
  /\ ModelAdapter.format Adapters.GGUFAdapter = "gguf"
  /\ ModelRegistry.getAdapter "onnx"
       (ModelRegistry.registerAll [Adapters.GGUFAdapter; Adapters.TFLiteAdapter]
          ModelRegistry.new) = None.
Proof.
  assert (Hsome : ModelRegistry.getAdapter "gguf"
                    (ModelRegistry.registerAll
                       [Adapters.GGUFAdapter; Adapters.TFLiteAdapter]
                       ModelRegistry.new) = Some Adapters.GGUFAdapter)
    by reflexivity.
  split; [exact Hsome|]. split.
  - exact (proj1 (proj1 (proj2 (getAdapter_last_registered
                                  [Adapters.GGUFAdapter; Adapters.TFLiteAdapter] "gguf"))
                    _ Hsome)).
  - apply (proj2 (proj1 (proj2 (proj2 (getAdapter_last_registered
                                         [Adapters.GGUFAdapter; Adapters.TFLiteAdapter]
                                         "onnx"))))).
    cbn. intuition discriminate.
Defined.

(** ** IDGAF: dispatch, metrics and the log gate *)

Section FacadeFacts.
Import IDGAF.
Implicit Types (ai : t).

(** X10: a call for a modality goes to the loaded model of that type that
    was registered first among those still loaded, and fails with the
    error that no such model is loaded exactly when no loaded model has
    the type. *)
Theorem dispatch_first_of_type (type : string) ai :
  (dispatchTarget type ai = None
   <-> forall model, In model (getLoadedModels ai) ->
                     ModelInfo.type (LoadedModel.info model) <> type)
  /\ (forall model,
         dispatchTarget type ai = Some model ->
         ModelInfo.type (LoadedModel.info model) = type
         /\ exists before after,
              getLoadedModels ai = before ++ model :: after
              /\ forall other, In other before ->
                               ModelInfo.type (LoadedModel.info other) <> type).
Proof.
  unfold dispatchTarget, getCompatibleModels, getLoadedModels.
  set (matches := fun model : LoadedModel.t =>
                    String.eqb (ModelInfo.type (LoadedModel.info model)) type).
  set (loaded := LoadedModels.getAllLoadedModels (registry ai)).
  destruct (filter matches loaded) as [|first rest] eqn:Hf.
  - split; [|discriminate]. split; [|reflexivity].
    intros _ model Hin Htype.
    assert (Hm : In model (filter matches loaded)).
    { apply filter_In. split; [exact Hin|]. unfold matches. now apply String.eqb_eq. }
    rewrite Hf in Hm. destruct Hm.
  - change (Z.of_nat (List.length (first :: rest)) =? 0) with false. cbn [hd_error].
    split.
    + split; [discriminate|]. intros Hnone. exfalso.
      assert (Hm : In first (filter matches loaded)) by (rewrite Hf; now left).
      apply filter_In in Hm. destruct Hm as [Hin Hm].
      apply (Hnone first Hin). now apply String.eqb_eq.
    + intros model [= <-].
      destruct (filter_eq_app_cons matches loaded [] first rest Hf)
        as (before & after & Hl & Hm & Hb & _).
      split; [now apply String.eqb_eq|].
      exists before, after. split; [exact Hl|].
      intros other Hin Htype.
      assert (Ho : In other (filter matches before)).
      { apply filter_In. split; [exact Hin|]. unfold matches. now apply String.eqb_eq. }
      rewrite Hb in Ho. destruct Ho.
Qed.

Lemma dispatch_first_of_type_witness :
  let vision := LoadedModel.mk "v1"
                  (ModelInfo.mk "mobilenet" "tflite" "vision" 4 "1.0" "abc")
                  Adapters.TFLiteAdapter in
  let ai := mk (LoadedModels.registerLoadedModel vision
                  (LoadedModels.registerLoadedModel (Examples.modelOf "m1" 5)
                     ModelRegistry.new)) [] "info" in
  dispatchTarget "vision" ai = Some vision
  /\ ModelInfo.type (LoadedModel.info vision) = "vision"
  /\ dispatchTarget "audio" ai = None.
Proof.
  intros vision ai.
  assert (Hsome : dispatchTarget "vision" ai = Some vision) by reflexivity.
  split; [exact Hsome|]. split.
  - exact (proj1 (proj2 (dispatch_first_of_type "vision" ai) vision Hsome)).
  - apply (proj2 (proj1 (dispatch_first_of_type "audio" ai))).
    intros model [<- | [<- | []]]; discriminate.
Defined.



(** X12: unloading a model through the facade calls its adapter once,
    removes it from the loaded models and drops its metrics, so that its
    id reads as zeros afterwards; for an id that is not loaded no adapter
    is called, yet a record kept under that id is dropped all the same. *)
Theorem facade_unload_drops_metrics (modelId : string) ai :
  NoDup (Js.map_keys (ModelRegistry.loadedModels (registry ai))) ->
  NoDup (Js.map_keys (performanceMetrics ai)) ->
  Js.truthy modelId = true ->
  let ai' := snd (unloadModel modelId ai) in
  getPerformanceMetrics (Some modelId) ai' = inl noMetrics
  /\ LoadedModels.getLoadedModel modelId (registry ai') = None
  /\ (forall model, In model (getLoadedModels ai') ->
                    In model (getLoadedModels ai))
  /\ (forall model,
         LoadedModels.getLoadedModel modelId (registry ai) = Some model ->
         fst (unloadModel modelId ai)
         = [(ModelAdapter.format (LoadedModel.adapter model), modelId)])
  /\ (LoadedModels.getLoadedModel modelId (registry ai) = None ->
      fst (unloadModel modelId ai) = []
      /\ registry ai' = registry ai).
Proof.
  intros Hnd Hndm Htruthy ai'.
  unfold ai', unloadModel, LoadedModels.unloadModel, LoadedModels.getLoadedModel,
    getLoadedModels, LoadedModels.getAllLoadedModels.
  destruct (Js.map_get modelId (ModelRegistry.loadedModels (registry ai)))
    as [model|] eqn:Hg; cbn [fst snd registry performanceMetrics
                               ModelRegistry.loadedModels];
    unfold getPerformanceMetrics; rewrite Htruthy; cbn [performanceMetrics];
    rewrite (map_get_delete_same _ _ Hndm).
  - split; [reflexivity|]. split; [now apply map_get_delete_same|].
    split; [|split; [intros m [= <-]; reflexivity | discriminate]].
    intros m Hin. unfold Js.map_values in *. apply in_map_iff in Hin.
    destruct Hin as ([k x] & <- & Hin). apply in_map_iff.
    exists (k, x). split; [reflexivity|].
    clear - Hin. induction (ModelRegistry.loadedModels (registry ai)) as [|[k0 x0] m IH];
      cbn [Js.map_delete] in Hin; [destruct Hin|].
    destruct (String.eqb modelId k0); [now right|].
    destruct Hin as [Hin | Hin]; [now left | right; now apply IH].
  - split; [reflexivity|]. split; [exact Hg|].
    split; [auto|]. split; [discriminate | auto].
Qed.

Lemma facade_unload_drops_metrics_witness :
  let loaded := PerformanceMetrics.mk None 0%Q (5 # 1) None (Some (120 # 1)) in
  let ai := mk (LoadedModels.registerLoadedModel (Examples.modelOf "m1" 5)
                  ModelRegistry.new) [("m1", loaded)] "info" in
  getPerformanceMetrics (Some "m1") ai = inl loaded
  /\ getPerformanceMetrics (Some "m1") (snd (unloadModel "m1" ai)) = inl noMetrics
  /\ fst (unloadModel "m1" ai) = [("gguf", "m1")].
Proof.
  intros loaded ai.
  assert (Hnd : NoDup (Js.map_keys (ModelRegistry.loadedModels (registry ai)))).
  { cbn. repeat constructor. intros []. }
  assert (Hndm : NoDup (Js.map_keys (performanceMetrics ai))).
  { cbn. repeat constructor. intros []. }
  destruct (facade_unload_drops_metrics "m1" ai Hnd Hndm eq_refl)
    as (Hzero & _ & _ & Hcall & _).
  split; [reflexivity|]. split; [exact Hzero|].
  exact (Hcall (Examples.modelOf "m1" 5) eq_refl).
Defined.

End FacadeFacts.

Section LogGate.
Import IDGAF.

Lemma indexOf_levels (x : string) :
  (x = "debug" /\ indexOf x levels = 0)
  \/ (x = "info" /\ indexOf x levels = 1)
  \/ (x = "warn" /\ indexOf x levels = 2)
  \/ (x = "error" /\ indexOf x levels = 3)
  \/ (~ In x levels /\ indexOf x levels = -1).
Proof.
  unfold levels. cbn [indexOf].
  destruct (String.eqb_spec "debug" x) as [<- | Hd]; [now left|].
  destruct (String.eqb_spec "info" x) as [<- | Hi]; [right; now left|].
  destruct (String.eqb_spec "warn" x) as [<- | Hw]; [right; right; now left|].
  destruct (String.eqb_spec "error" x) as [<- | He]; [right; right; right; now left|].
  right. right. right. right. split; [|reflexivity].
  cbn. intuition congruence.
Qed.

(** X13: [log] prints a message exactly when its level comes no earlier
    than the configured level in the order debug, info, warn, error: a
    message at level error is printed under every one of these settings;
    a message whose level is none of the four is not printed under any of
    them; and under a configured level that is none of the four every
    message is printed. *)
Theorem log_gate (level : string) (ai : t) :
  (logs level ai = true <-> indexOf (logLevel ai) levels <= indexOf level levels)
  /\ (In (logLevel ai) levels -> logs "error" ai = true)
  /\ (In (logLevel ai) levels -> ~ In level levels -> logs level ai = false)
  /\ (~ In (logLevel ai) levels -> logs level ai = true)
  /\ (logLevel ai = "error" -> (logs level ai = true <-> level = "error")).
Proof.
  unfold logs.
  assert (Hge : forall a b, (a >=? b) = true <-> b <= a).
  { intros a b. rewrite Z.geb_leb. apply Z.leb_le. }
  assert (Hlt : forall a b, (a >=? b) = false <-> a < b).
  { intros a b. rewrite Z.geb_leb. apply Z.leb_gt. }
  assert (Hrange : forall x,
             -1 <= indexOf x levels <= 3
             /\ (In x levels <-> 0 <= indexOf x levels)
             /\ (x = "error" <-> indexOf x levels = 3)).
  { intros x.
    destruct (indexOf_levels x)
      as [[Hx Hi] | [[Hx Hi] | [[Hx Hi] | [[Hx Hi] | [Hx Hi]]]]];
      rewrite Hi; (split; [lia|]); split; split; intros H;
      try lia; try (rewrite Hx; cbn; tauto); try (rewrite Hx in H; discriminate);
      try contradiction; try exact Hx.
    exfalso. apply Hx. rewrite H. cbn. tauto. }
  destruct (Hrange (logLevel ai)) as (Hcr & Hcin & Hcerr).
  destruct (Hrange level) as (Hlr & Hlin & Hlerr).
  destruct (Hrange "error") as (_ & _ & Herr).
  assert (He3 : indexOf "error" levels = 3) by now apply Herr.
  split; [apply Hge|]. split; [|split; [|split]].
  - intros Hin. apply Hge. rewrite He3. lia.
  - intros Hin Hnot. apply Hlt. apply Hcin in Hin.
    assert (~ 0 <= indexOf level levels) by (intros H; now apply Hnot, Hlin). lia.
  - intros Hnot. apply Hge.
    assert (~ 0 <= indexOf (logLevel ai) levels) by (intros H; now apply Hnot, Hcin). lia.
  - intros Hcfg. apply Hcerr in Hcfg. rewrite Hge, Hcfg, Hlerr. lia.
Qed.

Lemma log_gate_witness :
  logs "error" (mk ModelRegistry.new [] "warn") = true
  /\ logs "verbose" (mk ModelRegistry.new [] "warn") = false
  /\ logs "debug" (mk ModelRegistry.new [] "silent") = true
  /\ logs "error" (mk ModelRegistry.new [] "error") = true.
Proof.
  split; [|split; [|split]].
  - apply (proj1 (proj2 (log_gate "error" (mk ModelRegistry.new [] "warn")))).
    cbn. tauto.
  - apply (proj1 (proj2 (proj2 (log_gate "verbose" (mk ModelRegistry.new [] "warn"))))).
    + cbn. tauto.
    + cbn. intuition discriminate.
  - apply (proj1 (proj2 (proj2 (proj2 (log_gate "debug"
                                         (mk ModelRegistry.new [] "silent")))))).
    cbn. intuition discriminate.
  - apply (proj2 (proj2 (proj2 (proj2 (proj2 (log_gate "error"
                                                (mk ModelRegistry.new [] "error")))))
                   eq_refl)).
    reflexivity.
Defined.

End LogGate.

(** ** The built-in adapters *)

Section BuiltinAdapters.
Import ModelRegistry.

(** X14: with the GGUF and the TFLite adapter registered, in either
    order, the format tag of the model info decides: gguf selects the GGUF
    adapter and tflite the TFLite adapter, whatever the path and the
    hardware; without such a tag the lower-cased path decides, a path
    ending in .gguf selects the GGUF adapter, one ending in .tflite the
    TFLite adapter, and any other path selects none. *)
Theorem builtin_selection_follows_format (modelPath : string)
    (modelInfo : option ModelInfo.t) (hardware : option HardwareInfo.t) (r : t) :
  getAllAdapters r = [Adapters.GGUFAdapter; Adapters.TFLiteAdapter]
  \/ getAllAdapters r = [Adapters.TFLiteAdapter; Adapters.GGUFAdapter] ->
  let tagged := fun tag =>
    match modelInfo with
    | Some i => String.eqb (ModelInfo.format i) tag
    | None => false
    end in
  selectBestAdapter modelPath modelInfo hardware r
  = if tagged "gguf" then Some Adapters.GGUFAdapter
    else if tagged "tflite" then Some Adapters.TFLiteAdapter
    else if Js.endsWith ".gguf" (Js.toLowerCase modelPath)
         then Some Adapters.GGUFAdapter
    else if Js.endsWith ".tflite" (Js.toLowerCase modelPath)
         then Some Adapters.TFLiteAdapter
    else None.
Proof.
  intros Horder tagged. subst tagged. cbv beta.
  unfold selectBestAdapter, candidatesOf, getAllAdapters in *.
  set (eg := Js.endsWith ".gguf" (Js.toLowerCase modelPath)).
  set (et := Js.endsWith ".tflite" (Js.toLowerCase modelPath)).
  set (gpu := match hardware with
              | Some h => HardwareInfo.hasGPU h
              | None => false
              end).
  assert (Hsg : scoreOf modelInfo hardware Adapters.GGUFAdapter
                = (if match modelInfo with
                      | Some i => String.eqb (ModelInfo.format i) "gguf"
                      | None => false
                      end then 100 else 0) + (if gpu then 50 else 0) + 30).
  { unfold scoreOf, gpu. cbn [Adapters.GGUFAdapter ModelAdapter.format
      ModelAdapter.getCapabilities AdapterCapabilities.supportsGPU
      AdapterCapabilities.supportsStreaming AdapterCapabilities.supportsQuantization].
    destruct modelInfo as [i|];
      [destruct (String.eqb (ModelInfo.format i) "gguf")|];
      (destruct hardware as [h|]; [destruct (HardwareInfo.hasGPU h)|]);
      reflexivity. }
  assert (Hst : scoreOf modelInfo hardware Adapters.TFLiteAdapter
                = (if match modelInfo with
                      | Some i => String.eqb (ModelInfo.format i) "tflite"
                      | None => false
                      end then 100 else 0) + (if gpu then 50 else 0) + 10).
  { unfold scoreOf, gpu. cbn [Adapters.TFLiteAdapter ModelAdapter.format
      ModelAdapter.getCapabilities AdapterCapabilities.supportsGPU
      AdapterCapabilities.supportsStreaming AdapterCapabilities.supportsQuantization].
    destruct modelInfo as [i|];
      [destruct (String.eqb (ModelInfo.format i) "tflite")|];
      (destruct hardware as [h|]; [destruct (HardwareInfo.hasGPU h)|]);
      reflexivity. }
  assert (Hcg : ModelAdapter.canHandle Adapters.GGUFAdapter modelPath modelInfo
                = if match modelInfo with
                     | Some i => String.eqb (ModelInfo.format i) "gguf"
                     | None => false
                     end then true else eg) by reflexivity.
  assert (Hct : ModelAdapter.canHandle Adapters.TFLiteAdapter modelPath modelInfo
                = if match modelInfo with
                     | Some i => String.eqb (ModelInfo.format i) "tflite"
                     | None => false
                     end then true else et) by reflexivity.
  assert (Hexcl : match modelInfo with
                  | Some i => String.eqb (ModelInfo.format i) "gguf"
                  | None => false
                  end = true ->
                  match modelInfo with
                  | Some i => String.eqb (ModelInfo.format i) "tflite"
                  | None => false
                  end = false).
  { destruct modelInfo as [i|]; [|discriminate].
    intros H. apply String.eqb_eq in H. now rewrite H. }
  clearbody eg et gpu.
  destruct Horder as [-> | ->]; cbn [fold_left]; rewrite Hcg, Hct, Hsg, Hst;
    destruct (match modelInfo with
              | Some i => String.eqb (ModelInfo.format i) "gguf"
              | None => false
              end) eqn:Hg;
    try rewrite (Hexcl eq_refl);
    destruct (match modelInfo with
              | Some i => String.eqb (ModelInfo.format i) "tflite"
              | None => false
              end) eqn:Ht;
    try discriminate;
    destruct eg; destruct et; destruct gpu; reflexivity.
Qed.

End BuiltinAdapters.

Lemma builtin_selection_follows_format_witness :
  let r := ModelRegistry.registerAll [Adapters.TFLiteAdapter; Adapters.GGUFAdapter]
             ModelRegistry.new in
  ModelRegistry.selectBestAdapter "Llama-7B.GGUF" None None r
  = Some Adapters.GGUFAdapter
  /\ ModelRegistry.selectBestAdapter "model.tflite"
       (Some (ModelInfo.mk "m" "gguf" "llm" 1 "1.0" "123")) None r
     = Some Adapters.GGUFAdapter
  /\ ModelRegistry.selectBestAdapter "model.onnx" None None r = None.
Proof.
  intros r.
  assert (Horder : ModelRegistry.getAllAdapters r
                   = [Adapters.GGUFAdapter; Adapters.TFLiteAdapter]
                   \/ ModelRegistry.getAllAdapters r
                      = [Adapters.TFLiteAdapter; Adapters.GGUFAdapter])
    by (right; reflexivity).
  split; [|split].
  - exact (builtin_selection_follows_format "Llama-7B.GGUF" None None r Horder).
  - exact (builtin_selection_follows_format "model.tflite"
             (Some (ModelInfo.mk "m" "gguf" "llm" 1 "1.0" "123")) None r Horder).
  - exact (builtin_selection_follows_format "model.onnx" None None r Horder).
Defined.

(** ** BackpressureHandler, any bound and any sequence of calls *)

Section BackpressureRunFacts.
Import BackpressureHandler BackpressureRuns.

Lemma run_snoc (calls : list Call) (c : Call) (h : t) :
  run (calls ++ [c]) h = call c (run calls h).
Proof. unfold run. now rewrite fold_left_app. Qed.

(** X15: whatever the bound and the calls, the callers are granted in the
    order in which they called [acquire]: those granted followed by those
    still waiting are the callers in call order, nobody is granted twice
    or skipped; the pending count is the number of grants less the number
    of [release] calls; and callers wait only while the pending count is
    at least the bound. *)
Theorem acquires_granted_in_call_order (bound : Z) (calls : list Call) :
  let h := run calls (new bound) in
  granted h ++ waitingResolvers h = callers calls
  /\ pendingCount h = Z.of_nat (List.length (granted h)) - releases calls
  /\ (waitingResolvers h <> [] -> bound <= pendingCount h)
  /\ maxPending h = bound.
Proof.
  induction calls as [|c calls IH] using rev_ind.
  - cbn. repeat split. congruence.
  - cbv zeta in *. destruct IH as (Horder & Hcount & Hwait & Hmax).
    rewrite run_snoc. unfold callers, releases in *.
    rewrite flat_map_app, filter_app, length_app. cbn [flat_map filter].
    set (h := run calls (new bound)) in *. clearbody h.
    unfold pendingCount in *.
    destruct c as [caller|]; cbn [call app List.length].
    + unfold acquire.
      destruct (Z.ltb_spec (pending h) (maxPending h)) as [Hlt | Hge];
        cbn [granted waitingResolvers pending maxPending].
      * assert (Hnone : waitingResolvers h = []).
        { destruct (waitingResolvers h) as [|w ws]; [reflexivity|].
          assert (bound <= pending h) by (apply Hwait; discriminate). lia. }
        rewrite Hnone in *. rewrite app_nil_r in *.
        split; [now rewrite Horder|]. rewrite length_app. cbn [List.length].
        split; [lia|]. split; [congruence | exact Hmax].
      * split; [now rewrite app_assoc, Horder|].
        split; [lia|]. split; [intros _; lia | exact Hmax].
    + unfold release.
      destruct (waitingResolvers h) as [|w ws] eqn:Hw;
        cbn [granted waitingResolvers pending maxPending].
      * rewrite app_nil_r in Horder. rewrite !app_nil_r.
        split; [exact Horder|]. split; [lia|].
        split; [congruence | exact Hmax].
      * split; [rewrite <- app_assoc; cbn [app]; now rewrite Horder, app_nil_r|].
        rewrite length_app. cbn [List.length].
        assert (bound <= pending h) by (apply Hwait; discriminate).
        split; [lia|]. split; [intros _; lia | exact Hmax].
Qed.

Lemma acquires_granted_in_call_order_witness :
  let h := run [Acquire 7; Acquire 8; Acquire 9; Release; Acquire 10] (new 2) in
  granted h = [7; 8; 9]%nat /\ waitingResolvers h = [10%nat]
  /\ 2 <= pendingCount h.
Proof.
  intros h. split; [reflexivity|]. split; [reflexivity|].
  apply (proj1 (proj2 (proj2 (acquires_granted_in_call_order 2
                                [Acquire 7; Acquire 8; Acquire 9; Release; Acquire 10])))).
  discriminate.
Defined.

(** X16: for every bound that is not negative and every sequence of calls
    in which each [release] finds a permit held, the pending count lies
    between 0 and the bound after each call. *)
Theorem pending_within_any_bound (bound : Z) (calls : list Call) :
  0 <= bound ->
  disciplined calls (new bound) ->
  Forall (fun h => 0 <= pendingCount h <= bound) (observed calls (new bound)).
Proof.
  intros Hbound Hdisc.
  apply (pending_bounded calls (new bound)); [|exact Hdisc].
  split; cbn; [lia | congruence].
Qed.

Lemma pending_within_any_bound_witness :
  Forall (fun h => 0 <= pendingCount h <= 1)
    (observed [Acquire 1; Acquire 2; Release; Release] (new 1)).
Proof.
  apply pending_within_any_bound; [lia|]. cbn. repeat split; lia.
Defined.

End BackpressureRunFacts.

(** ** TokenBuffer, StreamController and StreamCancellation *)

Section MoreTokenBufferFacts.
Import TokenBuffer.

(** X17: a buffer never holds more tokens than its capacity: after any
    tokens were added to a new buffer its length is the smaller of their
    number and the capacity, zero for a capacity that is not positive; and
    after [clear] the buffer holds the last tokens added since, as a new
    buffer of the same capacity would. *)
Theorem token_buffer_length (capacity : Z) (tokens later : list string) :
  length (addAll tokens (new capacity))
  = Z.min (Z.of_nat (List.length tokens)) (Z.max capacity 0)
  /\ length (addAll tokens (new capacity)) <= Z.max capacity 0
  /\ getAll (addAll later (clear (addAll tokens (new capacity))))
     = skipn (List.length later - Z.to_nat capacity) later.
Proof.
  assert (Hlen : length (addAll tokens (new capacity))
                 = Z.min (Z.of_nat (List.length tokens)) (Z.max capacity 0)).
  { unfold length. rewrite buffer_addAll_new, length_skipn. lia. }
  split; [exact Hlen|]. split; [lia|].
  unfold getAll, clear. rewrite maxSize_addAll. cbn [maxSize new].
  apply (buffer_addAll_new capacity later).
Qed.

End MoreTokenBufferFacts.

Section StreamControllerFacts.
Import StreamController.
Context {T : Type}.
Implicit Types (c : StreamController.t T).

(** While the controller is open the platform's stream accepts values. *)
Lemma open_stream_accepts c :
  reachable c -> _closed c = false -> ReadableStream.canEnqueue (_stream c) = true.
Proof.
  induction 1 as [| value c _ IH | c c' _ IH Hclose | c _ IH | c _ IH | c _ IH].
  - reflexivity.
  - unfold push. destruct (_closed c) eqn:Hc; cbn [snd]; [congruence|].
    intros _. specialize (IH eq_refl). unfold ReadableStream.enqueue.
    rewrite IH. reflexivity.
  - unfold close in Hclose. destruct (_closed c) eqn:Hc; cbn [negb] in Hclose.
    + injection Hclose as <-. congruence.
    + destruct (ReadableStream.close (_stream c)); [|discriminate].
      injection Hclose as <-. discriminate.
  - unfold error. destruct (_closed c) eqn:Hc; cbn [negb]; [congruence | discriminate].
  - unfold cancelled. intros Hopen.
    destruct (ReadableStream.state (_stream c)) eqn:Hs;
      cbn [_closed] in Hopen; try discriminate; specialize (IH Hopen);
      unfold ReadableStream.canEnqueue in IH; rewrite Hs in IH; discriminate.
  - unfold consumed. destruct (ReadableStream.read (_stream c)) as [value s] eqn:Hr.
    cbn [snd _closed _stream]. intros Hopen. specialize (IH Hopen).
    unfold ReadableStream.canEnqueue in *. unfold ReadableStream.read in Hr.
    destruct (ReadableStream.state (_stream c)) eqn:Hs; try discriminate.
    destruct (ReadableStream.closeRequested (_stream c)) eqn:Hq; try discriminate.
    destruct (ReadableStream.queue (_stream c)) as [|v rest];
      injection Hr as _ <-; cbn [ReadableStream.state ReadableStream.closeRequested].
    + now rewrite Hs, Hq.
    + now destruct rest.
Qed.

(** X18: in every state of a StreamController reached through [push],
    [close], [error], reads and a cancel of the consumer, [push] returns
    true exactly when the controller is open and then appends the value to
    the queue, and returns false and changes nothing once it is closed;
    [close] never throws, keeps the values queued for the consumer, and is
    without effect the second time; [error] after [close] is without
    effect, and so is a second [error]. *)
Theorem stream_controller_close_is_final c :
  reachable c ->
  (forall value,
      fst (push value c) = negb (isClosed c)
      /\ (isClosed c = true -> snd (push value c) = c)
      /\ (isClosed c = false ->
          ReadableStream.queue (_stream (snd (push value c)))
          = ReadableStream.queue (_stream c) ++ [value]))
  /\ (exists c',
         close c = Some c'
         /\ isClosed c' = true
         /\ ReadableStream.queue (_stream c') = ReadableStream.queue (_stream c)
         /\ close c' = Some c'
         /\ error c' = c'
         /\ forall value, push value c' = (false, c'))
  /\ isClosed (error c) = true
  /\ error (error c) = error c
  /\ close (error c) = Some (error c).
Proof.
  intros Hreach. pose proof (open_stream_accepts c Hreach) as Hopen.
  unfold isClosed. split; [|split; [|split; [|split]]].
  - intros value. unfold push, ReadableStream.enqueue.
    destruct (_closed c) eqn:Hc; cbn [fst snd negb].
    + repeat split; congruence.
    + rewrite (Hopen eq_refl). cbn [fst snd _stream ReadableStream.queue].
      repeat split; congruence.
  - unfold close at 1, ReadableStream.close.
    destruct (_closed c) eqn:Hc; cbn [negb].
    + exists c. split; [reflexivity|]. split; [exact Hc|]. split; [reflexivity|].
      unfold close, error, push. rewrite Hc. cbn [negb]. auto.
    + rewrite (Hopen eq_refl). eexists. split; [reflexivity|].
      cbn [_closed _stream ReadableStream.queue]. auto.
  - unfold error. destruct (_closed c) eqn:Hc; cbn [negb]; [exact Hc | reflexivity].
  - unfold error. destruct (_closed c) eqn:Hc; cbn [negb _closed]; [now rewrite Hc | reflexivity].
  - unfold error, close. destruct (_closed c) eqn:Hc; cbn [negb _closed]; [now rewrite Hc | reflexivity].
Qed.

End StreamControllerFacts.

Lemma stream_controller_close_is_final_witness :
  let c := snd (StreamController.push "world"
                  (snd (StreamController.push "hello" StreamController.new))) in
  StreamController.reachable c
  /\ fst (StreamController.push "!" c) = true
  /\ exists c',
       StreamController.close c = Some c'
       /\ ReadableStream.queue (StreamController._stream c') = ["hello"; "world"]
       /\ StreamController.push "!" c' = (false, c').
Proof.
  intros c.
  assert (Hreach : StreamController.reachable c).
  { apply StreamController.reach_push, StreamController.reach_push,
      StreamController.reach_new. }
  destruct (stream_controller_close_is_final c Hreach)
    as (Hpush & (c' & Hclose & _ & Hqueue & _ & _ & Hfalse) & _).
  split; [exact Hreach|]. split; [exact (proj1 (Hpush "!"))|].
  exists c'. split; [exact Hclose|]. split; [rewrite Hqueue; reflexivity|].
  exact (Hfalse "!").
Defined.

Section StreamCancellationFacts.
Import StreamCancellation.

Lemma cancellation_run_snoc (calls : list Call) (x : Call) (c : t) :
  run (calls ++ [x]) c = call x (run calls c).
Proof. unfold run. now rewrite fold_left_app. Qed.

Lemma registered_snoc (calls : list Call) (x : Call) :
  registered (calls ++ [x])
  = registered calls ++ match x with
                        | Cancel => []
                        | OnCancel callback => [tag callback]
                        end.
Proof. unfold registered. rewrite flat_map_app. cbn [flat_map]. now rewrite app_nil_r. Qed.

Lemma cancels_snoc (calls : list Call) (x : Call) :
  cancels (calls ++ [x])
  = (cancels calls || match x with Cancel => true | OnCancel _ => false end)%bool.
Proof. unfold cancels. rewrite existsb_app. cbn [existsb]. now rewrite orb_false_r. Qed.

(** Before the first [cancel] the callbacks wait in [_onCancel] in the
    order of their registration and none was called; from then on each
    callback registered was called once. *)
Lemma cancellation_invariant (calls : list Call) :
  let c := run calls new in
  _cancelled c = cancels calls
  /\ if cancels calls
     then invoked c = registered calls
     else invoked c = [] /\ List.map tag (_onCancel c) = registered calls.
Proof.
  induction calls as [|x calls IH] using rev_ind; [cbn; auto|].
  cbn zeta in *. rewrite cancellation_run_snoc, registered_snoc, cancels_snoc.
  destruct IH as [Hc Hinv]. destruct x as [|callback]; cbn [call].
  - unfold cancel. rewrite Hc, app_nil_r, orb_true_r.
    destruct (cancels calls); cbn [negb].
    + auto.
    + cbn [_cancelled invoked]. destruct Hinv as [-> ->]. auto.
  - unfold onCancel. rewrite Hc, orb_false_r.
    destruct (cancels calls); cbn [snd _cancelled invoked _onCancel].
    + rewrite Hinv. auto.
    + destruct Hinv as [-> <-]. rewrite map_app. auto.
Qed.

(** X19: over any sequence of [cancel] and [onCancel] calls on a new
    StreamCancellation, no callback is called before the first [cancel];
    once cancelled, the callbacks called are exactly the callbacks
    registered, each once and in the order of registration, whether they
    were registered before the cancel or after it; a second [cancel] does
    nothing; [throwIfCancelled] throws exactly when a cancel took place;
    and [onCancel] throws only when the instance is already cancelled and
    the callback throws. *)
Theorem cancel_calls_each_callback_once (calls : list Call) (callback : Callback) :
  let c := run calls new in
  isCancelled c = cancels calls
  /\ invoked c = (if cancels calls then registered calls else [])
  /\ invoked (cancel c) = registered calls
  /\ cancel (cancel c) = cancel c
  /\ throwIfCancelled c
     = (if cancels calls then Some "Stream was cancelled" else None)
  /\ fst (onCancel callback c) = (cancels calls && throws callback)%bool.
Proof.
  cbn zeta. destruct (cancellation_invariant calls) as [Hc Hinv].
  unfold isCancelled, throwIfCancelled, cancel, onCancel. rewrite Hc.
  destruct (cancels calls); cbn [negb _cancelled invoked fst andb].
  - rewrite Hc. cbn [negb]. auto 6.
  - destruct Hinv as [-> ->]. auto 6.
Qed.

End StreamCancellationFacts.

(** ** transformStream and bufferStream *)

Section StreamFacts.
Import Streams.
Context {T : Type}.

Lemma bufferLoop_batches (bufferSize : Z) (values : list T) :
  forall buffer : list T,
    Z.of_nat (List.length buffer) < Z.max bufferSize 1 ->
    List.concat (fst (bufferLoop bufferSize values buffer))
      ++ snd (bufferLoop bufferSize values buffer) = buffer ++ values
    /\ Forall (fun batch => Z.of_nat (List.length batch) = Z.max bufferSize 1)
         (fst (bufferLoop bufferSize values buffer))
    /\ Z.of_nat (List.length (snd (bufferLoop bufferSize values buffer)))
       < Z.max bufferSize 1.
Proof.
  induction values as [|value rest IH]; intros buffer Hlen; cbn [bufferLoop].
  - cbn [fst snd List.concat]. rewrite app_nil_r. auto.
  - destruct (Z.geb_spec (Z.of_nat (List.length (buffer ++ [value]))) bufferSize)
      as [Hfull | Hroom]; rewrite ?length_app in *; cbn [List.length] in *.
    + specialize (IH [] ltac:(cbn [List.length]; lia)).
      destruct (bufferLoop bufferSize rest []) as [batches kept].
      cbn [fst snd List.concat] in *. destruct IH as (Hcat & Hall & Hkept).
      split; [|split; [|exact Hkept]].
      * rewrite <- !app_assoc. cbn [app] in *. now rewrite Hcat.
      * constructor; [|exact Hall]. rewrite length_app. cbn [List.length]. lia.
    + specialize (IH (buffer ++ [value])
                    ltac:(rewrite length_app; cbn [List.length]; lia)).
      destruct IH as (Hcat & Hall & Hkept).
      split; [|split; assumption].
      rewrite Hcat, <- app_assoc. reflexivity.
Qed.

(** X20: [bufferStream] passes on the error of its source and otherwise
    ends normally; no batch it yields is empty or longer than
    [max bufferSize 1].  When the source ends normally, the batches are
    the items of the source in order, every batch but the last of exactly
    [max bufferSize 1] items.  When the source throws, every batch
    yielded has exactly [max bufferSize 1] items, the batches are the
    items of the source in order up to the last full batch, and the items
    buffered since, fewer than [max bufferSize 1], are never yielded. *)
Theorem bufferStream_batches (bufferSize : Z) (generator : Drained T) :
  let out := bufferStream bufferSize generator in
  let size := Z.max bufferSize 1 in
  thrown out = thrown generator
  /\ Forall (fun batch => 1 <= Z.of_nat (List.length batch) <= size) (yielded out)
  /\ (thrown generator = None ->
      List.concat (yielded out) = yielded generator
      /\ forall earlier final,
           yielded out = earlier ++ [final] ->
           Forall (fun batch => Z.of_nat (List.length batch) = size) earlier)
  /\ (forall e,
         thrown generator = Some e ->
         Forall (fun batch => Z.of_nat (List.length batch) = size) (yielded out)
         /\ exists lost,
              List.concat (yielded out) ++ lost = yielded generator
              /\ Z.of_nat (List.length lost) < size
              /\ (forall batches kept,
                    bufferLoop bufferSize (yielded generator) [] = (batches, kept) ->
                    yielded out = batches /\ lost = kept)).
Proof.
  cbn zeta. unfold bufferStream.
  destruct (bufferLoop_batches bufferSize (yielded generator) [])
    as (Hcat & Hall & Hkept); [cbn [List.length]; lia|].
  destruct (bufferLoop bufferSize (yielded generator) []) as [batches kept].
  cbn [fst snd app] in *.
  assert (Hweak : Forall (fun batch => 1 <= Z.of_nat (List.length batch)
                                       <= Z.max bufferSize 1) batches).
  { eapply Forall_impl; [|exact Hall]. cbn beta. intros batch Hb. lia. }
  destruct (thrown generator) as [e|]; cbn [thrown yielded].
  - split; [reflexivity|]. split; [exact Hweak|]. split; [discriminate|].
    intros e' _. split; [exact Hall|].
    exists kept. split; [exact Hcat|]. split; [exact Hkept|].
    intros batches' kept' [= <- <-]. auto.
  - destruct (Z.gtb_spec (Z.of_nat (List.length kept)) 0) as [Hsome | Hnone];
      cbn [thrown yielded].
    + split; [reflexivity|]. split; [|split; [|discriminate]].
      * apply Forall_app. split; [exact Hweak|]. constructor; [lia | constructor].
      * intros _. split.
        -- rewrite concat_app. cbn [List.concat]. now rewrite app_nil_r.
        -- intros earlier final Heq. apply app_inj_tail in Heq as [<- _]. exact Hall.
    + assert (kept = []) as -> by (destruct kept; [reflexivity | cbn in Hnone; lia]).
      rewrite app_nil_r in Hcat.
      split; [reflexivity|]. split; [exact Hweak|]. split; [|discriminate].
      intros _. split; [exact Hcat|].
      intros earlier final ->. apply Forall_app in Hall. tauto.
Qed.

Context {R : Type}.

(** X21: [transformStream] yields the transformed items of the source, in
    order, up to the first item on which [transform] throws; it then throws
    that error and yields nothing more, whatever the source holds next; when
    [transform] succeeds on every item it ends as the source ends, with the
    source's error if there is one. *)
Theorem transformStream_stops_at_first_failure
    (transform : T -> ErrorHandler.Settled R) (generator : Drained T) :
  let out := transformStream transform generator in
  exists done rest,
    yielded generator = done ++ rest
    /\ Forall2 (fun value result => transform value = ErrorHandler.Fulfilled result)
         done (yielded out)
    /\ match rest with
       | [] => thrown out = thrown generator
       | value :: _ =>
           exists e, transform value = ErrorHandler.Failed e /\ thrown out = Some e
       end.
Proof.
  cbn zeta. unfold transformStream.
  generalize (thrown generator) as sourceError.
  induction (yielded generator) as [|value values IH]; intros sourceError;
    cbn [transformLoop].
  - exists [], []. cbn. auto.
  - destruct (transform value) as [result | e] eqn:Ht.
    + destruct (IH sourceError) as (done & rest & -> & Hall & Hrest).
      exists (value :: done), rest. cbn [yielded thrown app].
      split; [reflexivity|]. split; [|exact Hrest].
      constructor; assumption.
    + exists [], (value :: values). cbn [yielded thrown app].
      split; [reflexivity|]. split; [constructor|]. eauto.
Qed.

Lemma transformLoop_total (f : T -> R) (values : list T)
    (sourceError : option ErrorHandler.Error) :
  transformLoop (fun value => ErrorHandler.Fulfilled (f value)) values sourceError
  = mkDrained (List.map f values) sourceError.
Proof.
  induction values as [|value values IH]; cbn [transformLoop List.map];
    [reflexivity | now rewrite IH].
Qed.

Lemma bufferLoop_map (f : T -> R) (bufferSize : Z) (values : list T) :
  forall buffer : list T,
    bufferLoop bufferSize (List.map f values) (List.map f buffer)
    = (List.map (List.map f) (fst (bufferLoop bufferSize values buffer)),
       List.map f (snd (bufferLoop bufferSize values buffer))).
Proof.
  induction values as [|value values IH]; intros buffer;
    cbn [bufferLoop List.map]; [reflexivity|].
  change (List.map f buffer ++ [f value]) with (List.map f buffer ++ List.map f [value]).
  rewrite <- map_app, length_map.
  destruct (Z.of_nat (List.length (buffer ++ [value])) >=? bufferSize).
  - specialize (IH []). cbn [List.map] in IH. rewrite IH.
    destruct (bufferLoop bufferSize values []) as [batches kept]. reflexivity.
  - apply IH.
Qed.

(** X22: buffering commutes with a transform that does not throw:
    [bufferStream] over [transformStream] yields the batches that
    [bufferStream] yields over the source itself, with every item
    transformed, and ends the same way. *)
Theorem bufferStream_of_transformStream (f : T -> R) (bufferSize : Z)
    (generator : Drained T) :
  bufferStream bufferSize
    (transformStream (fun value => ErrorHandler.Fulfilled (f value)) generator)
  = mkDrained (List.map (List.map f) (yielded (bufferStream bufferSize generator)))
      (thrown (bufferStream bufferSize generator)).
Proof.
  unfold transformStream. rewrite transformLoop_total.
  unfold bufferStream. cbn [yielded thrown].
  pose proof (bufferLoop_map f bufferSize (yielded generator) []) as Hmap.
  cbn [List.map] in Hmap. rewrite Hmap.
  destruct (bufferLoop bufferSize (yielded generator) []) as [batches kept].
  cbn [fst snd]. destruct (thrown generator); cbn [yielded thrown]; [reflexivity|].
  rewrite length_map.
  destruct (Z.of_nat (List.length kept) >? 0); cbn [yielded thrown];
    [|reflexivity].
  now rewrite map_app.
Qed.

End StreamFacts.

Lemma bufferStream_batches_witness :
  let failure := ErrorHandler.PlainError "source failed" in
  let broken := Streams.mkDrained [1; 2; 3] (Some failure) in
  let whole := Streams.mkDrained [1; 2; 3] None in
  Streams.yielded (Streams.bufferStream 2 broken) = [[1; 2]]
  /\ Streams.thrown (Streams.bufferStream 2 broken) = Some failure
  /\ Forall (fun batch => Z.of_nat (List.length batch) = 2)
       (Streams.yielded (Streams.bufferStream 2 broken))
  /\ (exists lost,
        List.concat (Streams.yielded (Streams.bufferStream 2 broken)) ++ lost
        = [1; 2; 3]
        /\ lost = [3])
  /\ Streams.yielded (Streams.bufferStream 2 whole) = [[1; 2]; [3]]
  /\ List.concat (Streams.yielded (Streams.bufferStream 2 whole)) = [1; 2; 3].
Proof.
  intros failure broken whole.
  destruct (bufferStream_batches 2 broken) as (Hthrown & _ & _ & Hbroken).
  destruct (Hbroken failure eq_refl) as (Hfull & lost & Hcat & _ & Hloop).
  destruct (Hloop [[1; 2]] [3] eq_refl) as [Hbatches Hlost].
  destruct (bufferStream_batches 2 whole) as (_ & _ & Hwhole & _).
  split; [exact Hbatches|]. split; [exact Hthrown|]. split; [exact Hfull|].
  split; [exists lost; split; [exact Hcat | exact Hlost]|].
  split; [reflexivity|]. exact (proj1 (Hwhole eq_refl)).
Defined.

(** ** ErrorHandler: which errors are retried, and how a run ends *)

Section MoreRetryFacts.
Import ErrorHandler.
Context {T : Type}.

(** X23: of the errors the [AIError] factories build, [withRetry] retries
    exactly those of [modelLoadFailed], [inferenceFailed], [timeoutError]
    and [networkError]; the errors of [modelNotFound], [invalidInput] and
    [configurationError] are marked recoverable and are not retried all the
    same, and those of [unsupportedFormat], [memoryError] and
    [hardwareError] are neither; an operation that fails with an error that
    is not retried is called once, whatever [maxRetries] allows. *)
Theorem factory_errors_retried
    (operation : nat -> Settled T) (error : Error) (maxRetries backoffMs : Z)
    (a b : string) (m n : Z) :
  (isRetryable (modelLoadFailed a) = true
   /\ isRetryable (inferenceFailed a) = true
   /\ isRetryable (timeoutError a m) = true
   /\ isRetryable (networkError a) = true)
  /\ (isRetryable (modelNotFound a) = false
      /\ isRetryable (invalidInput a b) = false
      /\ isRetryable (configurationError a b) = false
      /\ isRetryable (unsupportedFormat a) = false
      /\ isRetryable (memoryError m n) = false
      /\ isRetryable (hardwareError a) = false)
  /\ (In error [modelNotFound a; invalidInput a b; configurationError a b;
                unsupportedFormat a; memoryError m n; hardwareError a] ->
      0 <= maxRetries ->
      operation 0%nat = Failed error ->
      attempts (withRetry operation maxRetries backoffMs) = 1%nat
      /\ outcome (withRetry operation maxRetries backoffMs) = Thrown (Some error)
      /\ delays (withRetry operation maxRetries backoffMs) = []).
Proof.
  split; [repeat split|]. split; [repeat split|].
  intros Hin Hmax Hfail.
  assert (Hnot : isRetryable error = false).
  { cbn [In] in Hin.
    repeat (destruct Hin as [<- | Hin]; [reflexivity|]). contradiction. }
  unfold withRetry.
  destruct (Z.to_nat (maxRetries + 1)) as [|remaining] eqn:Hrem; [lia|].
  cbn [retryFrom]. rewrite Hfail, Hnot. cbn [negb].
  rewrite orb_true_r. cbn [attempts outcome delays]. auto.
Qed.

Lemma retryFrom_run (operation : nat -> Settled T) (maxRetries backoffMs : Z)
    (remaining : nat) :
  forall (attempt : Z) (calls : nat) (slept : list Z) (lastError : option Error),
    attempt + Z.of_nat remaining = maxRetries + 1 ->
    (0 < remaining)%nat ->
    attempt = Z.of_nat calls ->
    (forall k, (k < calls)%nat ->
               exists e, operation k = Failed e /\ isRetryable e = true) ->
    let run := retryFrom operation maxRetries backoffMs remaining attempt calls
                 slept lastError in
    (calls < attempts run)%nat
    /\ Z.of_nat (attempts run) <= maxRetries + 1
    /\ (forall k, (k < attempts run - 1)%nat ->
                  exists e, operation k = Failed e /\ isRetryable e = true)
    /\ match outcome run with
       | Returned value => operation (attempts run - 1)%nat = Fulfilled value
       | Thrown (Some e) =>
           operation (attempts run - 1)%nat = Failed e
           /\ (Z.of_nat (attempts run) = maxRetries + 1 \/ isRetryable e = false)
       | Thrown None => False
       end.
Proof.
  induction remaining as [|remaining IH];
    intros attempt calls slept lastError Hsum Hpos Hatt Hbefore; [lia|].
  cbn [retryFrom].
  destruct (operation calls) as [value | error] eqn:Hop.
  - cbn [attempts outcome]. replace (S calls - 1)%nat with calls by lia.
    repeat split; [lia | lia | exact Hbefore | exact Hop].
  - destruct (Z.eqb_spec attempt maxRetries) as [Hlast | Hmore]; cbn [orb].
    + cbn [attempts outcome]. replace (S calls - 1)%nat with calls by lia.
      repeat split; [lia | lia | exact Hbefore | exact Hop | left; lia].
    + destruct (isRetryable error) eqn:Hretry; cbn [negb].
      * destruct (IH (attempt + 1) (S calls) (slept ++ [backoffMs * 2 ^ attempt])
                    (Some error)) as (Hlt & Hle & Hpre & Hout); try lia.
        { intros k Hk. destruct (Nat.eq_dec k calls) as [-> | Hne].
          - eauto.
          - apply Hbefore. lia. }
        cbn zeta. repeat split; [lia | exact Hle | exact Hpre | exact Hout].
      * cbn [attempts outcome]. replace (S calls - 1)%nat with calls by lia.
        repeat split; [lia | lia | exact Hbefore | exact Hop | right; exact Hretry].
Qed.

Lemma geometric_delays (backoffMs : Z) (n : nat) :
  fold_right Z.add 0 (List.map (fun i => backoffMs * 2 ^ Z.of_nat i) (seq 0 n))
  = backoffMs * (2 ^ Z.of_nat n - 1).
Proof.
  induction n as [|n IH]; [cbn; lia|].
  rewrite seq_S, map_app, fold_right_app. cbn [List.map fold_right Nat.add].
  assert (Hshift : forall (l : list Z) (z : Z),
             fold_right Z.add z l = fold_right Z.add 0 l + z).
  { induction l as [|x l IHl]; intros z; cbn [fold_right]; [lia|].
    rewrite IHl. lia. }
  rewrite Hshift, IH.
  replace (Z.of_nat (S n)) with (Z.of_nat n + 1) by lia.
  rewrite Z.pow_add_r by lia. lia.
Qed.

(** X24: how every run of [withRetry] ends.  With [maxRetries] below zero
    the operation is never called and the value thrown is [undefined].
    Otherwise the operation is called at least once and at most
    [maxRetries + 1] times; every call but the last failed with a retryable
    error; the run returns the value of the last call, or throws the error
    of the last call, which was then either the call number
    [maxRetries + 1] or not retryable; and the delays slept add up to
    [backoffMs * (2 ^ (attempts - 1) - 1)]. *)
Theorem withRetry_runs (operation : nat -> Settled T) (maxRetries backoffMs : Z) :
  let run := withRetry operation maxRetries backoffMs in
  (maxRetries < 0 -> run = mkRun (Thrown None) 0 [])
  /\ (0 <= maxRetries ->
      (1 <= attempts run)%nat
      /\ Z.of_nat (attempts run) <= maxRetries + 1
      /\ (forall k, (k < attempts run - 1)%nat ->
                    exists e, operation k = Failed e /\ isRetryable e = true)
      /\ match outcome run with
         | Returned value => operation (attempts run - 1)%nat = Fulfilled value
         | Thrown (Some e) =>
             operation (attempts run - 1)%nat = Failed e
             /\ (Z.of_nat (attempts run) = maxRetries + 1 \/ isRetryable e = false)
         | Thrown None => False
         end
      /\ fold_right Z.add 0 (delays run)
         = backoffMs * (2 ^ Z.of_nat (attempts run - 1) - 1)).
Proof.
  cbn zeta. split.
  - intros Hneg. unfold withRetry.
    replace (Z.to_nat (maxRetries + 1)) with 0%nat by lia. reflexivity.
  - intros Hmax.
    assert (Hsum : fold_right Z.add 0 (delays (withRetry operation maxRetries backoffMs))
                   = backoffMs
                     * (2 ^ Z.of_nat (attempts (withRetry operation maxRetries backoffMs) - 1)
                        - 1)).
    { rewrite withRetry_delays. apply geometric_delays. }
    revert Hsum. unfold withRetry.
    destruct (Z.to_nat (maxRetries + 1)) as [|remaining] eqn:Hrem; [lia|].
    intros Hsum.
    destruct (retryFrom_run operation maxRetries backoffMs (S remaining) 0 0%nat [] None)
      as (Hlt & Hle & Hpre & Hout); try lia.
    repeat split; try assumption; lia.
Qed.

End MoreRetryFacts.

Lemma factory_errors_retried_witness :
  let operation := fun _ : nat =>
    ErrorHandler.Failed (T := Z) (ErrorHandler.modelNotFound "llama") in
  ErrorHandler.attempts (ErrorHandler.withRetry operation 3 1000) = 1%nat
  /\ ErrorHandler.outcome (ErrorHandler.withRetry operation 3 1000)
     = ErrorHandler.Thrown (Some (ErrorHandler.modelNotFound "llama"))
  /\ ErrorHandler.delays (ErrorHandler.withRetry operation 3 1000) = [].
Proof.
  intros operation.
  refine (proj2 (proj2 (factory_errors_retried operation
                          (ErrorHandler.modelNotFound "llama") 3 1000
                          "llama" "b" 0 0)) _ _ _).
  - left. reflexivity.
  - lia.
  - reflexivity.
Defined.

Lemma withRetry_runs_witness :
  let operation := fun k : nat =>
    if (k <? 2)%nat
    then ErrorHandler.Failed (ErrorHandler.networkError "https://models/llama.gguf")
    else ErrorHandler.Fulfilled 7 in
  let run := ErrorHandler.withRetry operation 3 1000 in
  (1 <= ErrorHandler.attempts run)%nat
  /\ Z.of_nat (ErrorHandler.attempts run) <= 3 + 1
  /\ fold_right Z.add 0 (ErrorHandler.delays run)
     = 1000 * (2 ^ Z.of_nat (ErrorHandler.attempts run - 1) - 1)
  /\ ErrorHandler.withRetry operation (-1) 1000
     = ErrorHandler.mkRun (ErrorHandler.Thrown None) 0 [].
Proof.
  intros operation run.
  destruct (withRetry_runs operation 3 1000) as [_ Hrun].
  destruct (Hrun ltac:(lia)) as (Hone & Hmost & _ & _ & Hsum).
  destruct (withRetry_runs operation (-1) 1000) as [Hnever _].
  split; [exact Hone|]. split; [exact Hmost|]. split; [exact Hsum|].
  apply Hnever. lia.
Defined.

(** ** TFLiteAdapter.applyNMS *)

Section SortByConfidence.
Import NMS.

Lemma sort_insert_In {A : Type} (cmp : A -> A -> Z) (x z : A) (l : list A) :
  In z (Js.sort_insert cmp x l) <-> z = x \/ In z l.
Proof.
  induction l as [|y l IH]; cbn [Js.sort_insert In]; [intuition auto|].
  destruct (cmp x y <=? 0); cbn [In]; [intuition auto|].
  rewrite IH. intuition auto.
Qed.

Lemma sort_In {A : Type} (cmp : A -> A -> Z) (z : A) (l : list A) :
  In z (Js.sort cmp l) <-> In z l.
Proof.
  induction l as [|x l IH]; cbn [Js.sort In]; [tauto|].
  rewrite sort_insert_In, IH. intuition auto.
Qed.

Lemma sort_insert_length {A : Type} (cmp : A -> A -> Z) (x : A) (l : list A) :
  List.length (Js.sort_insert cmp x l) = S (List.length l).
Proof.
  induction l as [|y l IH]; cbn [Js.sort_insert]; [reflexivity|].
  destruct (cmp x y <=? 0); cbn [List.length]; [reflexivity | now rewrite IH].
Qed.

Lemma sort_length {A : Type} (cmp : A -> A -> Z) (l : list A) :
  List.length (Js.sort cmp l) = List.length l.
Proof.
  induction l as [|x l IH]; cbn [Js.sort]; [reflexivity|].
  now rewrite sort_insert_length, IH.
Qed.

Lemma sort_insert_descending (box : DetectionBox.t) (boxes : list DetectionBox.t) :
  descending boxes -> descending (Js.sort_insert byConfidence box boxes).
Proof.
  unfold descending. induction 1 as [|first rest Hfirst Hrest IH];
    cbn [Js.sort_insert]; [repeat constructor|].
  unfold byConfidence at 1.
  destruct (Qcompare_spec (DetectionBox.confidence first) (DetectionBox.confidence box))
    as [Heq | Hlt | Hgt]; cbn [Z.leb Z.compare].
  - constructor; [|now constructor]. constructor; [now rewrite Heq; apply Qle_refl|].
    eapply Forall_impl; [|exact Hfirst]. cbn beta. intros other Hother.
    rewrite <- Heq. exact Hother.
  - constructor; [|now constructor]. constructor; [now apply Qlt_le_weak|].
    eapply Forall_impl; [|exact Hfirst]. cbn beta. intros other Hother.
    eapply Qle_trans; [exact Hother | now apply Qlt_le_weak].
  - constructor; [|exact IH]. apply Forall_forall. intros other Hother.
    apply sort_insert_In in Hother. destruct Hother as [-> | Hother].
    + now apply Qlt_le_weak.
    + rewrite Forall_forall in Hfirst. now apply Hfirst.
Qed.

Lemma sort_descending (boxes : list DetectionBox.t) :
  descending (Js.sort byConfidence boxes).
Proof.
  induction boxes as [|box boxes IH]; cbn [Js.sort]; [constructor|].
  now apply sort_insert_descending.
Qed.

End SortByConfidence.

Section SuppressionFacts.
Import NMS.
Variable exceeds : DetectionBox.t -> DetectionBox.t -> bool.
Implicit Types (boxes : list DetectionBox.t) (suppressed : list nat).

Lemma has_cons (j i : nat) suppressed :
  has j (i :: suppressed) = (Nat.eqb j i || has j suppressed)%bool.
Proof. reflexivity. Qed.

(** What the inner loop leaves in [suppressed]. *)
Lemma suppress_fold boxes (boxI : DetectionBox.t) (indices : list nat) :
  forall suppressed (j : nat),
    has j (fold_left (suppressStep exceeds boxes boxI) indices suppressed)
    = (has j suppressed
       || (existsb (Nat.eqb j) indices
           && match nth_error boxes j with
              | Some boxJ => exceeds boxI boxJ
              | None => false
              end))%bool.
Proof.
  induction indices as [|i indices IH]; intros suppressed j; cbn [fold_left existsb].
  - now rewrite andb_false_l, orb_false_r.
  - rewrite IH. unfold suppressStep.
    destruct (Nat.eqb_spec j i) as [-> | Hne]; cbn [orb andb].
    + destruct (has i suppressed) eqn:Hi; [now rewrite Hi|].
      destruct (nth_error boxes i) as [boxJ|]; [|now rewrite Hi, andb_false_r].
      destruct (exceeds boxI boxJ).
      * rewrite has_cons, Nat.eqb_refl. reflexivity.
      * now rewrite Hi, andb_false_r.
    + destruct (has i suppressed); [reflexivity|].
      destruct (nth_error boxes i) as [boxJ|]; [|reflexivity].
      destruct (exceeds boxI boxJ); [|reflexivity].
      rewrite has_cons. apply Nat.eqb_neq in Hne. now rewrite Hne.
Qed.

Lemma alive_after_suppress boxes (boxI : DetectionBox.t) suppressed (indices : list nat) :
  alive boxes (fold_left (suppressStep exceeds boxes boxI) indices suppressed) indices
  = filter (fun other => negb (exceeds boxI other)) (alive boxes suppressed indices).
Proof.
  unfold alive.
  assert (G : forall later : list nat,
             incl later indices ->
             flat_map (fun j =>
                         if has j (fold_left (suppressStep exceeds boxes boxI)
                                     indices suppressed)
                         then []
                         else match nth_error boxes j with
                              | Some box => [box]
                              | None => []
                              end) later
             = filter (fun other => negb (exceeds boxI other))
                 (flat_map (fun j =>
                              if has j suppressed then []
                              else match nth_error boxes j with
                                   | Some box => [box]
                                   | None => []
                                   end) later)).
  { induction later as [|j later IH]; intros Hincl; cbn [flat_map]; [reflexivity|].
    rewrite filter_app, <- IH by (intros k Hk; apply Hincl; now right).
    f_equal. rewrite suppress_fold.
    assert (Hj : existsb (Nat.eqb j) indices = true).
    { apply existsb_exists. exists j. split; [apply Hincl; now left|].
      apply Nat.eqb_refl. }
    rewrite Hj. cbn [andb].
    destruct (has j suppressed); cbn [orb filter]; [reflexivity|].
    destruct (nth_error boxes j) as [boxJ|]; cbn [filter]; [|reflexivity].
    destruct (exceeds boxI boxJ); reflexivity. }
  apply G, incl_refl.
Qed.

Lemma filter_length_le {A : Type} (p : A -> bool) (l : list A) :
  (List.length (filter p l) <= List.length l)%nat.
Proof.
  induction l as [|a l IH]; cbn [filter List.length]; [lia|].
  destruct (p a); cbn [List.length]; lia.
Qed.

(** Fuel beyond the number of boxes changes nothing. *)
Lemma greedy_fuel (fuel : nat) :
  forall (more : nat) boxes,
    (List.length boxes <= fuel)%nat -> (List.length boxes <= more)%nat ->
    greedy exceeds fuel boxes = greedy exceeds more boxes.
Proof.
  induction fuel as [|fuel IH]; intros more boxes Hfuel Hmore.
  - destruct boxes; [|cbn in Hfuel; lia]. now destruct more.
  - destruct boxes as [|box rest]; [now destruct more|].
    destruct more as [|more]; [cbn in Hmore; lia|].
    cbn [greedy List.length] in *. f_equal.
    pose proof (filter_length_le (fun other => negb (exceeds box other)) rest).
    apply IH; lia.
Qed.

Lemma alive_length boxes suppressed (indices : list nat) :
  (List.length (alive boxes suppressed indices) <= List.length indices)%nat.
Proof.
  unfold alive. induction indices as [|j indices IH]; cbn [flat_map List.length];
    [lia|].
  rewrite length_app.
  destruct (has j suppressed); [cbn [List.length]; lia|].
  destruct (nth_error boxes j); cbn [List.length]; lia.
Qed.

(** The outer loop from the index [i] on. *)
Lemma keep_fold boxes (count : nat) :
  forall (i : nat) (result : list DetectionBox.t) suppressed,
    (i + count = List.length boxes)%nat ->
    fst (fold_left (keepStep exceeds boxes) (seq i count) (result, suppressed))
    = result ++ greedy exceeds count (alive boxes suppressed (seq i count)).
Proof.
  induction count as [|count IH]; intros i result suppressed Hlen;
    cbn [seq fold_left]; [cbn; now rewrite app_nil_r|].
  unfold keepStep at 2. cbn [fst snd].
  change (alive boxes suppressed (i :: seq (S i) count))
    with ((if has i suppressed then []
           else match nth_error boxes i with
                | Some box => [box]
                | None => []
                end) ++ alive boxes suppressed (seq (S i) count)).
  destruct (has i suppressed).
  - rewrite IH by lia. cbn [app]. f_equal.
    apply greedy_fuel; pose proof (alive_length boxes suppressed (seq (S i) count));
      rewrite length_seq in *; lia.
  - destruct (nth_error boxes i) as [boxI|] eqn:Hnth.
    + replace (List.length boxes - S i)%nat with count by lia.
      rewrite IH by lia. rewrite <- app_assoc. cbn [app greedy].
      now rewrite alive_after_suppress.
    + apply nth_error_None in Hnth. lia.
Qed.

Lemma alive_all boxes :
  alive boxes [] (seq 0 (List.length boxes)) = boxes.
Proof.
  unfold alive. cbn [has existsb].
  induction boxes as [|box boxes IH] using rev_ind; [reflexivity|].
  rewrite length_app. cbn [List.length]. rewrite Nat.add_1_r, seq_S, flat_map_app.
  cbn [Nat.add flat_map]. rewrite nth_error_app2 by lia.
  rewrite Nat.sub_diag. cbn [nth_error]. rewrite app_nil_r. f_equal.
  rewrite <- IH at 2. clear IH.
  assert (G : forall indices : list nat,
             Forall (fun j => (j < List.length boxes)%nat) indices ->
             flat_map (fun j => match nth_error (boxes ++ [box]) j with
                                | Some b => [b]
                                | None => []
                                end) indices
             = flat_map (fun j => match nth_error boxes j with
                                  | Some b => [b]
                                  | None => []
                                  end) indices).
  { induction 1 as [|j indices Hj _ IH]; cbn [flat_map]; [reflexivity|].
    now rewrite IH, nth_error_app1 by exact Hj. }
  apply G, Forall_forall. intros j Hj. apply in_seq in Hj. lia.
Qed.

(** The two loops select as the recursion on the list does. *)
Lemma suppressLoop_greedy boxes :
  suppressLoop exceeds boxes = greedy exceeds (List.length boxes) boxes.
Proof.
  unfold suppressLoop. rewrite keep_fold by lia. cbn [app].
  now rewrite alive_all.
Qed.

Lemma greedy_incl (fuel : nat) :
  forall boxes, incl (greedy exceeds fuel boxes) boxes.
Proof.
  induction fuel as [|fuel IH]; intros boxes; [intros b []|].
  destruct boxes as [|box rest]; [intros b []|].
  cbn [greedy]. intros b [<- | Hb]; [now left|].
  right. apply IH in Hb. apply filter_In in Hb. tauto.
Qed.

Lemma greedy_spared (fuel : nat) (box : DetectionBox.t) boxes :
  Forall (fun other => exceeds box other = false)
    (greedy exceeds fuel (filter (fun other => negb (exceeds box other)) boxes)).
Proof.
  apply Forall_forall. intros other Hother.
  apply greedy_incl, filter_In in Hother. destruct Hother as [_ Hother].
  now apply negb_true_iff in Hother.
Qed.

Lemma descending_filter (p : DetectionBox.t -> bool) boxes :
  descending boxes -> descending (filter p boxes).
Proof.
  unfold descending. induction 1 as [|box rest Hbox Hrest IH]; cbn [filter];
    [constructor|].
  destruct (p box); [|exact IH]. constructor; [|exact IH].
  apply Forall_forall. intros other Hother. apply filter_In in Hother.
  rewrite Forall_forall in Hbox. apply Hbox. tauto.
Qed.

Lemma greedy_selection (fuel : nat) :
  forall boxes,
    (List.length boxes <= fuel)%nat ->
    descending boxes ->
    descending (greedy exceeds fuel boxes)
    /\ ForallOrdPairs (fun kept later => exceeds kept later = false)
         (greedy exceeds fuel boxes)
    /\ (forall box,
           In box boxes ->
           In box (greedy exceeds fuel boxes)
           \/ exists kept,
               In kept (greedy exceeds fuel boxes)
               /\ exceeds kept box = true
               /\ (DetectionBox.confidence box <= DetectionBox.confidence kept)%Q).
Proof.
  induction fuel as [|fuel IH]; intros boxes Hfuel Hdesc.
  - destruct boxes; [|cbn in Hfuel; lia]. cbn [greedy].
    split; [constructor|]. split; [constructor|]. intros box [].
  - destruct boxes as [|first rest]; cbn [greedy].
    { split; [constructor|]. split; [constructor|]. intros box []. }
    inversion Hdesc as [|? ? Hfirst Hrest]; subst.
    pose proof (filter_length_le (fun other => negb (exceeds first other)) rest) as Hle.
    cbn [List.length] in Hfuel.
    destruct (IH (filter (fun other => negb (exceeds first other)) rest)
                ltac:(lia) (descending_filter _ _ Hrest))
      as (Hd & Hpairs & Hcover).
    split; [|split].
    + constructor; [|exact Hd]. apply Forall_forall. intros other Hother.
      apply greedy_incl, filter_In in Hother.
      rewrite Forall_forall in Hfirst. apply Hfirst. tauto.
    + constructor; [apply greedy_spared | exact Hpairs].
    + intros box [<- | Hbox]; [left; now left|].
      destruct (exceeds first box) eqn:Hex.
      * right. exists first. split; [now left|]. split; [exact Hex|].
        rewrite Forall_forall in Hfirst. now apply Hfirst.
      * destruct (Hcover box) as [Hkept | (kept & Hkept & Hover & Hconf)].
        { apply filter_In. split; [exact Hbox | now rewrite Hex]. }
        { left. now right. }
        { right. exists kept. split; [now right | split; assumption]. }
Qed.

(** X25: non-maximum suppression, for any overlap test.  The boxes
    [applyNMS] returns are boxes of its input, in descending order of
    confidence; the first of them is the first box of the sorted input, a
    box of highest confidence; no box returned is exceeded by a box
    returned before it; and every box of the input that is not returned
    is exceeded by a box that is returned and whose confidence is not
    lower.  The two loops over indices select the boxes that the recursion
    [greedy] selects. *)
Theorem applyNMS_suppresses_overlaps boxes :
  let sorted := Js.sort byConfidence boxes in
  let result := applyNMS exceeds boxes in
  result = greedy exceeds (List.length boxes) sorted
  /\ incl result boxes
  /\ (List.length result <= List.length boxes)%nat
  /\ descending result
  /\ hd_error result = hd_error sorted
  /\ Forall (fun box => (DetectionBox.confidence box
                         <= match hd_error result with
                            | Some best => DetectionBox.confidence best
                            | None => 0
                            end)%Q) boxes
  /\ ForallOrdPairs (fun kept later => exceeds kept later = false) result
  /\ Forall (fun box =>
               In box result
               \/ exists kept,
                   In kept result
                   /\ exceeds kept box = true
                   /\ (DetectionBox.confidence box <= DetectionBox.confidence kept)%Q)
       boxes.
Proof.
  cbn zeta. unfold applyNMS. rewrite suppressLoop_greedy, sort_length.
  pose proof (sort_descending boxes) as Hsorted.
  pose proof (sort_length byConfidence boxes) as Hlen.
  destruct (greedy_selection (List.length boxes) (Js.sort byConfidence boxes)
              ltac:(lia) Hsorted) as (Hdesc & Hpairs & Hcover).
  assert (Hincl : incl (greedy exceeds (List.length boxes) (Js.sort byConfidence boxes))
                    boxes).
  { intros box Hbox. apply greedy_incl in Hbox. now apply sort_In in Hbox. }
  assert (Hhd : hd_error (greedy exceeds (List.length boxes) (Js.sort byConfidence boxes))
                = hd_error (Js.sort byConfidence boxes)).
  { destruct (Js.sort byConfidence boxes) as [|first rest]; [now destruct (List.length boxes)|].
    cbn [List.length] in Hlen. rewrite <- Hlen. reflexivity. }
  split; [reflexivity|]. split; [exact Hincl|]. split; [|split; [exact Hdesc|]].
  { assert (G : forall fuel l, (List.length (greedy exceeds fuel l) <= List.length l)%nat).
    { induction fuel as [|fuel IH]; intros l; [cbn; lia|].
      destruct l as [|b l]; cbn [greedy List.length]; [lia|].
      specialize (IH (filter (fun other => negb (exceeds b other)) l)).
      pose proof (filter_length_le (fun other => negb (exceeds b other)) l). lia. }
    rewrite <- Hlen at 2. apply G. }
  split; [exact Hhd|]. split; [|split; [exact Hpairs|]].
  - rewrite Hhd. apply Forall_forall. intros box Hbox.
    apply (sort_In byConfidence) in Hbox.
    destruct (Js.sort byConfidence boxes) as [|first rest]; [destruct Hbox|].
    cbn [hd_error]. inversion Hsorted as [|? ? Hfirst _]; subst.
    destruct Hbox as [<- | Hbox]; [apply Qle_refl|].
    rewrite Forall_forall in Hfirst. now apply Hfirst.
  - apply Forall_forall. intros box Hbox. apply Hcover. now apply sort_In.
Qed.

End SuppressionFacts.

(** ** IDGAF.inferModelInfoFromUrl *)

Section UrlInferenceFacts.
Import UrlInference.











End UrlInferenceFacts.

